(** * aster-cli: the trading engine of [src/engine/tradingEngine.js]

    A shallow embedding of the [TradingEngine] class and a verification of
    the behaviour its specification describes: the quantity and PnL
    arithmetic, the inter-leg jitter, the open phase of a group with its
    margin and critical-error exits, the emergency unwind, the close phase,
    the PnL ledger, the quarantine poll and the manual flatten operation.

    Conventions of the embedding.
    - A JavaScript number is a rational or [NaN]. The order quantity, the
      sampled position size and the inter-leg delay are computed with the
      binary64 operations of [Js] ([add64], [sub64], [mul64], [div64]),
      which round to the nearest double, a tie to the even one; the
      remaining arithmetic (PnL, close time, indices) is kept exact. The
      infinities and the sign of zero are outside the model (a division by
      zero and an overflow are marked where they occur).
    - [async] methods are functions in a state-and-exception monad over
      [State]: the engine's fields together with the clock, the log of
      requests sent to the exchange and the log of emitted events.
    - The exchange, the clock's latencies and [Math.random] are an oracle
      ([Exchange]): the reply to the n-th request and the n-th random draw.
      Every theorem quantifies over it.
    - [Logger] calls have no effect on the engine and are left out. *)

From Stdlib Require Import ZArith QArith Qround Qabs Qpower String Ascii List Lia Lqa Bool.
From Stdlib Require Import DecimalString.
From stdpp Require Import gmap strings list.
Import ListNotations.

#[local] Open Scope string_scope.
#[local] Open Scope Z_scope.
#[local] Open Scope list_scope.

(** ** JavaScript values *)

Module Js.

(** Numbers: finite rationals and [NaN]. *)
Inductive number : Type :=
| NaN
| Num (q : Q).

(** Values that reach the engine through JSON replies and optional
    arguments. *)
Inductive value : Type :=
| Undefined
| Null
| Str (s : string)
| Number (n : number).

Definition lift2 (f : Q -> Q -> Q) (a b : number) : number :=
  match a, b with
  | Num x, Num y => Num (f x y)
  | _, _ => NaN
  end.

Definition add : number -> number -> number := lift2 Qplus.
Definition sub : number -> number -> number := lift2 Qminus.
Definition mul : number -> number -> number := lift2 Qmult.

(** [a / b]. JavaScript gives an infinity (or [NaN] for [0 / 0]) when [b] is
    zero; the model has no infinities and gives [NaN] there. *)
Definition div (a b : number) : number :=
  match a, b with
  | Num x, Num y => if Qeq_bool y 0 then NaN else Num (x / y)
  | _, _ => NaN
  end.


(** [Math.abs]. *)
Definition abs (a : number) : number :=
  match a with
  | Num x => Num (Qabs x)
  | NaN => NaN
  end.

(** [Math.floor]. *)
Definition floor (a : number) : number :=
  match a with
  | Num x => Num (inject_Z (Qfloor x))
  | NaN => NaN
  end.

(** [Math.round]: the nearest integer, a tie going towards plus infinity. *)
Definition round (a : number) : number :=
  match a with
  | Num x => Num (inject_Z (Qfloor (x + (1 # 2))))
  | NaN => NaN
  end.

(** [Math.pow(10, n)] for an integer [n]. *)
Definition pow10 (n : Z) : number := Num (Qpower 10 n).

(** [a > b]: false as soon as one side is [NaN]. *)
Definition gt (a b : number) : bool :=
  match a, b with
  | Num x, Num y => negb (Qle_bool x y)
  | _, _ => false
  end.

Definition ofZ (z : Z) : number := Num (inject_Z z).

(** Same value up to the representation of a rational ([NaN] is [NaN]). *)
Definition same (a b : number) : Prop :=
  match a, b with
  | NaN, NaN => True
  | Num x, Num y => (x == y)%Q
  | _, _ => False
  end.

(** *** Binary64

    The operations below round as IEEE 754 binary64 arithmetic does: to
    the nearest double, a tie going to the double with the even
    significand, with gradual underflow. *)

(** [2^e]. *)
Definition pow2 (e : Z) : Q := Qpower 2 e.

(** The binade of a non-zero [x]: the [e] with 2^e <= |x| < 2^(e+1). *)
Definition binade (x : Q) : Z :=
  let e := Z.log2 (Z.abs (Qnum x)) - Z.log2 (Zpos (Qden x)) in
  if Qle_bool (pow2 e) (Qabs x) then e else e - 1.

(** The nearest integer, a tie going to the even one. *)
Definition rne (y : Q) : Z :=
  let f := Qfloor y in
  match (y - inject_Z f ?= 1 # 2)%Q with
  | Lt => f
  | Gt => f + 1
  | Eq => if Z.even f then f else f + 1
  end.

(** The doubles around [x] are the multiples of 2^[ulpExp x]: 52 binary
    places below the binade of [x], and 2^-1074 among the subnormals. *)
Definition ulpExp (x : Q) : Z := Z.max (binade x) (-1022) - 52.

(** Round to nearest, ties to even, as if the exponent had no upper
    bound. *)
Definition nearest (x : Q) : Q :=
  if Qeq_bool x 0 then 0%Q
  else (inject_Z (rne (x / pow2 (ulpExp x))) * pow2 (ulpExp x))%Q.

(** The Number value for [x]. From 2^1024 - 2^970 on JavaScript gives an
    infinity; the model has no infinities and gives [NaN] there. *)
Definition f64 (x : Q) : number :=
  let y := nearest x in
  if Qle_bool (pow2 1024) (Qabs y) then NaN else Num y.

(** The double that a number of the model stands for. Configuration
    values, draws and the results of [parseFloat] are written as the
    rational that their decimal notation denotes; JavaScript holds the
    nearest double, and so do the binary64 operations when they read an
    operand. A double stands for itself. *)
Definition val (a : number) : number :=
  match a with
  | Num x => f64 x
  | NaN => NaN
  end.

Definition lift64 (f : Q -> Q -> Q) (a b : number) : number :=
  match val a, val b with
  | Num x, Num y => f64 (f x y)
  | _, _ => NaN
  end.

(** [a + b], [a - b] and [a * b] in binary64. *)
Definition add64 : number -> number -> number := lift64 Qplus.
Definition sub64 : number -> number -> number := lift64 Qminus.
Definition mul64 : number -> number -> number := lift64 Qmult.

(** [a / b] in binary64; as for [div], [NaN] when [b] is zero. *)
Definition div64 (a b : number) : number :=
  match val a, val b with
  | Num x, Num y => if Qeq_bool y 0 then NaN else f64 (x / y)
  | _, _ => NaN
  end.

(** [x] is a double. *)
Definition isDouble (x : Q) : bool :=
  Qeq_bool (nearest x) x && negb (Qle_bool (pow2 1024) (Qabs x)).

(** Truthiness, as [||], [&&] and [if] see a value. *)
Definition truthyNum (n : number) : bool :=
  match n with
  | NaN => false
  | Num q => negb (Qeq_bool q 0)
  end.

Definition truthy (v : value) : bool :=
  match v with
  | Undefined | Null => false
  | Str s => negb (String.eqb s "")
  | Number n => truthyNum n
  end.

(** [a || b]. *)
Definition or (a b : value) : value := if truthy a then a else b.

(** [a || b] where [a] is a number or missing ([null], [undefined]) and
    [b] a number. *)
Definition orNum (a : option number) (b : number) : number :=
  match a with
  | Some n => if truthyNum n then n else b
  | None => b
  end.

(** *** Strings *)

(** [hay.includes(needle)]. *)
Fixpoint includes (needle hay : string) : bool :=
  String.prefix needle hay ||
  match hay with
  | EmptyString => false
  | String _ rest => includes needle rest
  end.

Definition lowerAscii (c : ascii) : ascii :=
  let n := nat_of_ascii c in
  if ((65 <=? n) && (n <=? 90))%nat then ascii_of_nat (n + 32) else c.

(** [s.toLowerCase()], on the ASCII letters. *)
Fixpoint toLowerCase (s : string) : string :=
  match s with
  | EmptyString => EmptyString
  | String c rest => String (lowerAscii c) (toLowerCase rest)
  end.

(** *** [parseFloat] *)

Definition isDigit (c : ascii) : bool :=
  let n := nat_of_ascii c in ((48 <=? n) && (n <=? 57))%nat.

Definition digitVal (c : ascii) : Z := Z.of_nat (nat_of_ascii c) - 48.

Definition isWhite (c : ascii) : bool :=
  let n := nat_of_ascii c in
  ((n =? 32) || ((9 <=? n) && (n <=? 13)))%nat.

Fixpoint skipWhite (s : string) : string :=
  match s with
  | String c rest => if isWhite c then skipWhite rest else s
  | EmptyString => s
  end.

(** The longest run of decimal digits at the head of [s]: its value on top
    of [acc], how many digits were read on top of [n], and the rest. *)
Fixpoint digits (s : string) (acc n : Z) : Z * Z * string :=
  match s with
  | String c rest =>
      if isDigit c then digits rest (acc * 10 + digitVal c) (n + 1)
      else (acc, n, s)
  | EmptyString => (acc, n, s)
  end.

Definition readSign (s : string) : bool * string :=
  match s with
  | String "-" rest => (true, rest)
  | String "+" rest => (false, rest)
  | _ => (false, s)
  end.

Definition readExponent (s : string) : Z :=
  match s with
  | String c rest =>
      if (Ascii.eqb c "e" || Ascii.eqb c "E")%bool then
        let '(eneg, rest) := readSign rest in
        let '(ev, ne, _) := digits rest 0 0 in
        if Z.eqb ne 0 then 0 else if eneg then - ev else ev
      else 0
  | EmptyString => 0
  end.

(** [parseFloat] of a string: leading white space, a sign, the longest
    decimal literal (digits, a fraction, an exponent); [NaN] when no digit
    is found. The literal [Infinity] is outside the model and reads as
    [NaN]. *)
Definition parseFloatStr (s : string) : number :=
  let '(sgn, s) := readSign (skipWhite s) in
  let '(ip, ni, s) := digits s 0 0 in
  let '(fp, nf, s) :=
    match s with
    | String "." rest => digits rest 0 0
    | _ => (0, 0, s)
    end in
  if Z.eqb (ni + nf) 0 then NaN
  else
    let m := ((ip * 10 ^ nf + fp) # Z.to_pos (10 ^ nf))%Q in
    Num ((if sgn then - m else m) * Qpower 10 (readExponent s))%Q.

(** [parseFloat(v)]: the argument is first converted to a string, so a
    number reads back as itself and [undefined] and [null] as [NaN]. *)
Definition parseFloat (v : value) : number :=
  match v with
  | Str s => parseFloatStr s
  | Number n => n
  | Undefined | Null => NaN
  end.

End Js.

Abbreviation NaN := Js.NaN.
Abbreviation Num := Js.Num.
Infix "=n=" := Js.same (at level 70, no associativity).

(** ** The engine's pure helpers *)

(** What [configManager.getTradingConfig()] returns, as far as the engine
    reads it: the configuration file's [trading] section. *)
Record TradingConfig : Type := {
  tc_leverage : option Js.number;
  positionSizeRange : option (Js.number * Js.number);
  closeAfterMinutesRange : option (Js.number * Js.number)
}.

(** [leverage || tradingConfig.leverage || 5] (line 44). *)
Definition actualLeverage (tradingConfig : TradingConfig)
    (leverage : option Js.number) : Js.number :=
  Js.orNum leverage (Js.orNum (tc_leverage tradingConfig) (Num 5)).

(** The decimals kept for an instrument (lines 50-57). *)
Definition precisionOf (symbol : string) : Z :=
  if Js.includes "BTC" symbol then 3
  else if Js.includes "ETH" symbol then 2
  else if Js.includes "BNB" symbol then 1
  else 3.

(** [calculateQuantity(positionSizeUSDT, currentPrice, leverage, symbol)]. *)
Definition calculateQuantity (tradingConfig : TradingConfig)
    (positionSizeUSDT currentPrice : Js.number) (leverage : option Js.number)
    (symbol : string) : Js.number :=
  let actualLeverage := actualLeverage tradingConfig leverage in
  let quantity := Js.div64 (Js.mul64 positionSizeUSDT actualLeverage) currentPrice in
  let precision := precisionOf symbol in
  let multiplier := Js.pow10 precision in
  Js.div64 (Js.round (Js.mul64 quantity multiplier)) multiplier.

(** [calculatePositionPnL(openOrder, closeOrder, side)]. *)
Inductive PositionSide : Type := LONG | SHORT.

(** An order confirmation as the exchange returns it; a field the reply
    does not carry is [Undefined]. *)
Record Confirmation : Type := {
  orderId : Js.value;
  price : Js.value;
  avgPrice : Js.value;
  origQty : Js.value;
  executedQty : Js.value
}.

(** [order.price || order.avgPrice || 0] and
    [order.origQty || order.executedQty || 0], through [parseFloat]
    (lines 629-631). *)
Definition reportedPrice (order : Confirmation) : Js.number :=
  Js.parseFloat (Js.or (Js.or (price order) (avgPrice order)) (Js.Number (Num 0))).

Definition reportedQty (order : Confirmation) : Js.number :=
  Js.parseFloat
    (Js.or (Js.or (origQty order) (executedQty order)) (Js.Number (Num 0))).

(** The argument is [None] when the caller passes [undefined] (a position
    record without that order): reading a field of it throws, and the
    [catch] returns 0. *)
Definition calculatePositionPnL (openOrder closeOrder : option Confirmation)
    (side : PositionSide) : Js.number :=
  match openOrder, closeOrder with
  | Some openOrder, Some closeOrder =>
      let openPrice := reportedPrice openOrder in
      let closePrice := reportedPrice closeOrder in
      let quantity := reportedQty openOrder in
      match side with
      | LONG => Js.mul (Js.sub closePrice openPrice) quantity
      | SHORT => Js.mul (Js.sub openPrice closePrice) quantity
      end
  | _, _ => Num 0
  end.

(** The jitter between the two legs of a pair (line 406), as a function of
    the value [r] that [Math.random()] returned. *)
Definition legDelay (r minDelay maxDelay : Js.number) : Js.number :=
  Js.floor (Js.add64 (Js.mul64 r (Js.sub64 maxDelay minDelay)) minDelay).

Record Error : Type := { message : string }.

(** [isInsufficientMarginError(error)]. *)
Definition isInsufficientMarginError (error : Error) : bool :=
  if negb (String.eqb (message error) "") then
    let errorStr := Js.toLowerCase (message error) in
    Js.includes "code: -2019" errorStr
    || Js.includes "margin is insufficient" errorStr
    || Js.includes "insufficient margin" errorStr
  else false.

(** ** Accounts, exchange requests, positions and events *)

Record Account : Type := {
  accountName : string;
  apiKey : string;
  secretKey : string
}.

(** A hedge pair of a group: fixed when the group is created. *)
Record HedgePair : Type := {
  pairId : string;
  long : Account;
  short : Account
}.

(** An [AsterAPI] client. [initializeGroup] stores the account's name on
    it; [closeAllPositions] builds clients without a name. *)
Record Client : Type := {
  clientName : option string;
  clientApiKey : string;
  clientSecretKey : string
}.

Inductive OrderSide : Type := BUY | SELL.

(** The parameters of [placeOrder]. [quantity] is sent as
    [quantity.toString()]; [reduceOnly] is true when the key is present
    (['true'] or [true], both ["true"] on the wire). *)
Record OrderParams : Type := {
  positionSide : option string;
  quantity : Js.number;
  reduceOnly : bool
}.

(** A request to the exchange, with the client that sends it. *)
Inductive Call : Type :=
| SetLeverage (client : Client) (symbol : string) (leverage : Js.number)
| GetSymbolPrice (client : Client) (symbol : string)
| PlaceOrder (client : Client) (symbol : string) (side : OrderSide)
    (type : string) (params : OrderParams)
| GetPositions (client : Client).

(** An entry of [getPositions()]. *)
Record PositionInfo : Type := {
  pi_symbol : string;
  positionAmt : Js.value
}.

(** The oracle: what the exchange answers to the n-th request of the run
    (an [Error] is a rejected promise), how long that request takes, and
    what the n-th call of [Math.random()] returns. *)
Record Exchange : Type := {
  leverageReply : nat -> option Error;
  priceReply : nat -> Error + Js.value;
  orderReply : nat -> Error + Confirmation;
  positionsReply : nat -> Error + list PositionInfo;
  latency : nat -> Z;
  random : nat -> Q
}.

(** Position-pair records are objects: they live in the heap and the
    engine's arrays hold references to them. *)
Abbreviation ref := nat.

Record PositionPair : Type := {
  pp_pairId : string;
  symbol : string;
  openTime : Z;
  longOrder : Confirmation;
  shortOrder : Confirmation;
  longAccount : Account;
  shortAccount : Account;
  pp_quantity : Js.number;
  positionSizeUSDT : Js.number;
  openPrice : Js.number;
  status : string;
  closeTime : option Z;
  closeLongOrder : option Confirmation;
  closeShortOrder : option Confirmation
}.

Definition setStatus (st : string) (p : PositionPair) : PositionPair :=
  {| pp_pairId := pp_pairId p; symbol := symbol p; openTime := openTime p;
     longOrder := longOrder p; shortOrder := shortOrder p;
     longAccount := longAccount p; shortAccount := shortAccount p;
     pp_quantity := pp_quantity p; positionSizeUSDT := positionSizeUSDT p;
     openPrice := openPrice p; status := st; closeTime := closeTime p;
     closeLongOrder := closeLongOrder p; closeShortOrder := closeShortOrder p |}.

(** The record update of [closeGroupPositions] (lines 563-566). *)
Definition setClosed (now : Z) (closeLong closeShort : Confirmation)
    (p : PositionPair) : PositionPair :=
  {| pp_pairId := pp_pairId p; symbol := symbol p; openTime := openTime p;
     longOrder := longOrder p; shortOrder := shortOrder p;
     longAccount := longAccount p; shortAccount := shortAccount p;
     pp_quantity := pp_quantity p; positionSizeUSDT := positionSizeUSDT p;
     openPrice := openPrice p; status := "closed"; closeTime := Some now;
     closeLongOrder := Some closeLong; closeShortOrder := Some closeShort |}.

Record Trade : Type := {
  cycle : Z;
  timestamp : Z;
  pnl : Js.number;
  positions : nat
}.

(** An entry of [this.groupPnL]. *)
Record GroupPnL : Type := {
  totalPnL : Js.number;
  trades : list Trade;
  pnl_currentCycle : Z
}.

(** The events the engine emits, with their payloads. *)
Inductive Event : Type :=
| positionOpened (position : ref)
| insufficientMargin (pair : string) (accounts : list string) (error : Error)
| groupDeactivated (groupId reason : string) (error : Error)
| criticalGroupError (groupId pair : string) (error : option Error)
    (retryAfter : Z)
| groupReactivated (groupId : string)
| positionClosed (position : ref)
| closeError (positionId : string) (error : Error)
| pnlUpdated (groupId : string) (cyclePnL totalPnL : Js.number)
| cycleCompleted (groupId : string) (cycle : Z) (coin : string)
| groupError (groupId : string) (error : Error)
| tradingStopped.

(** An entry of [this.activeGroups] (the [groupData] object). Its
    [positions] field aliases the group's array in [this.groupPositions]
    and its [totalPnL] field is never written after initialisation: both
    are left out. [criticalError] and [retryAfter] are absent until the
    first critical error, which reads as [false] and [None]. *)
Record GroupData : Type := {
  group_id : string;
  accounts : list Account;
  pairs : list HedgePair;
  apiClients : list Client;
  currentCycle : Z;
  isActive : bool;
  lastTradeTime : option Z;
  criticalError : bool;
  retryAfter : option Z
}.

Definition setFlags (active critical : bool) (retry : option Z)
    (g : GroupData) : GroupData :=
  {| group_id := group_id g; accounts := accounts g; pairs := pairs g;
     apiClients := apiClients g; currentCycle := currentCycle g;
     isActive := active; lastTradeTime := lastTradeTime g;
     criticalError := critical; retryAfter := retry |}.

Definition setInactive (g : GroupData) : GroupData :=
  setFlags false (criticalError g) (retryAfter g) g.

(** Lines 225-226: [currentCycle++; lastTradeTime = Date.now()]. *)
Definition cycleDone (now : Z) (g : GroupData) : GroupData :=
  {| group_id := group_id g; accounts := accounts g; pairs := pairs g;
     apiClients := apiClients g; currentCycle := currentCycle g + 1;
     isActive := isActive g; lastTradeTime := Some now;
     criticalError := criticalError g; retryAfter := retryAfter g |}.

(** The configuration object that [startTrading] passes down. *)
Record Config : Type := {
  leverage : option Js.number;
  minDelay : Js.number;
  maxDelay : Js.number
}.

(** ** State and the monad of [async] methods *)

Record State : Type := {
  isRunning : bool;
  activeGroups : gmap string GroupData;
  groupPositions : gmap string (list ref);
  groupPnL : gmap string GroupPnL;
  heap : list PositionPair;
  clock : Z;
  requests : list Call;
  emitted : list Event;
  draws : nat
}.

Inductive Outcome (A : Type) : Type :=
| Return (a : A)
| Throw (e : Error).
Arguments Return {A} a.
Arguments Throw {A} e.

Definition M (A : Type) : Type := State -> Outcome A * State.

Definition ret {A} (a : A) : M A := fun s => (Return a, s).

Definition throw {A} (e : Error) : M A := fun s => (Throw e, s).

Definition bind {A B} (m : M A) (k : A -> M B) : M B :=
  fun s =>
    match m s with
    | (Return a, s') => k a s'
    | (Throw e, s') => (Throw e, s')
    end.

(** [try { m } catch (error) { h error }]. *)
Definition tryCatch {A} (m : M A) (h : Error -> M A) : M A :=
  fun s =>
    match m s with
    | (Return a, s') => (Return a, s')
    | (Throw e, s') => h e s'
    end.

Declare Scope engine_scope.
Delimit Scope engine_scope with engine.
Notation "x <- m ;; k" := (bind m (fun x => k))
  (at level 100, m at next level, right associativity) : engine_scope.
Notation "m ;; k" := (bind m (fun _ => k))
  (at level 100, right associativity) : engine_scope.
#[local] Open Scope engine_scope.

Definition gets {A} (f : State -> A) : M A := fun s => (Return (f s), s).

Definition modify (f : State -> State) : M unit := fun s => (Return tt, f s).

Definition setClock (t : Z) (s : State) : State :=
  {| isRunning := isRunning s; activeGroups := activeGroups s;
     groupPositions := groupPositions s; groupPnL := groupPnL s;
     heap := heap s; clock := t; requests := requests s;
     emitted := emitted s; draws := draws s |}.

Definition setRequests (l : list Call) (s : State) : State :=
  {| isRunning := isRunning s; activeGroups := activeGroups s;
     groupPositions := groupPositions s; groupPnL := groupPnL s;
     heap := heap s; clock := clock s; requests := l;
     emitted := emitted s; draws := draws s |}.

Definition setEmitted (l : list Event) (s : State) : State :=
  {| isRunning := isRunning s; activeGroups := activeGroups s;
     groupPositions := groupPositions s; groupPnL := groupPnL s;
     heap := heap s; clock := clock s; requests := requests s;
     emitted := l; draws := draws s |}.

Definition setDraws (n : nat) (s : State) : State :=
  {| isRunning := isRunning s; activeGroups := activeGroups s;
     groupPositions := groupPositions s; groupPnL := groupPnL s;
     heap := heap s; clock := clock s; requests := requests s;
     emitted := emitted s; draws := n |}.

Definition setHeap (h : list PositionPair) (s : State) : State :=
  {| isRunning := isRunning s; activeGroups := activeGroups s;
     groupPositions := groupPositions s; groupPnL := groupPnL s;
     heap := h; clock := clock s; requests := requests s;
     emitted := emitted s; draws := draws s |}.

Definition setActiveGroups (m : gmap string GroupData) (s : State) : State :=
  {| isRunning := isRunning s; activeGroups := m;
     groupPositions := groupPositions s; groupPnL := groupPnL s;
     heap := heap s; clock := clock s; requests := requests s;
     emitted := emitted s; draws := draws s |}.

Definition setGroupPositions (m : gmap string (list ref)) (s : State) : State :=
  {| isRunning := isRunning s; activeGroups := activeGroups s;
     groupPositions := m; groupPnL := groupPnL s;
     heap := heap s; clock := clock s; requests := requests s;
     emitted := emitted s; draws := draws s |}.

Definition setGroupPnL (m : gmap string GroupPnL) (s : State) : State :=
  {| isRunning := isRunning s; activeGroups := activeGroups s;
     groupPositions := groupPositions s; groupPnL := m;
     heap := heap s; clock := clock s; requests := requests s;
     emitted := emitted s; draws := draws s |}.

Definition setIsRunning (b : bool) (s : State) : State :=
  {| isRunning := b; activeGroups := activeGroups s;
     groupPositions := groupPositions s; groupPnL := groupPnL s;
     heap := heap s; clock := clock s; requests := requests s;
     emitted := emitted s; draws := draws s |}.

(** Reading a property of [undefined]. *)
Definition typeError : Error :=
  {| message := "Cannot read properties of undefined" |}.

(** [Date.now()]. *)
Definition dateNow : M Z := gets clock.

(** The state after [ms] milliseconds: a negative delay counts as none. *)
Definition elapse (ms : Z) (s : State) : State :=
  setClock (clock s + Z.max 0 ms) s.

(** [await this.sleep(ms)]. *)
Definition sleep (ms : Z) : M unit := modify (elapse ms).

(** [sleep] of a computed number: timers truncate it, [NaN] is 0. *)
Definition millis (n : Js.number) : Z :=
  match n with
  | Num q => Qfloor q
  | NaN => 0
  end.

(** [this.emit(event, payload)]. *)
Definition emit (e : Event) : M unit :=
  modify (fun s => setEmitted (emitted s ++ [e]) s).

(** [for (const x of l) body], where [body] answers whether it left the
    loop with [break]. *)
Fixpoint forOf {A St} (body : A -> St -> M (St * bool)) (l : list A) (st : St)
    : M St :=
  match l with
  | [] => ret st
  | x :: rest =>
      r <- body x st ;;
      if snd r then ret (fst r) else forOf body rest (fst r)
  end.

(** A loop without [break]. *)
Fixpoint forEach {A St} (body : A -> St -> M St) (l : list A) (st : St) : M St :=
  match l with
  | [] => ret st
  | x :: rest => st' <- body x st ;; forEach body rest st'
  end.

(** A reference to a group object is its key in [this.activeGroups]:
    entries are never removed from that map. *)
Definition getGroup (gid : string) : M GroupData :=
  fun s =>
    match activeGroups s !! gid with
    | Some g => (Return g, s)
    | None => (Throw typeError, s)
    end.

Definition modifyGroup (gid : string) (f : GroupData -> GroupData) : M unit :=
  modify (fun s => setActiveGroups (alter f gid (activeGroups s)) s).

(** Reading and writing a position object. *)
Definition deref (r : ref) : M PositionPair :=
  fun s =>
    match heap s !! r with
    | Some p => (Return p, s)
    | None => (Throw typeError, s)
    end.

Definition update (r : ref) (f : PositionPair -> PositionPair) : M unit :=
  modify (fun s => setHeap (alter f r (heap s)) s).

(** A new object. *)
Definition alloc (p : PositionPair) : M ref :=
  fun s => (Return (length (heap s)), setHeap (heap s ++ [p]) s).

(** [this.supportedCoins]. *)
Definition supportedCoins : list string := ["BTCUSDT"; "ETHUSDT"; "BNBUSDT"].

Definition maxRetries : Z := 3.

(** [client.accountName === account.accountName]. *)
Definition isClientOf (account : Account) (client : Client) : bool :=
  match clientName client with
  | Some n => String.eqb n (accountName account)
  | None => false
  end.

(** [new AsterAPI(apiKey, secretKey)]. *)
Definition newAsterAPI (apiKey secretKey : string) : Client :=
  {| clientName := None; clientApiKey := apiKey; clientSecretKey := secretKey |}.

(** The client [initializeGroup] builds for an account: a new client with
    the account's name stored on it. *)
Definition clientOf (account : Account) : Client :=
  let client := newAsterAPI (apiKey account) (secretKey account) in
  {| clientName := Some (accountName account);
     clientApiKey := clientApiKey client;
     clientSecretKey := clientSecretKey client |}.

(** The outcome of [openPairPositionWithRetry]: [{success: true,
    positionPair}], [{success: false, isInsufficientMargin: true, error}] or
    [{success: false, isCriticalError: true, error}]. *)
Inductive PairResult : Type :=
| Opened (positionPair : ref)
| InsufficientMargin (error : Error)
| CriticalError (error : option Error).

(** The local variables of the loop of [openGroupPositions]. *)
Record OpenLoop : Type := {
  newPositions : list ref;
  insufficientMarginCount : nat;
  criticalErrorOccurred : bool
}.

(** The loop variables [openGroupPositions] starts with. *)
Definition openLoopStart : OpenLoop :=
  {| newPositions := []; insufficientMarginCount := 0;
     criticalErrorOccurred := false |}.

(** The result object of [closeAllPositions]. *)
Record CloseAllResult : Type := {
  success : bool;
  closedCount : nat;
  errors : list string
}.

(** The result object as [closeAllPositions] creates it. *)
Definition emptyResult : CloseAllResult :=
  {| success := true; closedCount := 0; errors := [] |}.

Definition addError (msg : string) (fails : bool) (r : CloseAllResult)
    : CloseAllResult :=
  {| success := if fails then false else success r;
     closedCount := closedCount r;
     errors := errors r ++ [msg] |}.

Definition addClosed (r : CloseAllResult) : CloseAllResult :=
  {| success := success r; closedCount := S (closedCount r);
     errors := errors r |}.

(** ** The engine *)

Section Engine.

Context (ex : Exchange) (tradingConfig : TradingConfig).

(** [Math.random()]. *)
Definition mathRandom : M Js.number :=
  fun s => (Return (Num (random ex (draws s))), setDraws (S (draws s)) s).

(** The state once request [c] is sent and answered: it is in the log and
    its latency has passed. *)
Definition sent (c : Call) (s : State) : State :=
  setClock (clock s + latency ex (length (requests s)))
    (setRequests (requests s ++ [c]) s).

(** A request gets the reply the oracle holds for its number in the
    log. *)
Definition send (c : Call) : M nat :=
  fun s => (Return (length (requests s)), sent c s).

Definition setLeverage (client : Client) (symbol : string)
    (leverage : Js.number) : M unit :=
  n <- send (SetLeverage client symbol leverage) ;;
  match leverageReply ex n with
  | Some e => throw e
  | None => ret tt
  end.

(** [(await client.getSymbolPrice(symbol)).price]. *)
Definition getSymbolPrice (client : Client) (symbol : string) : M Js.value :=
  n <- send (GetSymbolPrice client symbol) ;;
  match priceReply ex n with
  | inl e => throw e
  | inr p => ret p
  end.

Definition placeOrder (client : Client) (symbol : string) (side : OrderSide)
    (type : string) (params : OrderParams) : M Confirmation :=
  n <- send (PlaceOrder client symbol side type params) ;;
  match orderReply ex n with
  | inl e => throw e
  | inr c => ret c
  end.

Definition getPositions (client : Client) : M (list PositionInfo) :=
  n <- send (GetPositions client) ;;
  match positionsReply ex n with
  | inl e => throw e
  | inr l => ret l
  end.

(** [generateRandomPositionSize()]. *)
Definition generateRandomPositionSize : M Js.number :=
  let '(min, max) := default (Num 400, Num 600) (positionSizeRange tradingConfig) in
  r <- mathRandom ;;
  let randomSize := Js.add64 (Js.mul64 r (Js.sub64 max min)) min in
  ret (Js.div64 (Js.round (Js.mul64 randomSize (Num 100))) (Num 100)).

(** [generateRandomCloseTime()]. *)
Definition generateRandomCloseTime : M Js.number :=
  let '(min, max) := default (Num 30, Num 90) (closeAfterMinutesRange tradingConfig) in
  r <- mathRandom ;;
  let randomMinutes := Js.add (Js.mul r (Js.sub max min)) min in
  ret (Js.round randomMinutes).

(** [selectRandomCoin()]. The index is in range for a draw in [0, 1);
    out of range the array access gives [undefined]. *)
Definition selectRandomCoin : M string :=
  r <- mathRandom ;;
  let randomIndex :=
    millis (Js.floor (Js.mul r (Js.ofZ (Z.of_nat (length supportedCoins))))) in
  ret (nth (Z.to_nat randomIndex) supportedCoins "undefined").

(** [placeOrderWithRetry]: the order is placed once; an error is logged and
    thrown again. *)
Definition placeOrderWithRetry (client : Client) (symbol : string)
    (side : OrderSide) (type : string) (params : OrderParams)
    (currentAttempt : Z) : M Confirmation :=
  tryCatch (placeOrder client symbol side type params) (fun error => throw error).

(** One pass through the [try] block of [openPairPositionWithRetry]
    (lines 360-435). *)
Definition openAttempt (pair : HedgePair) (symbol : string)
    (groupPositionSizeUSDT : Js.number) (gid : string) (config : Config)
    (attempt : Z) : M ref :=
  g <- getGroup gid ;;
  match find (isClientOf (long pair)) (apiClients g),
        find (isClientOf (short pair)) (apiClients g) with
  | Some longClient, Some shortClient =>
      let lev := Js.orNum (leverage config) (Num 5) in
      tryCatch
        (setLeverage longClient symbol lev ;;
         setLeverage shortClient symbol lev)
        (fun leverageError => ret tt) ;;
      priceData <- getSymbolPrice longClient symbol ;;
      let currentPrice := Js.parseFloat priceData in
      let quantity :=
        calculateQuantity tradingConfig groupPositionSizeUSDT currentPrice
          None symbol in
      longOrder <- placeOrderWithRetry longClient symbol BUY "MARKET"
        {| positionSide := Some "BOTH"; quantity := quantity;
           reduceOnly := false |} attempt ;;
      r <- mathRandom ;;
      let delay := legDelay r (minDelay config) (maxDelay config) in
      sleep (millis delay) ;;
      shortOrder <- placeOrderWithRetry shortClient symbol SELL "MARKET"
        {| positionSide := Some "BOTH"; quantity := quantity;
           reduceOnly := false |} attempt ;;
      now <- dateNow ;;
      alloc {| pp_pairId := pairId pair; symbol := symbol; openTime := now;
               longOrder := longOrder; shortOrder := shortOrder;
               longAccount := long pair; shortAccount := short pair;
               pp_quantity := quantity;
               positionSizeUSDT := groupPositionSizeUSDT;
               openPrice := currentPrice; status := "open";
               closeTime := None; closeLongOrder := None;
               closeShortOrder := None |}
  | _, _ =>
      throw {| message := "Could not find API clients for pair " +:+ pairId pair |}
  end.

(** The [for] loop of [openPairPositionWithRetry], entered at [attempt]
    with [left] passes to go. *)
Fixpoint openAttempts (left : nat) (attempt : Z) (lastError : option Error)
    (pair : HedgePair) (symbol : string) (groupPositionSizeUSDT : Js.number)
    (gid : string) (config : Config) : M PairResult :=
  match left with
  | O => ret (CriticalError lastError)
  | S left' =>
      tryCatch
        (positionPair <- openAttempt pair symbol groupPositionSizeUSDT gid
                           config attempt ;;
         ret (Opened positionPair))
        (fun error =>
           if isInsufficientMarginError error then ret (InsufficientMargin error)
           else if Z.eqb attempt maxRetries then ret (CriticalError (Some error))
           else
             sleep (1000 * attempt) ;;
             openAttempts left' (attempt + 1) (Some error) pair symbol
               groupPositionSizeUSDT gid config)
  end.

(** [openPairPositionWithRetry(pair, symbol, groupPositionSizeUSDT,
    groupData, config)]. *)
Definition openPairPositionWithRetry (pair : HedgePair) (symbol : string)
    (groupPositionSizeUSDT : Js.number) (gid : string) (config : Config)
    : M PairResult :=
  openAttempts (Z.to_nat maxRetries) 1 None pair symbol groupPositionSizeUSDT
    gid config.

Definition closeParams (position : PositionPair) : OrderParams :=
  {| positionSide := Some "BOTH"; quantity := pp_quantity position;
     reduceOnly := true |}.

(** The body of the loop of [closePartialGroupPositions] (lines 493-524). *)
Definition emergencyClose (gid : string) (r : ref) : M unit :=
  tryCatch
    (position <- deref r ;;
     g <- getGroup gid ;;
     match find (isClientOf (longAccount position)) (apiClients g),
           find (isClientOf (shortAccount position)) (apiClients g) with
     | Some longClient, Some shortClient =>
         placeOrder longClient (symbol position) SELL "MARKET"
           (closeParams position) ;;
         placeOrder shortClient (symbol position) BUY "MARKET"
           (closeParams position) ;;
         update r (setStatus "emergency_closed")
     | _, _ => ret tt
     end)
    (fun error => ret tt).

(** [closePartialGroupPositions(groupData, positions)]. *)
Definition closePartialGroupPositions (gid : string) (positions : list ref)
    : M unit :=
  forEach (fun r _ => emergencyClose gid r) positions tt.

(** The body of the loop of [openGroupPositions] (lines 280-336). *)
Definition openBody (gid symbol : string) (groupPositionSizeUSDT : Js.number)
    (config : Config) (pair : HedgePair) (st : OpenLoop) : M (OpenLoop * bool) :=
  if criticalErrorOccurred st then ret (st, true)
  else
    pairResult <- openPairPositionWithRetry pair symbol groupPositionSizeUSDT
                    gid config ;;
    match pairResult with
    | Opened positionPair =>
        emit (positionOpened positionPair) ;;
        ret ({| newPositions := newPositions st ++ [positionPair];
                insufficientMarginCount := insufficientMarginCount st;
                criticalErrorOccurred := false |}, false)
    | InsufficientMargin error =>
        let st' := {| newPositions := newPositions st;
                      insufficientMarginCount := S (insufficientMarginCount st);
                      criticalErrorOccurred := false |} in
        emit (insufficientMargin (pairId pair)
                [accountName (long pair); accountName (short pair)] error) ;;
        g <- getGroup gid ;;
        if (insufficientMarginCount st' =? length (pairs g))%nat then
          modifyGroup gid setInactive ;;
          emit (groupDeactivated gid "all_pairs_insufficient_margin" error) ;;
          ret (st', true)
        else ret (st', false)
    | CriticalError error =>
        now <- dateNow ;;
        let until := now + 10 * 60 * 1000 in
        modifyGroup gid (setFlags false true (Some until)) ;;
        emit (criticalGroupError gid (pairId pair) error until) ;;
        (if (0 <? length (newPositions st))%nat
         then closePartialGroupPositions gid (newPositions st)
         else ret tt) ;;
        ret ({| newPositions := newPositions st;
                insufficientMarginCount := insufficientMarginCount st;
                criticalErrorOccurred := true |}, true)
    end.

(** [this.groupPositions.get(groupData.id)]; using a missing entry
    throws. *)
Definition getGroupPositions (gid : string) : M (list ref) :=
  fun s =>
    match groupPositions s !! gid with
    | Some l => (Return l, s)
    | None => (Throw typeError, s)
    end.

(** [openGroupPositions(groupData, symbol, config)]. *)
Definition openGroupPositions (gid symbol : string) (config : Config) : M nat :=
  groupPositionSizeUSDT <- generateRandomPositionSize ;;
  g <- getGroup gid ;;
  st <- forOf (openBody gid symbol groupPositionSizeUSDT config) (pairs g)
          openLoopStart ;;
  (if criticalErrorOccurred st then ret tt
   else
     groupPositions0 <- getGroupPositions gid ;;
     modify (fun s =>
       setGroupPositions
         (<[gid := groupPositions0 ++ newPositions st]> (groupPositions s)) s)) ;;
  ret (length (newPositions st)).

(** Calling a method of the client that [find] returned: a [TypeError]
    when there is none. *)
Definition orderVia (client : option Client) (symbol : string)
    (side : OrderSide) (type : string) (params : OrderParams) : M Confirmation :=
  match client with
  | Some c => placeOrder c symbol side type params
  | None => throw typeError
  end.

(** The body of the loop of [closeGroupPositions] (lines 538-573). *)
Definition closePosition (gid symbol : string) (r : ref) : M unit :=
  position <- deref r ;;
  tryCatch
    (g <- getGroup gid ;;
     let longClient := find (isClientOf (longAccount position)) (apiClients g) in
     let shortClient := find (isClientOf (shortAccount position)) (apiClients g) in
     closeLongOrder <- orderVia longClient symbol SELL "MARKET"
                         (closeParams position) ;;
     closeShortOrder <- orderVia shortClient symbol BUY "MARKET"
                          (closeParams position) ;;
     now <- dateNow ;;
     update r (setClosed now closeLongOrder closeShortOrder) ;;
     emit (positionClosed r))
    (fun error => emit (closeError (pp_pairId position) error)).

Definition hasStatus (st : string) (h : list PositionPair) (r : ref) : bool :=
  match h !! r with
  | Some p => String.eqb (status p) st
  | None => false
  end.

(** [closeGroupPositions(groupData, symbol)]. *)
Definition closeGroupPositions (gid symbol : string) : M unit :=
  groupPositions0 <- getGroupPositions gid ;;
  h <- gets heap ;;
  let openPositions := List.filter (hasStatus "open" h) groupPositions0 in
  forEach (fun r _ => closePosition gid symbol r) openPositions tt.

(** [longPnL + shortPnL] of a position (lines 594-597). *)
Definition pairPnL (position : PositionPair) : Js.number :=
  Js.add
    (calculatePositionPnL (Some (longOrder position)) (closeLongOrder position) LONG)
    (calculatePositionPnL (Some (shortOrder position)) (closeShortOrder position) SHORT).

(** [updateGroupPnL(groupData)]. *)
Definition updateGroupPnL (gid : string) : M unit :=
  s0 <- gets (fun s => s) ;;
  match groupPnL s0 !! gid, groupPositions s0 !! gid with
  | Some groupPnL0, Some groupPositions0 =>
      let closedPositions :=
        List.filter (hasStatus "closed" (heap s0)) groupPositions0 in
      cyclePnL <- forEach
        (fun r cyclePnL => position <- deref r ;;
                           ret (Js.add cyclePnL (pairPnL position)))
        closedPositions (Num 0) ;;
      g <- getGroup gid ;;
      now <- dateNow ;;
      let total := Js.add (totalPnL groupPnL0) cyclePnL in
      modify (fun s =>
        setGroupPnL
          (<[gid := {| totalPnL := total;
                       trades := trades groupPnL0 ++
                         [{| cycle := currentCycle g + 1; timestamp := now;
                             pnl := cyclePnL;
                             positions := length closedPositions |}];
                       pnl_currentCycle := currentCycle g + 1 |}]>
             (groupPnL s)) s) ;;
      emit (pnlUpdated gid cyclePnL total)
  | _, _ => throw typeError
  end.

(** [checkActiveGroups()]. *)
Definition checkActiveGroups : M nat :=
  gets (fun s =>
    length (List.filter (fun kg => isActive (snd kg))
              (map_to_list (activeGroups s)))).

(** [stopTrading()]. *)
Definition stopTrading : M unit :=
  modify (fun s =>
    setActiveGroups (setInactive <$> activeGroups s) (setIsRunning false s)) ;;
  emit tradingStopped.

(** The head of an iteration of [startGroupTrading] (lines 149-168): the
    answer is [true] when the iteration ends there with [continue]. *)
Definition checkRetry (gid : string) : M bool :=
  g <- getGroup gid ;;
  match criticalError g, retryAfter g with
  | true, Some retryAt =>
      if retryAt =? 0 then ret false
      else
        now <- dateNow ;;
        if now <? retryAt then
          sleep 30000 ;; ret true
        else
          modifyGroup gid (setFlags true false None) ;;
          emit (groupReactivated gid) ;;
          ret false
  | _, _ => ret false
  end.

(** The [try] block of an iteration (lines 186-237); leaving it with
    [continue] and falling off its end both end the iteration. *)
Definition tradingCycle (gid : string) (config : Config) : M unit :=
  selectedCoin <- selectRandomCoin ;;
  openedPositions <- openGroupPositions gid selectedCoin config ;;
  g <- getGroup gid ;;
  if criticalError g then ret tt
  else if negb (isActive g) then ret tt
  else
    (if (0 <? openedPositions)%nat then
       randomCloseMinutes <- generateRandomCloseTime ;;
       let closeTime := Js.mul (Js.mul randomCloseMinutes (Num 60)) (Num 1000) in
       sleep (millis closeTime) ;;
       closeGroupPositions gid selectedCoin
     else ret tt) ;;
    updateGroupPnL gid ;;
    now <- dateNow ;;
    modifyGroup gid (cycleDone now) ;;
    g <- getGroup gid ;;
    emit (cycleCompleted gid (currentCycle g) selectedCoin) ;;
    sleep 5000.

(** How an iteration of the [while] loop ends. *)
Inductive Step : Type := Continue | Exit.

(** One iteration of the loop of [startGroupTrading] (lines 148-258). *)
Definition iteration (gid : string) (config : Config) : M Step :=
  waiting <- checkRetry gid ;;
  if waiting then ret Continue
  else
    activeGroupsCount <- checkActiveGroups ;;
    if (activeGroupsCount =? 0)%nat then stopTrading ;; ret Exit
    else
      g <- getGroup gid ;;
      if negb (isActive g) then sleep 30000 ;; ret Continue
      else
        tryCatch (tradingCycle gid config)
          (fun error =>
             if isInsufficientMarginError error then
               modifyGroup gid setInactive ;;
               emit (groupDeactivated gid "insufficient_margin" error)
             else
               emit (groupError gid error) ;;
               sleep 10000) ;;
        ret Continue.

(** [startGroupTrading(group, config)], cut after [fuel] iterations of its
    loop (the loop itself runs for as long as [isRunning] holds). *)
Fixpoint startGroupTrading (fuel : nat) (gid : string) (config : Config)
    : M unit :=
  match fuel with
  | O => ret tt
  | S fuel' =>
      running <- gets isRunning ;;
      if running then
        step <- iteration gid config ;;
        match step with
        | Continue => startGroupTrading fuel' gid config
        | Exit => ret tt
        end
      else ret tt
  end.

(** The group objects that [AccountManager.groupAccounts] builds. *)
Record Group : Type := {
  g_id : string;
  g_accounts : list Account;
  g_pairs : list HedgePair
}.

(** The [groupData] object of [initializeGroup]. *)
Definition newGroupData (group : Group) : GroupData :=
  {| group_id := g_id group; accounts := g_accounts group;
     pairs := g_pairs group;
     apiClients := map clientOf (g_accounts group);
     currentCycle := 0; isActive := true; lastTradeTime := None;
     criticalError := false; retryAfter := None |}.

(** [initializeGroup(group, config)]. *)
Definition initializeGroup (group : Group) : M unit :=
  modify (fun s =>
    setActiveGroups (<[g_id group := newGroupData group]> (activeGroups s))
      (setGroupPositions (<[g_id group := []]> (groupPositions s))
         (setGroupPnL
            (<[g_id group := {| totalPnL := Num 0; trades := [];
                                pnl_currentCycle := 0 |}]> (groupPnL s)) s))).

(** *** [closeAllPositions] *)

Definition dustThreshold : Js.number := Num (1 # 1000).

(** The filter of line 797. *)
Definition aboveDust (position : PositionInfo) : bool :=
  let positionAmt :=
    Js.parseFloat (Js.or (positionAmt position) (Js.Number (Num 0))) in
  Js.gt (Js.abs positionAmt) dustThreshold.

Definition closeSideOf (positionAmt : Js.number) : OrderSide :=
  if Js.gt positionAmt (Num 0) then SELL else BUY.

(** The body of the inner loop (lines 811-842). *)
Definition closeOpenPosition (api : Client) (account : Account)
    (position : PositionInfo) (result : CloseAllResult) : M CloseAllResult :=
  tryCatch
    (let positionAmt := Js.parseFloat (positionAmt position) in
     let closeSide := closeSideOf positionAmt in
     placeOrder api (pi_symbol position) closeSide "MARKET"
       {| positionSide := None; quantity := Js.abs positionAmt;
          reduceOnly := true |} ;;
     sleep 500 ;;
     ret (addClosed result))
    (fun positionError =>
       ret (addError
              ("平仓失败 " +:+ pi_symbol position +:+ " ("
               +:+ accountName account +:+ "): " +:+ message positionError)
              true result)).

(** The body of the loop over accounts (lines 773-853). The flag tells
    whether the iteration ended with [continue], which skips the pause
    between accounts. *)
Definition closeAccount (account : Account) (result : CloseAllResult)
    : M CloseAllResult :=
  r <- tryCatch
         (if String.eqb (apiKey account) (secretKey account) then
            ret (addError
                   ("Account " +:+ accountName account +:+
                    " has invalid API key configuration (identical apiKey and secretKey)")
                   false result, true)
          else
            let api := newAsterAPI (apiKey account) (secretKey account) in
            positions <- getPositions api ;;
            if (length positions =? 0)%nat then ret (result, true)
            else
              let openPositions := List.filter aboveDust positions in
              if (length openPositions =? 0)%nat then ret (result, true)
              else
                result' <- forEach (closeOpenPosition api account)
                             openPositions result ;;
                ret (result', false))
         (fun accountError =>
            ret (addError
                   ("账户处理失败 " +:+ accountName account
                    +:+ ": " +:+ message accountError)
                   true result, false)) ;;
  (if snd r then ret tt else sleep 1000) ;;
  ret (fst r).

(** [closeAllPositions()], over the accounts that
    [accountManager.getAccounts()] returns. Every step of the loop handles
    its own errors, so the outer [catch] is never entered. *)
Definition closeAllPositions (accounts : list Account) : M CloseAllResult :=
  let result := emptyResult in
  if (length accounts =? 0)%nat then ret result
  else forEach closeAccount accounts result.

End Engine.

(** ** Runs of a loop, and the states the theorems name *)

(** [Reaches body l st s l' st' s']: the loop [forOf body l], entered with
    the loop variables [st] in state [s], gets to the iteration that has
    [l'] left to process, with the loop variables [st'] in state [s']
    (no earlier iteration left the loop or threw). *)
Inductive Reaches {A St : Type} (body : A -> St -> M (St * bool))
    : list A -> St -> State -> list A -> St -> State -> Prop :=
| reaches_here l st s : Reaches body l st s l st s
| reaches_next x l st s st1 s1 l' st' s' :
    body x st s = (Return (st1, false), s1) ->
    Reaches body l st1 s1 l' st' s' ->
    Reaches body (x :: l) st s l' st' s'.


Definition marginReason : string := "all_pairs_insufficient_margin".

Definition isDeactivation (gid reason : string) (e : Event) : bool :=
  match e with
  | groupDeactivated g r _ => String.eqb g gid && String.eqb r reason
  | _ => false
  end.

(** [m] only moves the state along [R]. *)
Definition along (R : State -> State -> Prop) {A} (m : M A) : Prop :=
  forall s r s', m s = (r, s') -> R s s'.

(** What opening a pair may change: it sends requests, lets time pass,
    draws random numbers and creates position objects. *)
Record OpensOnly (s s' : State) : Prop := {
  oo_running : isRunning s' = isRunning s;
  oo_groups : activeGroups s' = activeGroups s;
  oo_positions : groupPositions s' = groupPositions s;
  oo_pnl : groupPnL s' = groupPnL s;
  oo_emitted : emitted s' = emitted s;
  oo_heap : exists h, heap s' = heap s ++ h;
  oo_requests : exists l, requests s' = requests s ++ l
}.

(** The two orders that open a pair. *)
Definition openOrder (client : Client) (symbol : string) (side : OrderSide)
    (q : Js.number) : Call :=
  PlaceOrder client symbol side "MARKET"
    {| positionSide := Some "BOTH"; quantity := q; reduceOnly := false |}.

(** The two orders that close a position at instrument [symbol]. *)
Definition closeOrder (client : Client) (symbol : string) (side : OrderSide)
    (p : PositionPair) : Call :=
  PlaceOrder client symbol side "MARKET" (closeParams p).

Definition isReduceOnlyOrder (c : Call) : bool :=
  match c with
  | PlaceOrder _ _ _ _ params => reduceOnly params
  | _ => false
  end.

(** A successful pass through [openAttempt] from [s] to [s']: the new
    object [p] at reference [r], the clients of the two legs, and the
    requests sent ([before], then the two orders). *)
Record OpenedAt (ex : Exchange) (g : GroupData) (pair : HedgePair)
    (sym : string) (size : Js.number) (s s' : State) (r : ref)
    (p : PositionPair) (longClient shortClient : Client) (before : list Call)
    : Prop := {
  oa_ref : r = length (heap s);
  oa_heap : heap s' = heap s ++ [p];
  oa_status : status p = "open";
  oa_longAccount : longAccount p = long pair;
  oa_shortAccount : shortAccount p = short pair;
  oa_symbol : symbol p = sym;
  oa_size : positionSizeUSDT p = size;
  oa_longClient : find (isClientOf (long pair)) (apiClients g) = Some longClient;
  oa_shortClient : find (isClientOf (short pair)) (apiClients g) = Some shortClient;
  oa_requests :
    requests s' = requests s ++ before ++
      [openOrder longClient sym BUY (pp_quantity p);
       openOrder shortClient sym SELL (pp_quantity p)];
  oa_longOrder : orderReply ex (length (requests s ++ before)) = inr (longOrder p);
  oa_shortOrder :
    orderReply ex
      (length (requests s ++ before ++
               [openOrder longClient sym BUY (pp_quantity p)]))
    = inr (shortOrder p)
}.

(** What [openPairPositionWithRetry] leaves behind: a new position object
    exactly when it reports success. *)
Definition PairOutcome (ex : Exchange) (g : GroupData) (pair : HedgePair)
    (sym : string) (size : Js.number) (s s' : State) (result : PairResult)
    : Prop :=
  match result with
  | Opened r =>
      exists s0 p lc sc before,
        OpensOnly s s0 /\ heap s0 = heap s
        /\ OpenedAt ex g pair sym size s0 s' r p lc sc before
  | _ => heap s' = heap s
  end.

(** The pair's open attempt uses up its three passes, each failing with an
    error that is not a margin error; [error] is the last one. *)
Definition Exhausts (ex : Exchange) (tc : TradingConfig) (pair : HedgePair)
    (sym : string) (size : Js.number) (gid : string) (config : Config)
    (s : State) (error : Error) (s' : State) : Prop :=
  exists e1 s1 e2 s2,
    openAttempt ex tc pair sym size gid config 1 s = (Throw e1, s1)
    /\ isInsufficientMarginError e1 = false
    /\ openAttempt ex tc pair sym size gid config 2 (elapse 1000 s1) = (Throw e2, s2)
    /\ isInsufficientMarginError e2 = false
    /\ openAttempt ex tc pair sym size gid config 3 (elapse 2000 s2) = (Throw error, s')
    /\ isInsufficientMarginError error = false.

(** A position that is open and whose two accounts have a client in the
    group. *)
Definition Closable (g : GroupData) (h : list PositionPair) (r : ref)
    (p : PositionPair) (lc sc : Client) : Prop :=
  h !! r = Some p /\ status p = "open"
  /\ find (isClientOf (longAccount p)) (apiClients g) = Some lc
  /\ find (isClientOf (shortAccount p)) (apiClients g) = Some sc.

(** The emergency close of the position at [r], between the states [s0]
    and [s']: its long-leg close order is request number [n]; either both
    close orders were accepted and the position is now emergency-closed, or
    the position is unchanged and one of its close orders was refused. *)
Definition Unwound (ex : Exchange) (g : GroupData) (s0 s' : State) (r : ref)
    : Prop :=
  exists p lc sc n,
    Closable g (heap s0) r p lc sc
    /\ (length (requests s0) <= n)%nat
    /\ requests s' !! n = Some (closeOrder lc (symbol p) SELL p)
    /\ ((exists c1 c2,
           orderReply ex n = inr c1
           /\ requests s' !! S n = Some (closeOrder sc (symbol p) BUY p)
           /\ orderReply ex (S n) = inr c2
           /\ heap s' !! r = Some (setStatus "emergency_closed" p))
        \/ (heap s' !! r = Some p
            /\ ((exists e, orderReply ex n = inl e)
                \/ (exists e,
                      requests s' !! S n = Some (closeOrder sc (symbol p) BUY p)
                      /\ orderReply ex (S n) = inl e)))).

(** The invariant of the loop of [openGroupPositions] while no pair has
    failed critically. *)
Record OpenInv (gid : string) (g : GroupData) (size : Js.number)
    (st : OpenLoop) (s : State) : Prop := {
  oi_group : activeGroups s !! gid = Some g;
  oi_critical : criticalErrorOccurred st = false;
  oi_nodup : NoDup (newPositions st);
  oi_open : forall r, In r (newPositions st) ->
            exists p lc sc,
              Closable g (heap s) r p lc sc /\ positionSizeUSDT p = size
}.

(** What [closePartialGroupPositions] may change, apart from the position
    objects it is given: it sends reduce-only orders and lets time pass. *)
Record UnwindsOnly (s s' : State) : Prop := {
  uo_groups : activeGroups s' = activeGroups s;
  uo_positions : groupPositions s' = groupPositions s;
  uo_emitted : emitted s' = emitted s;
  uo_length : length (heap s') = length (heap s);
  uo_requests : exists l,
      requests s' = requests s ++ l /\ Forall (fun c => isReduceOnlyOrder c = true) l
}.


(** The order [closeAllPositions] sends for a live position. *)
Definition closingOrder (api : Client) (position : PositionInfo) : Call :=
  let positionAmt := Js.parseFloat (positionAmt position) in
  PlaceOrder api (pi_symbol position) (closeSideOf positionAmt) "MARKET"
    {| positionSide := None; quantity := Js.abs positionAmt; reduceOnly := true |}.

(** How many of the [k] requests numbered from [n] on the exchange accepts
    as orders. *)
Fixpoint accepted (ex : Exchange) (n k : nat) : nat :=
  match k with
  | O => O
  | S k' =>
      (match orderReply ex n with inr _ => 1 | inl _ => 0 end
       + accepted ex (S n) k')%nat
  end.

(** The clients whose positions were queried, in order. *)
Definition queried (l : list Call) : list Client :=
  omap (fun c => match c with GetPositions client => Some client | _ => None end) l.

(** An account that [closeAllPositions] does not skip. *)
Definition usable (account : Account) : bool :=
  negb (String.eqb (apiKey account) (secretKey account)).

Definition apiOf (account : Account) : Client :=
  newAsterAPI (apiKey account) (secretKey account).

(** The positions of the specification's example. *)
Definition examplePositions : list PositionInfo :=
  [ {| pi_symbol := "BTCUSDT"; positionAmt := Js.Str "0.01" |};
    {| pi_symbol := "ETHUSDT"; positionAmt := Js.Str "-0.0001" |} ].

(** One account of [closeAllPositions], from [result] in state [s] to
    [result'] in state [s']: what is sent and what is counted, case by
    case. *)
Definition AccountOutcome (ex : Exchange) (account : Account)
    (result : CloseAllResult) (s : State) (result' : CloseAllResult)
    (s' : State) : Prop :=
  if String.eqb (apiKey account) (secretKey account) then
    requests s' = requests s
    /\ closedCount result' = closedCount result
    /\ length (errors result') = S (length (errors result))
  else
    match positionsReply ex (length (requests s)) with
    | inl e =>
        requests s' = requests s ++ [GetPositions (apiOf account)]
        /\ closedCount result' = closedCount result
        /\ length (errors result') = S (length (errors result))
        /\ success result' = false
    | inr positions =>
        let kept := List.filter aboveDust positions in
        requests s' = requests s ++
          GetPositions (apiOf account) :: map (closingOrder (apiOf account)) kept
        /\ closedCount result'
           = (closedCount result + accepted ex (S (length (requests s))) (length kept))%nat
        /\ (length (errors result') + closedCount result'
            = length (errors result) + closedCount result + length kept)%nat
    end.

(** ** Concrete runs

    Accounts, groups and exchanges on which the theorems are instantiated
    and the engine is run. *)

Module Scenario.

Definition account (name : string) : Account :=
  {| accountName := name; apiKey := "key-" +:+ name;
     secretKey := "secret-" +:+ name |}.

Definition pair1 : HedgePair :=
  {| pairId := "pair-1"; long := account "A"; short := account "B" |}.

Definition pair2 : HedgePair :=
  {| pairId := "pair-2"; long := account "C"; short := account "D" |}.

Definition onePair : Group :=
  {| g_id := "group_1"; g_accounts := [account "A"; account "B"];
     g_pairs := [pair1] |}.

Definition twoPairs : Group :=
  {| g_id := "group_1";
     g_accounts := [account "A"; account "B"; account "C"; account "D"];
     g_pairs := [pair1; pair2] |}.

(** The engine before [startTrading]. *)
Definition idle : State :=
  {| isRunning := true; activeGroups := ∅; groupPositions := ∅; groupPnL := ∅;
     heap := []; clock := 0; requests := []; emitted := []; draws := 0 |}.

(** The engine once [group] is initialised. *)
Definition started (group : Group) : State := snd (initializeGroup group idle).

Definition config : Config :=
  {| leverage := Some (Num 10); minDelay := Num 10000; maxDelay := Num 30000 |}.

Definition fileConfig : TradingConfig :=
  {| tc_leverage := Some (Num 10);
     positionSizeRange := Some (Num 400, Num 600);
     closeAfterMinutesRange := Some (Num 30, Num 90) |}.

(** A confirmation that reports a price and a quantity. *)
Definition filled (p q : string) : Confirmation :=
  {| orderId := Js.Number (Num 1); price := Js.Str p; avgPrice := Js.Undefined;
     origQty := Js.Str q; executedQty := Js.Undefined |}.

Definition marginError : Error :=
  {| message := "API error: Margin is insufficient." |}.

Definition timeout : Error := {| message := "request timed out" |}.

(** Every request is accepted; the price is 30000. *)
Definition calm : Exchange :=
  {| leverageReply := fun _ => None;
     priceReply := fun _ => inr (Js.Str "30000");
     orderReply := fun _ => inr (filled "30000" "0.133");
     positionsReply := fun _ => inr examplePositions;
     latency := fun _ => 0;
     random := fun _ => 0%Q |}.

(** Every order is refused for lack of margin. *)
Definition noMargin : Exchange :=
  {| leverageReply := fun _ => None;
     priceReply := fun _ => inr (Js.Str "30000");
     orderReply := fun _ => inl marginError;
     positionsReply := fun _ => inr [];
     latency := fun _ => 0;
     random := fun _ => 0%Q |}.

(** The price feed goes down after the first five requests, that is once
    the first pair of a cycle is open. *)
Definition feedDown : Exchange :=
  {| leverageReply := fun _ => None;
     priceReply := fun n => if (n <? 5)%nat then inr (Js.Str "30000") else inl timeout;
     orderReply := fun _ => inr (filled "30000" "0.133");
     positionsReply := fun _ => inr [];
     latency := fun _ => 0;
     random := fun _ => 0%Q |}.

(** A one-pair cycle sends seven requests, the sixth being the close of
    the long leg: that one fills at 110, every other order at 100. *)
Definition risingLong : Exchange :=
  {| leverageReply := fun _ => None;
     priceReply := fun _ => inr (Js.Str "100");
     orderReply := fun n =>
       if (n mod 7 =? 5)%nat then inr (filled "110" "1") else inr (filled "100" "1");
     positionsReply := fun _ => inr [];
     latency := fun _ => 0;
     random := fun _ => 0%Q |}.

(** The first draw picks ETHUSDT and the later ones BTCUSDT; the sixth
    request, the close of the long leg in the first cycle, times out. *)
Definition stuckClose : Exchange :=
  {| leverageReply := fun _ => None;
     priceReply := fun _ => inr (Js.Str "100");
     orderReply := fun n =>
       if (n =? 5)%nat then inl timeout else inr (filled "100" "1");
     positionsReply := fun _ => inr [];
     latency := fun _ => 0;
     random := fun n => if (n =? 0)%nat then (1 # 2)%Q else 0%Q |}.


(** The state after [n] iterations of the loop of [startGroupTrading]. *)
Definition after (ex : Exchange) (group : Group) (n : nat) : State :=
  snd (startGroupTrading ex fileConfig n (g_id group) config (started group)).

(** The position size that [openGroupPositions] samples first, and the
    state once it is sampled. *)
Definition sampledSize (ex : Exchange) (group : Group) : Js.number :=
  match fst (generateRandomPositionSize ex fileConfig (started group)) with
  | Return size => size
  | Throw _ => NaN
  end.

Definition sampled (ex : Exchange) (group : Group) : State :=
  snd (generateRandomPositionSize ex fileConfig (started group)).

(** On [feedDown], the loop of [openGroupPositions] after the first pair
    of [twoPairs]: its variables and the state. *)
Definition afterFirstPair : Outcome (OpenLoop * bool) * State :=
  openBody feedDown fileConfig "group_1" "BTCUSDT" (sampledSize feedDown twoPairs)
    config pair1 openLoopStart (sampled feedDown twoPairs).

Definition loopAfterFirstPair : OpenLoop :=
  match fst afterFirstPair with
  | Return (st, _) => st
  | Throw _ => openLoopStart
  end.

(** The state once the second pair has used up its attempts. *)
Definition exhausted : State :=
  snd (openPairPositionWithRetry feedDown fileConfig pair2 "BTCUSDT"
         (sampledSize feedDown twoPairs) "group_1" config (snd afterFirstPair)).



(** On [calm], the state once the pair of [onePair] is open. *)
Definition opened : State :=
  snd (openPairPositionWithRetry calm fileConfig pair1 "BTCUSDT"
         (sampledSize calm onePair) "group_1" config (sampled calm onePair)).

End Scenario.

(** ** The exchange's rejections *)

(** [a || b] where [a] is a string or missing and [b] a string. *)
Definition orStr (a : option string) (b : string) : string :=
  match a with
  | Some s => if String.eqb s "" then b else s
  | None => b
  end.

(** [result.msg || result.message || '未知错误'] of a reply that is not
    [ok] (asterApi.js, lines 100-101); a field the reply carries is a
    string. *)
Definition rejectionReason (msg message : option string) : string :=
  orStr msg (orStr message "未知错误").

(** The error [makeRequest] throws for such a reply. *)
Definition apiError (msg message : option string) : Error :=
  {| message := "API错误: " +:+ rejectionReason msg message |}.

(** The three phrases [isInsufficientMarginError] looks for. *)
Definition marginPhrases : list string :=
  ["code: -2019"; "margin is insufficient"; "insufficient margin"].

(** ** What a pair's open attempt sends *)

(** The requests of one pass through [openAttempt] that gets as far as the
    short order, for the clients of the two legs. *)
Definition attemptCalls (longClient shortClient : Client) (symbol : string)
    (lev q : Js.number) : list Call :=
  [SetLeverage longClient symbol lev; SetLeverage shortClient symbol lev;
   GetSymbolPrice longClient symbol;
   openOrder longClient symbol BUY q; openOrder shortClient symbol SELL q].

(** From request number [n] on, the exchange accepts the leverage of both
    accounts, quotes a price, fills the long order and refuses the short
    order with [error]. *)
Definition HalfFilled (ex : Exchange) (n : nat) (p : Js.value) (error : Error)
    : Prop :=
  leverageReply ex n = None
  /\ leverageReply ex (1 + n) = None
  /\ priceReply ex (2 + n) = inr p
  /\ (exists c, orderReply ex (3 + n) = inr c)
  /\ orderReply ex (4 + n) = inl error.

(** Between [s] and [s'] at most [k] requests were sent, none of them a
    reduce-only order. *)
Definition Sends (k : nat) (s s' : State) : Prop :=
  exists l, requests s' = requests s ++ l /\ (length l <= k)%nat
            /\ Forall (fun c => isReduceOnlyOrder c = false) l.

(** ** What the loop of a group keeps *)

(** The events that only the [catch] of [startGroupTrading] emits
    (lines 239-258). *)
Definition fromCatch (e : Event) : bool :=
  match e with
  | groupError _ _ => true
  | groupDeactivated _ reason _ => String.eqb reason "insufficient_margin"
  | _ => false
  end.

(** The fields of a position record that are written when it is created. *)
Definition sameOpening (p p' : PositionPair) : Prop :=
  pp_pairId p' = pp_pairId p /\ symbol p' = symbol p /\ openTime p' = openTime p
  /\ longOrder p' = longOrder p /\ shortOrder p' = shortOrder p
  /\ longAccount p' = longAccount p /\ shortAccount p' = shortAccount p
  /\ pp_quantity p' = pp_quantity p /\ positionSizeUSDT p' = positionSizeUSDT p
  /\ openPrice p' = openPrice p.

(** The fields of a group object that are written when it is created. *)
Definition sameGroup (g g' : GroupData) : Prop :=
  group_id g' = group_id g /\ accounts g' = accounts g /\ pairs g' = pairs g
  /\ apiClients g' = apiClients g /\ currentCycle g <= currentCycle g'.

(** The sum of the PnL of trade records, in the order of the records,
    on top of [total]. *)
Definition booked (total : Js.number) (l : list Trade) : Js.number :=
  fold_left Js.add (map pnl l) total.

(** How the engine's state moves: groups, position records and PnL entries
    are never removed; a group's list of positions and a PnL entry's list of
    trades only grow at their ends; the total of a PnL entry grows by the
    PnL of the trades added; the request log only grows; and none of the
    events emitted is one of the [catch]. *)
Record Steady (s s' : State) : Prop := {
  sd_running : isRunning s' = true -> isRunning s = true;
  sd_groups : forall k g, activeGroups s !! k = Some g ->
      exists g', activeGroups s' !! k = Some g' /\ sameGroup g g';
  sd_positions : forall k l, groupPositions s !! k = Some l ->
      exists news, groupPositions s' !! k = Some (l ++ news)
        /\ Forall (fun r => (r < length (heap s'))%nat) news;
  sd_pnl : forall k p, groupPnL s !! k = Some p ->
      exists p' new, groupPnL s' !! k = Some p'
        /\ trades p' = trades p ++ new
        /\ totalPnL p' = booked (totalPnL p) new;
  sd_heap : forall r p, heap s !! r = Some p ->
      exists p', heap s' !! r = Some p' /\ sameOpening p p';
  sd_requests : exists l, requests s' = requests s ++ l;
  sd_emitted : exists l, emitted s' = emitted s ++ l
      /\ Forall (fun e => fromCatch e = false) l
}.

(** Group [gid] is initialised: it has its entries in the three maps, and
    its list of positions refers to position records that exist. *)
Definition Initialised (gid : string) (s : State) : Prop :=
  is_Some (activeGroups s !! gid)
  /\ is_Some (groupPnL s !! gid)
  /\ exists l, groupPositions s !! gid = Some l
       /\ Forall (fun r => (r < length (heap s))%nat) l.

(** From a state where group [gid] is initialised, [m] returns and moves
    the state along [Steady]. *)
Definition Safe (gid : string) {A} (m : M A) : Prop :=
  forall s, Initialised gid s ->
    exists a s', m s = (Return a, s') /\ Steady s s'.

(** The same for a computation that may throw. *)
Definition Framed (gid : string) {A} (m : M A) : Prop :=
  forall s r s', Initialised gid s -> m s = (r, s') -> Steady s s'.

(** Every value [m] returns satisfies [P]. *)
Definition Yields {A} (m : M A) (P : A -> Prop) : Prop :=
  forall s a s', m s = (Return a, s') -> P a.

(** The references in the variables of the loop of [openGroupPositions]
    are those of position records. *)
Definition Allocated (st : OpenLoop) (s : State) : Prop :=
  Forall (fun r => (r < length (heap s))%nat) (newPositions st).

(** Group [gid] is inactive without a critical error. *)
Definition Suspended (gid : string) (s : State) : Prop :=
  exists g, activeGroups s !! gid = Some g
            /\ isActive g = false /\ criticalError g = false.

(** ** The account manager ([accountManager.js])

    The groups the engine trades are built by [groupAccounts] from the
    loaded accounts: it shuffles them, cuts the shuffled list into groups
    and pairs the accounts of each group. *)

(** A number in a template literal: its decimal digits. *)
Definition showNat (n : nat) : string := NilEmpty.string_of_uint (Nat.to_uint n).

(** The loop of [createHedgePairs] from index [i] on, over the accounts
    from that index on. The guard of [createHedgePairs] lets only lists of
    even length in, so the loop never meets a last account without a
    partner. *)
Fixpoint pairsFrom (i : nat) (groupAccounts : list Account) : list HedgePair :=
  match groupAccounts with
  | a :: b :: rest =>
      {| pairId := "配对" +:+ showNat (i / 2 + 1); long := a; short := b |}
      :: pairsFrom (i + 2) rest
  | _ => []
  end.

(** [createHedgePairs(groupAccounts)]. *)
Definition createHedgePairs (groupAccounts : list Account)
    : Error + list HedgePair :=
  if negb (length groupAccounts mod 2 =? 0)%nat then
    inl {| message := "组必须包含偶数个账户才能进行对冲配对。获得 "
                      +:+ showNat (length groupAccounts) +:+ " 个账户。" |}
  else if (length groupAccounts <? 2)%nat then
    inl {| message := "组必须至少包含2个账户才能进行对冲配对" |}
  else inr (pairsFrom 0 groupAccounts).

(** The accounts of a list of pairs, long before short. *)
Definition legs (l : list HedgePair) : list Account :=
  flat_map (fun p => [long p; short p]) l.

(** [[a[i], a[j]] = [a[j], a[i]]] on an array, for indices in range (out
    of range the array would get holes; [shuffleAccounts] keeps [j] in
    range for draws in [0, 1)). *)
Definition swap {A} (i j : nat) (l : list A) : list A :=
  match l !! i, l !! j with
  | Some x, Some y => <[i := y]> (<[j := x]> l)
  | _, _ => l
  end.

(** A synchronous method that may throw, among the [async] ones. *)
Definition liftE {A} (r : Error + A) : M A :=
  match r with
  | inl e => throw e
  | inr a => ret a
  end.

(** [`group_${k}`]. *)
Definition groupId (k : nat) : string := "group_" +:+ showNat k.

(** What [getAccountStats] returns. *)
Record AccountStats : Type := {
  total : nat;
  maxGroups : nat;
  maxPairs : nat;
  canGroup : bool
}.

(** [getAccountStats()], from the loaded accounts. *)
Definition getAccountStats (loaded : list Account) : AccountStats :=
  let total := length loaded in
  let '(maxGroups, maxPairs) :=
    if negb (total mod 2 =? 0)%nat then (0, 0)%nat
    else if ((total <? 6) && (2 <=? total))%nat then (1, total / 2)%nat
    else if (6 <=? total)%nat then
      let fullGroups := (total / 6)%nat in
      let remainder := (total mod 6)%nat in
      if ((remainder =? 0) || (remainder mod 2 =? 0))%nat then
        (fullGroups + (if (2 <=? remainder)%nat then 1 else 0), total / 2)%nat
      else (fullGroups, (total - remainder) / 2)%nat
    else (0, 0)%nat in
  {| total := total; maxGroups := maxGroups; maxPairs := maxPairs;
     canGroup := ((2 <=? total) && (total mod 2 =? 0))%nat |}.

Section Grouping.

Context (ex : Exchange).

(** The loop of [shuffleAccounts], from index [i] down to 1. *)
Fixpoint shuffleFrom (i : nat) (shuffled : list Account) : M (list Account) :=
  match i with
  | O => ret shuffled
  | S i' =>
      r <- mathRandom ex ;;
      let j := millis (Js.floor (Js.mul r (Js.ofZ (Z.of_nat (i + 1))))) in
      shuffleFrom i' (swap i (Z.to_nat j) shuffled)
  end.

(** [shuffleAccounts(accountsList)]. *)
Definition shuffleAccounts (accountsList : list Account) : M (list Account) :=
  shuffleFrom (length accountsList - 1) accountsList.

(** The object [groupAccounts] pushes for the slice that starts at index
    [i]: building it calls [createHedgePairs], which may throw. *)
Definition newGroup (k : nat) (group : list Account) : M Group :=
  pairs <- liftE (createHedgePairs group) ;;
  ret {| g_id := groupId k; g_accounts := group; g_pairs := pairs |}.

(** The loop of [groupAccounts] (lines 378-397) from index [i] on. The
    loop runs while [i < shuffled.length] and adds [groupSize] to [i] in
    each pass; [fuel] bounds the number of passes. *)
Fixpoint groupsFrom (fuel groupSize i : nat) (shuffled : list Account)
    (groups : list Group) : M (list Group) :=
  match fuel with
  | O => ret groups
  | S fuel' =>
      if (i <? length shuffled)%nat then
        let group := take groupSize (drop i shuffled) in
        groups' <-
          (if (length group =? groupSize)%nat then
             g <- newGroup (i / groupSize + 1) group ;; ret (groups ++ [g])
           else if ((2 <=? length group) && (length group mod 2 =? 0))%nat then
             g <- newGroup (i / groupSize + 1) group ;; ret (groups ++ [g])
           else ret groups) ;;
        groupsFrom fuel' groupSize (i + groupSize) shuffled groups'
      else ret groups
  end.

(** [groupAccounts(groupSize, accountsList)]. A pass of the loop either
    throws or moves [i] forward, so [shuffled.length] passes are enough. *)
Definition groupAccounts (groupSize : nat) (accountsList : list Account)
    : M (list Group) :=
  shuffled <- shuffleAccounts accountsList ;;
  let totalAccounts := length shuffled in
  if negb (totalAccounts mod 2 =? 0)%nat then ret []
  else if ((totalAccounts <? 6) && (totalAccounts mod 2 =? 0))%nat then
    g <- newGroup 1 shuffled ;; ret [g]
  else groupsFrom totalAccounts groupSize 0 shuffled [].

End Grouping.

(** A group as [groupAccounts] builds it: its pairs are those of
    [createHedgePairs], they cover its accounts, and there is at least
    one. *)
Definition WellPaired (g : Group) : Prop :=
  createHedgePairs (g_accounts g) = inr (g_pairs g)
  /\ legs (g_pairs g) = g_accounts g
  /\ g_pairs g <> [].

(** The number of slices of size [g] that [n] elements fill, the last one
    possibly in part. *)
Definition slices (n g : nat) : nat := ((n + g - 1) / g)%nat.

(** ** Leverage requests and closed records *)

(** The leverage requests among [l] all ask for [lev]. *)
Definition LeverageIs (lev : Js.number) (l : list Call) : Prop :=
  Forall (fun c => match c with
                   | SetLeverage _ _ asked => asked = lev
                   | _ => True
                   end) l.


(** The record at [r] is the one of the start, or that one closed. *)
Definition ClosedOrSame (h0 h : list PositionPair) : Prop :=
  length h = length h0
  /\ forall r p0, h0 !! r = Some p0 ->
       h !! r = Some p0
       \/ (status p0 = "open" /\ exists now c1 c2, h !! r = Some (setClosed now c1 c2 p0)).

(** ** Cycle numbers *)

(** The cycle counter of group [gid] and its PnL entry are as they were. *)
Definition SameCycle (gid : string) (s s' : State) : Prop :=
  (forall g, activeGroups s !! gid = Some g ->
     exists g', activeGroups s' !! gid = Some g' /\ currentCycle g' = currentCycle g)
  /\ groupPnL s' !! gid = groupPnL s !! gid.

(** The counters of group [gid] agree: its PnL entry carries the group's
    cycle counter, and the trade records are numbered 1, 2, ... up to
    it. *)
Definition Numbered (gid : string) (s : State) : Prop :=
  exists g p,
    activeGroups s !! gid = Some g /\ groupPnL s !! gid = Some p
    /\ 0 <= currentCycle g
    /\ pnl_currentCycle p = currentCycle g
    /\ map cycle (trades p) = map Z.of_nat (seq 1 (Z.to_nat (currentCycle g))).

(** ** Loading accounts ([accountManager.js], [parseCSVFile])

    The accounts that [getAccounts()] gives [closeAllPositions] are those
    [parseCSVFile] accepted. *)

(** A row as the CSV parser hands it to the ['data'] handler: the cell of
    each column it has. *)
Definition Row : Type := gmap string string.

(** The account object built from a row. *)
Record CsvAccount : Type := {
  csv_accountName : string;
  csv_exchange : string;
  csv_apiKey : string;
  csv_secretKey : string;
  csv_proxyUrl : string
}.

(** What the engine reads of an account object. *)
Definition toAccount (a : CsvAccount) : Account :=
  {| accountName := csv_accountName a; apiKey := csv_apiKey a;
     secretKey := csv_secretKey a |}.

Definition requiredFields : list string :=
  ["accountName"; "exchange"; "apiKey"; "secretKey"].

Section Csv.

(** [String.prototype.trim]: the theorems hold whatever it removes. *)
Context (trim : string -> string).

(** [!row[field] || row[field].trim() === ''] (line 249). *)
Definition isMissing (row : Row) (field : string) : bool :=
  match row !! field with
  | None => true
  | Some v => String.eqb v "" || String.eqb (trim v) ""
  end.

(** [row[field].trim()] of a column the row has. *)
Definition trimmed (row : Row) (field : string) : string :=
  trim (default "" (row !! field)).

(** The ['data'] handler of [parseCSVFile] (lines 247-284): the account it
    pushes, or [None] when it skips the row. *)
Definition parseRow (row : Row) : option CsvAccount :=
  let missingFields := List.filter (isMissing row) requiredFields in
  if (0 <? length missingFields)%nat then None
  else
    let account :=
      {| csv_accountName := trimmed row "accountName";
         csv_exchange := trimmed row "exchange";
         csv_apiKey := trimmed row "apiKey";
         csv_secretKey := trimmed row "secretKey";
         csv_proxyUrl :=
           match row !! "proxyUrl" with
           | Some v => if String.eqb v "" then "" else trim v
           | None => ""
           end |} in
    if String.eqb (csv_apiKey account) ""
       || String.eqb (csv_apiKey account) "your_api_key_here" then None
    else if String.eqb (csv_secretKey account) ""
            || String.eqb (csv_secretKey account) "your_secret_key_here" then None
    else if String.eqb (csv_apiKey account) (csv_secretKey account) then None
    else Some account.

(** [parseCSVFile(filePath)] on a stream that hands over [rows] and then
    ends, or fails with [failure]. *)
Definition parseCSVFile (filePath : string) (rows : list Row)
    (failure : option Error) : Error + list CsvAccount :=
  match failure with
  | None => inr (omap parseRow rows)
  | Some err =>
      if Js.includes "Invalid Record Length" (message err) then
        inl {| message := "文件 " +:+ filePath
                          +:+ " 似乎是Excel格式。请先保存为CSV格式。" |}
      else inl err
  end.

End Csv.

(** What [parseCSVFile] checks of an account it accepts. *)
Definition Accepted (a : CsvAccount) : Prop :=
  csv_accountName a <> "" /\ csv_exchange a <> ""
  /\ csv_apiKey a <> "" /\ csv_secretKey a <> ""
  /\ csv_apiKey a <> "your_api_key_here"
  /\ csv_secretKey a <> "your_secret_key_here"
  /\ csv_apiKey a <> csv_secretKey a.

(** ** Doubles, magnitudes and created positions *)

(** The numbers with a 53-bit significand and an exponent that no upper
    bound limits: the doubles, and what they would be beyond 2^1024. *)
Definition Representable (f : Q) : Prop :=
  exists m t : Z, -1074 <= t /\ Z.abs m <= 2 ^ 53 /\ (f == inject_Z m * Js.pow2 t)%Q.

(** [a] is the double [x]. *)
Definition IsDouble (a : Js.number) (x : Q) : Prop :=
  a =n= Num x /\ Representable x /\ (Qabs x <= Js.pow2 1023)%Q.

(** A magnitude far from the ends of the binary64 range, as sizes, prices
    and leverages are. *)
Definition Ordinary (x : Q) : Prop := (Js.pow2 (-100) <= x <= Js.pow2 100)%Q.

(** [c] approximates [e], a magnitude within 2^-k .. 2^k, with a relative
    error between [lo] and [hi]. *)
Definition Approx (k : Z) (lo hi e c : Q) : Prop :=
  (Js.pow2 (- k) <= e <= Js.pow2 k)%Q /\ (lo * e <= c <= hi * e)%Q.

(** The references of the position objects created between [s] and [s'],
    in the order of their creation. *)
Definition created (s s' : State) : list ref :=
  seq (length (heap s)) (length (heap s') - length (heap s)).

(** ** More concrete runs *)

Module Cases.

Import Scenario.

(** The long order of the first attempt is filled and the short order is
    refused for lack of margin. *)
Definition shortRefused : Exchange :=
  {| leverageReply := fun _ => None;
     priceReply := fun _ => inr (Js.Str "30000");
     orderReply := fun n => if (n =? 4)%nat then inl marginError
                            else inr (filled "30000" "0.133");
     positionsReply := fun _ => inr [];
     latency := fun _ => 0;
     random := fun _ => 0%Q |}.

(** Every short order times out: of the five requests of an attempt the
    last one fails. *)
Definition shortTimesOut : Exchange :=
  {| leverageReply := fun _ => None;
     priceReply := fun _ => inr (Js.Str "30000");
     orderReply := fun n => if (n mod 5 =? 4)%nat then inl timeout
                            else inr (filled "30000" "0.133");
     positionsReply := fun _ => inr [];
     latency := fun _ => 0;
     random := fun _ => 0%Q |}.

(** The first leverage request is refused. *)
Definition leverageRefused : Exchange :=
  {| leverageReply := fun n => if (n =? 0)%nat then Some timeout else None;
     priceReply := fun _ => inr (Js.Str "30000");
     orderReply := fun _ => inr (filled "30000" "0.133");
     positionsReply := fun _ => inr [];
     latency := fun _ => 0;
     random := fun _ => 0%Q |}.

(** The one pair of [onePair] has been refused for lack of margin. *)
Definition suspended : State :=
  snd (openGroupPositions noMargin fileConfig "group_1" "BTCUSDT" config
         (started onePair)).

Definition six : list Account := map account ["A"; "B"; "C"; "D"; "E"; "F"].

(** On [calm], the group of [onePair] once its pair is open and listed. *)
Definition holding : State :=
  snd (openGroupPositions calm fileConfig "group_1" "BTCUSDT" config
         (started onePair)).

(** Every request is accepted, and the draws are 112589990684 / 2^52. *)
Definition drawn : Exchange :=
  {| leverageReply := fun _ => None;
     priceReply := fun _ => inr (Js.Str "30000");
     orderReply := fun _ => inr (filled "30000" "0.133");
     positionsReply := fun _ => inr [];
     latency := fun _ => 0;
     random := fun _ => (112589990684 # 4503599627370496)%Q |}.

End Cases.

(** * Verification *)

(** ** Quantity, jitter and PnL arithmetic *)

Lemma same_refl a : a =n= a.
Proof. destruct a; simpl; [exact I | reflexivity]. Qed.

Lemma round_nearest (x : Q) :
  (inject_Z (Qfloor (x + (1 # 2))) - (1 # 2) <= x
   /\ x < inject_Z (Qfloor (x + (1 # 2))) + (1 # 2))%Q.
Proof.
  pose proof (Qfloor_le (x + (1 # 2))) as Hle.
  pose proof (Qlt_floor (x + (1 # 2))) as Hlt.
  rewrite inject_Z_plus in Hlt. change (inject_Z 1) with 1%Q in Hlt.
  split; lra.
Qed.

Lemma precisionOf_cases symbol :
  precisionOf symbol = 3 \/ precisionOf symbol = 2 \/ precisionOf symbol = 1.
Proof.
  unfold precisionOf.
  destruct (Js.includes "BTC" symbol); [auto |].
  destruct (Js.includes "ETH" symbol); [auto |].
  destruct (Js.includes "BNB" symbol); auto.
Qed.

(** ** Binary64 rounding *)

Lemma pow2_pos e : (0 < Js.pow2 e)%Q.
Proof. apply Qpower_0_lt. reflexivity. Qed.

Lemma pow2_add a b : (Js.pow2 (a + b) == Js.pow2 a * Js.pow2 b)%Q.
Proof. apply Qpower_plus. discriminate. Qed.

Lemma pow2_le a b : a <= b -> (Js.pow2 a <= Js.pow2 b)%Q.
Proof. intros H. apply Qpower_le_compat_l; [exact H | discriminate]. Qed.

Lemma pow2_lt a b : a < b -> (Js.pow2 a < Js.pow2 b)%Q.
Proof. intros H. apply Qpower_lt_compat_l; [exact H | reflexivity]. Qed.

Lemma pow2_succ a : (Js.pow2 (a + 1) == 2 * Js.pow2 a)%Q.
Proof. rewrite pow2_add. change (Js.pow2 1) with 2%Q. ring. Qed.

Lemma pow2_Z k : 0 <= k -> (Js.pow2 k == inject_Z (2 ^ k))%Q.
Proof. intros H. unfold Js.pow2. now rewrite Zpower_Qpower. Qed.

Lemma inject_Z_minus a b : (inject_Z (a - b) == inject_Z a - inject_Z b)%Q.
Proof. unfold Z.sub. rewrite inject_Z_plus, inject_Z_opp. ring. Qed.

Lemma Qabs_make n d : Qabs (n # d) = (Z.abs n # d)%Q.
Proof. reflexivity. Qed.

Lemma binade_spec x :
  ~ (x == 0)%Q ->
  (Js.pow2 (Js.binade x) <= Qabs x < Js.pow2 (Js.binade x + 1))%Q.
Proof.
  intros Hx. unfold Js.binade.
  set (e := Z.log2 (Z.abs (Qnum x)) - Z.log2 (Z.pos (Qden x))).
  assert (0 < Z.abs (Qnum x)) as Ha.
  { destruct x as [n d]. cbn [Qnum]. unfold Qeq in Hx. cbn in Hx. lia. }
  pose proof (Z.log2_spec _ Ha) as [A1 A2].
  pose proof (Z.log2_spec (Z.pos (Qden x)) eq_refl) as [D1 D2].
  pose proof (Z.log2_nonneg (Z.abs (Qnum x))) as La.
  pose proof (Z.log2_nonneg (Z.pos (Qden x))) as Ld.
  set (ln := Z.log2 (Z.abs (Qnum x))) in *. set (ld := Z.log2 (Z.pos (Qden x))) in *.
  assert (Qabs x * inject_Z (Z.pos (Qden x)) == inject_Z (Z.abs (Qnum x)))%Q as Hq.
  { destruct x as [n d]. rewrite Qabs_make. cbn [Qnum Qden].
    unfold Qeq, Qmult, inject_Z. cbn. lia. }
  rewrite Zle_Qle in A1, D1. rewrite Zlt_Qlt in A2, D2.
  rewrite <- !pow2_Z in A1, A2, D1, D2 by lia.
  unfold Z.succ in A2, D2. rewrite pow2_succ in A2, D2.
  assert (Js.pow2 e * Js.pow2 ld == Js.pow2 ln)%Q as He.
  { rewrite <- pow2_add. now replace (e + ld) with ln by (unfold e; lia). }
  pose proof (pow2_pos e) as Pe. pose proof (pow2_pos ld) as Pld.
  pose proof (pow2_pos ln) as Pln.
  pose proof (Qabs_nonneg x) as Hnn.
  revert Hq A1 A2 D1 D2 He Pe Pld Pln Hnn.
  generalize (Qabs x) (inject_Z (Z.pos (Qden x))) (inject_Z (Z.abs (Qnum x))).
  intros X D A Hq A1 A2 D1 D2 He Pe Pld Pln Hnn.
  destruct (Qle_bool (Js.pow2 e) X) eqn:Hb.
  - apply Qle_bool_iff in Hb. split; [exact Hb |].
    rewrite pow2_succ. revert Hb He Pe Pld Pln A1 A2 D1 D2.
    generalize (Js.pow2 e) (Js.pow2 ld) (Js.pow2 ln). intros E L N. intros. nra.
  - assert (X < Js.pow2 e)%Q as Hlt.
    { apply Qnot_le_lt. intros H. apply Qle_bool_iff in H. congruence. }
    replace (e - 1 + 1) with e by lia. split; [| exact Hlt].
    assert (Js.pow2 e == 2 * Js.pow2 (e - 1))%Q as E2.
    { rewrite <- pow2_succ. now replace (e - 1 + 1) with e by lia. }
    pose proof (pow2_pos (e - 1)) as Pe1.
    revert Hlt He Pe Pld Pln A1 A2 D1 D2 E2 Pe1.
    generalize (Js.pow2 e) (Js.pow2 ld) (Js.pow2 ln) (Js.pow2 (e - 1)).
    intros E L N E1. intros. nra.
Qed.

Lemma binade_unique x e :
  (Js.pow2 e <= Qabs x < Js.pow2 (e + 1))%Q -> Js.binade x = e.
Proof.
  intros [H1 H2].
  assert (~ (x == 0)%Q) as Hx.
  { intros H. rewrite H in H1. pose proof (pow2_pos e).
    change (Qabs 0) with 0%Q in H1. lra. }
  destruct (binade_spec x Hx) as [B1 B2].
  destruct (Z.lt_trichotomy (Js.binade x) e) as [Hlt | [Heq | Hgt]]; [| exact Heq |].
  - pose proof (pow2_le (Js.binade x + 1) e ltac:(lia)). lra.
  - pose proof (pow2_le (e + 1) (Js.binade x) ltac:(lia)). lra.
Qed.

Lemma binade_comp x y : ~ (x == 0)%Q -> (x == y)%Q -> Js.binade x = Js.binade y.
Proof.
  intros Hx E. symmetry. apply binade_unique. rewrite <- E. now apply binade_spec.
Qed.

Lemma rne_half y :
  (inject_Z (Js.rne y) - (1 # 2) <= y <= inject_Z (Js.rne y) + (1 # 2))%Q.
Proof.
  unfold Js.rne. pose proof (Qfloor_le y) as H1. pose proof (Qlt_floor y) as H2.
  rewrite inject_Z_plus in H2. change (inject_Z 1) with 1%Q in H2.
  destruct (Qcompare_spec (y - inject_Z (Qfloor y)) (1 # 2)) as [E | L | G].
  - destruct (Z.even (Qfloor y)); [| rewrite inject_Z_plus; change (inject_Z 1) with 1%Q];
      split; lra.
  - split; lra.
  - rewrite inject_Z_plus. change (inject_Z 1) with 1%Q. split; lra.
Qed.

Lemma rne_comp y y' : (y == y')%Q -> Js.rne y = Js.rne y'.
Proof.
  intros E. unfold Js.rne. rewrite (Qfloor_comp _ _ E).
  assert ((y - inject_Z (Qfloor y') ?= 1 # 2) = (y' - inject_Z (Qfloor y') ?= 1 # 2))%Q as ->.
  { apply Qcompare_comp; [now rewrite E | reflexivity]. }
  reflexivity.
Qed.

Lemma rne_nearest y k : (Qabs (y - inject_Z (Js.rne y)) <= Qabs (y - inject_Z k))%Q.
Proof.
  destruct (rne_half y) as [H1 H2].
  destruct (Z.eq_dec k (Js.rne y)) as [-> | Hne]; [apply Qle_refl |].
  assert (k <= Js.rne y - 1 \/ Js.rne y + 1 <= k) as [H | H] by lia;
    rewrite Zle_Qle in H.
  - rewrite inject_Z_minus in H. change (inject_Z 1) with 1%Q in H.
    apply Qabs_case; intros; apply Qabs_case; intros; lra.
  - rewrite inject_Z_plus in H. change (inject_Z 1) with 1%Q in H.
    apply Qabs_case; intros; apply Qabs_case; intros; lra.
Qed.

Lemma Qabs_le_0 u : (Qabs u <= 0)%Q -> (u == 0)%Q.
Proof. apply Qabs_case; intros; lra. Qed.

Lemma rne_Z k : Js.rne (inject_Z k) = k.
Proof.
  pose proof (rne_nearest (inject_Z k) k) as H.
  assert (Qabs (inject_Z k - inject_Z k) == 0)%Q as E.
  { assert (inject_Z k - inject_Z k == 0)%Q as -> by ring. reflexivity. }
  rewrite E in H. apply Qabs_le_0 in H. clear E.
  revert H. generalize (Js.rne (inject_Z k)). intros n H.
  apply inject_Z_injective. lra.
Qed.

Lemma nearest_zero x : (x == 0)%Q -> Js.nearest x = 0%Q.
Proof.
  intros H. unfold Js.nearest.
  now destruct (Qeq_bool x 0) eqn:E; [| apply Qeq_bool_neq in E].
Qed.

Lemma nearest_nonzero x :
  ~ (x == 0)%Q ->
  Js.nearest x
  = (inject_Z (Js.rne (x / Js.pow2 (Js.ulpExp x))) * Js.pow2 (Js.ulpExp x))%Q.
Proof.
  intros H. unfold Js.nearest.
  destruct (Qeq_bool x 0) eqn:E; [apply Qeq_bool_iff in E; contradiction | reflexivity].
Qed.

Lemma nearest_comp x y : (x == y)%Q -> Js.nearest x = Js.nearest y.
Proof.
  intros E. destruct (Qeq_dec x 0) as [Hx | Hx].
  - rewrite (nearest_zero x Hx), (nearest_zero y); [reflexivity | now rewrite <- E].
  - assert (~ (y == 0)%Q) as Hy by now rewrite <- E.
    rewrite (nearest_nonzero x Hx), (nearest_nonzero y Hy).
    unfold Js.ulpExp. rewrite (binade_comp x y Hx E).
    f_equal. f_equal. apply rne_comp. now rewrite E.
Qed.

Lemma ulpExp_ge x : -1074 <= Js.ulpExp x.
Proof. unfold Js.ulpExp. lia. Qed.

(** The scaled value stays below 2^53. *)
Lemma scaled_bound x :
  ~ (x == 0)%Q -> (Qabs x < Js.pow2 (Js.ulpExp x + 53))%Q.
Proof.
  intros Hx. destruct (binade_spec x Hx) as [_ H].
  eapply Qlt_le_trans; [exact H |]. apply pow2_le. unfold Js.ulpExp. lia.
Qed.

Lemma Qabs_scale x t :
  (Qabs (x / Js.pow2 t) == Qabs x / Js.pow2 t)%Q.
Proof.
  unfold Qdiv. rewrite Qabs_Qmult, Qabs_Qinv.
  rewrite (Qabs_pos (Js.pow2 t)); [reflexivity |]. apply Qlt_le_weak, pow2_pos.
Qed.

Lemma nearest_closest_multiple x k :
  ~ (x == 0)%Q ->
  (Qabs (x - Js.nearest x) <= Qabs (x - inject_Z k * Js.pow2 (Js.ulpExp x)))%Q.
Proof.
  intros Hx. rewrite (nearest_nonzero x Hx).
  set (t := Js.ulpExp x). pose proof (pow2_pos t) as Pt.
  pose proof (rne_nearest (x / Js.pow2 t) k) as H.
  assert (forall z : Q, x - z * Js.pow2 t == (x / Js.pow2 t - z) * Js.pow2 t)%Q as E.
  { intros z. field. lra. }
  rewrite !E, !Qabs_Qmult, (Qabs_pos (Js.pow2 t)) by lra.
  apply Qmult_le_compat_r; [exact H | lra].
Qed.

Lemma Zabs_Qabs_inject m : (Qabs (inject_Z m) == inject_Z (Z.abs m))%Q.
Proof. reflexivity. Qed.

Lemma nearest_closest x f :
  Representable f -> (Qabs (x - Js.nearest x) <= Qabs (x - f))%Q.
Proof.
  intros (m & t' & Ht' & Hm & Ef).
  destruct (Qeq_dec x 0) as [Hx | Hx].
  { rewrite (nearest_zero x Hx).
    assert (x - 0 == 0)%Q as -> by (rewrite Hx; ring).
    change (Qabs 0) with 0%Q. apply Qabs_nonneg. }
  set (t := Js.ulpExp x).
  destruct (Z_le_gt_dec t t') as [Hle | Hgt].
  - assert (f == inject_Z (m * 2 ^ (t' - t)) * Js.pow2 t)%Q as ->.
    { rewrite Ef, inject_Z_mult, <- pow2_Z by lia.
      rewrite <- Qmult_assoc, <- pow2_add. now replace (t' - t + t) with t' by lia. }
    now apply nearest_closest_multiple.
  - assert (t = Js.binade x - 52) as Et by (unfold t, Js.ulpExp in *; lia).
    destruct (binade_spec x Hx) as [B1 _].
    assert (Qabs f <= Js.pow2 (Js.binade x))%Q as Hf.
    { rewrite Ef, Qabs_Qmult, Zabs_Qabs_inject.
      rewrite (Qabs_pos (Js.pow2 t')) by apply Qlt_le_weak, pow2_pos.
      rewrite Zle_Qle in Hm. rewrite <- pow2_Z in Hm by lia.
      apply Qle_trans with (Js.pow2 53 * Js.pow2 t')%Q.
      - apply Qmult_le_compat_r; [exact Hm | apply Qlt_le_weak, pow2_pos].
      - rewrite <- pow2_add. apply pow2_le. lia. }
    assert (Js.pow2 (Js.binade x) == inject_Z (2 ^ 52) * Js.pow2 t)%Q as Eg.
    { rewrite <- pow2_Z, <- pow2_add by lia. now replace (52 + t) with (Js.binade x) by lia. }
    destruct (Qlt_le_dec x 0) as [Hneg | Hpos].
    + pose proof (nearest_closest_multiple x (- 2 ^ 52) Hx) as H. fold t in H.
      rewrite inject_Z_opp in H.
      assert (x - - inject_Z (2 ^ 52) * Js.pow2 t == x + Js.pow2 (Js.binade x))%Q as E1.
      { rewrite Eg. ring. }
      rewrite E1 in H. eapply Qle_trans; [exact H |].
      rewrite (Qabs_neg x) in B1 by lra.
      revert Hf. apply Qabs_case; intros; apply Qabs_case; intros;
        apply Qabs_case; intros; lra.
    + pose proof (nearest_closest_multiple x (2 ^ 52) Hx) as H. fold t in H.
      rewrite <- Eg in H. eapply Qle_trans; [exact H |].
      rewrite (Qabs_pos x) in B1 by lra.
      revert Hf. apply Qabs_case; intros; apply Qabs_case; intros;
        apply Qabs_case; intros; lra.
Qed.

Lemma nearest_representable x : Representable (Js.nearest x).
Proof.
  destruct (Qeq_dec x 0) as [Hx | Hx].
  { rewrite (nearest_zero x Hx). exists 0, 0. split; [lia |]. split; [lia | reflexivity]. }
  rewrite (nearest_nonzero x Hx). set (t := Js.ulpExp x).
  exists (Js.rne (x / Js.pow2 t)), t. split; [apply ulpExp_ge |]. split; [| reflexivity].
  pose proof (scaled_bound x Hx) as Hb. fold t in Hb.
  rewrite Z.add_comm, pow2_add in Hb. pose proof (pow2_pos t) as Pt.
  assert (Qabs (x / Js.pow2 t) < Js.pow2 53)%Q as Hy.
  { rewrite Qabs_scale. apply Qlt_shift_div_r; [exact Pt | exact Hb]. }
  destruct (rne_half (x / Js.pow2 t)) as [H1 H2].
  pose proof (pow2_Z 53 ltac:(lia)) as E53.
  apply Qabs_Qlt_condition in Hy as [Hy1 Hy2].
  revert H1 H2 Hy1 Hy2. generalize (Js.rne (x / Js.pow2 t)).
  generalize (x / Js.pow2 t)%Q. intros y n H1 H2 Hy1 Hy2.
  assert (inject_Z n < inject_Z (2 ^ 53 + 1))%Q as A1.
  { rewrite inject_Z_plus. change (inject_Z 1) with 1%Q.
    revert E53 Hy1 Hy2. generalize (Js.pow2 53) (inject_Z (2 ^ 53)). intros. lra. }
  assert (inject_Z (- 2 ^ 53 - 1) < inject_Z n)%Q as A2.
  { rewrite inject_Z_minus, inject_Z_opp. change (inject_Z 1) with 1%Q.
    revert E53 Hy1 Hy2. generalize (Js.pow2 53) (inject_Z (2 ^ 53)). intros. lra. }
  rewrite <- Zlt_Qlt in A1, A2. lia.
Qed.

Lemma nearest_fixed f : Representable f -> (Js.nearest f == f)%Q.
Proof.
  intros Hf. pose proof (nearest_closest f f Hf) as H.
  assert (Qabs (f - f) == 0)%Q as E.
  { assert (f - f == 0)%Q as -> by ring. reflexivity. }
  rewrite E in H. apply Qabs_le_0 in H. lra.
Qed.

Lemma nearest_mono a b : (a <= b)%Q -> (Js.nearest a <= Js.nearest b)%Q.
Proof.
  intros Hab. apply Qnot_lt_le. intros Hlt.
  pose proof (nearest_closest a _ (nearest_representable b)) as Ha.
  pose proof (nearest_closest b _ (nearest_representable a)) as Hb.
  assert (a == b)%Q as E.
  { revert Ha Hb. apply Qabs_case; intros; revert Ha; apply Qabs_case; intros;
      revert Hb; apply Qabs_case; intros; revert Hb; apply Qabs_case; intros; lra. }
  rewrite (nearest_comp a b E) in Hlt. lra.
Qed.

Lemma nearest_error_ulp x :
  ~ (x == 0)%Q -> (Qabs (x - Js.nearest x) <= Js.pow2 (Js.ulpExp x - 1))%Q.
Proof.
  intros Hx. rewrite (nearest_nonzero x Hx).
  set (t := Js.ulpExp x). pose proof (pow2_pos t) as Pt.
  destruct (rne_half (x / Js.pow2 t)) as [H1 H2].
  assert (x - inject_Z (Js.rne (x / Js.pow2 t)) * Js.pow2 t
          == (x / Js.pow2 t - inject_Z (Js.rne (x / Js.pow2 t))) * Js.pow2 t)%Q as E.
  { field. lra. }
  rewrite E, Qabs_Qmult, (Qabs_pos (Js.pow2 t)) by lra.
  assert (Js.pow2 (t - 1) == (1 # 2) * Js.pow2 t)%Q as ->.
  { assert (Js.pow2 t == 2 * Js.pow2 (t - 1))%Q as E2.
    { rewrite <- pow2_succ. now replace (t - 1 + 1) with t by lia. }
    rewrite E2. field. }
  apply Qmult_le_compat_r; [| lra].
  apply Qabs_case; intros; lra.
Qed.

(** The relative error of a rounding in the normal range is at most
    2^-53. *)
Lemma nearest_error x :
  (Js.pow2 (-1022) <= Qabs x)%Q ->
  (Qabs (x - Js.nearest x) <= Qabs x * Js.pow2 (-53))%Q.
Proof.
  intros Hn.
  assert (~ (x == 0)%Q) as Hx.
  { intros H. rewrite H in Hn. pose proof (pow2_pos (-1022)).
    change (Qabs 0) with 0%Q in Hn. lra. }
  destruct (binade_spec x Hx) as [B1 B2].
  assert (-1022 <= Js.binade x) as He.
  { destruct (Z_le_gt_dec (-1022) (Js.binade x)) as [H | H]; [exact H |].
    pose proof (pow2_le (Js.binade x + 1) (-1022) ltac:(lia)). lra. }
  eapply Qle_trans; [now apply nearest_error_ulp |].
  replace (Js.ulpExp x - 1) with (Js.binade x + -53) by (unfold Js.ulpExp; lia).
  rewrite pow2_add. apply Qmult_le_compat_r; [exact B1 | apply Qlt_le_weak, pow2_pos].
Qed.

Lemma representable_scaled m t :
  -1074 <= t -> Z.abs m <= 2 ^ 53 -> Representable (inject_Z m * Js.pow2 t).
Proof. intros Ht Hm. exists m, t. split; [exact Ht |]. split; [exact Hm | reflexivity]. Qed.

Lemma representable_Z m : Z.abs m <= 2 ^ 53 -> Representable (inject_Z m).
Proof. intros Hm. exists m, 0. split; [lia |]. split; [exact Hm |]. cbn. ring. Qed.

Lemma representable_comp f g : (f == g)%Q -> Representable f -> Representable g.
Proof. intros E (m & t & Ht & Hm & Ef). exists m, t. now rewrite <- E. Qed.

Lemma nearest_Z m : Z.abs m <= 2 ^ 53 -> (Js.nearest (inject_Z m) == inject_Z m)%Q.
Proof. intros Hm. now apply nearest_fixed, representable_Z. Qed.

Lemma f64_comp x y : (x == y)%Q -> Js.f64 x = Js.f64 y.
Proof. intros E. unfold Js.f64. now rewrite (nearest_comp x y E). Qed.

(** No overflow up to 2^1023. *)
Lemma f64_finite x :
  (Qabs x <= Js.pow2 1023)%Q -> Js.f64 x = Num (Js.nearest x).
Proof.
  intros Hx. unfold Js.f64.
  assert (Representable (Js.pow2 1023)) as R1.
  { apply (representable_comp (inject_Z 1 * Js.pow2 1023)); [ring |].
    apply representable_scaled; lia. }
  assert (Representable (- Js.pow2 1023)) as R2.
  { apply (representable_comp (inject_Z (-1) * Js.pow2 1023)); [ring |].
    apply representable_scaled; lia. }
  apply Qabs_Qle_condition in Hx as [H1 H2].
  pose proof (nearest_mono _ _ H1) as M1. pose proof (nearest_mono _ _ H2) as M2.
  rewrite (nearest_fixed _ R2) in M1. rewrite (nearest_fixed _ R1) in M2.
  destruct (Qle_bool (Js.pow2 1024) (Qabs (Js.nearest x))) eqn:E; [| reflexivity].
  apply Qle_bool_iff in E. pose proof (pow2_lt 1023 1024 eq_refl) as P.
  revert E. apply Qabs_case; intros; lra.
Qed.

(** ** The binary64 operations *)

Lemma nearest_bounded x :
  (Qabs x <= Js.pow2 1023)%Q -> (Qabs (Js.nearest x) <= Js.pow2 1023)%Q.
Proof.
  intros Hx.
  assert (Representable (Js.pow2 1023)) as R1.
  { apply (representable_comp (inject_Z 1 * Js.pow2 1023)); [ring |].
    apply representable_scaled; lia. }
  assert (Representable (- Js.pow2 1023)) as R2.
  { apply (representable_comp (inject_Z (-1) * Js.pow2 1023)); [ring |].
    apply representable_scaled; lia. }
  apply Qabs_Qle_condition in Hx as [H1 H2].
  pose proof (nearest_mono _ _ H1) as M1. pose proof (nearest_mono _ _ H2) as M2.
  rewrite (nearest_fixed _ R2) in M1. rewrite (nearest_fixed _ R1) in M2.
  now apply Qabs_Qle_condition.
Qed.

Lemma nearest_nonneg x : (0 <= x)%Q -> (0 <= Js.nearest x)%Q.
Proof.
  intros H. pose proof (nearest_mono _ _ H) as M.
  now rewrite (nearest_zero 0%Q (Qeq_refl 0)) in M.
Qed.

Lemma nearest_le x f : Representable f -> (x <= f)%Q -> (Js.nearest x <= f)%Q.
Proof. intros Hf H. rewrite <- (nearest_fixed f Hf). now apply nearest_mono. Qed.

Lemma nearest_ge x f : Representable f -> (f <= x)%Q -> (f <= Js.nearest x)%Q.
Proof. intros Hf H. rewrite <- (nearest_fixed f Hf). now apply nearest_mono. Qed.

Lemma val_same a x :
  a =n= Num x -> (Qabs x <= Js.pow2 1023)%Q -> Js.val a = Num (Js.nearest x).
Proof.
  destruct a as [| x0]; [contradiction |]. cbn [Js.same Js.val]. intros E Hb.
  rewrite (f64_comp x0 x E). now apply f64_finite.
Qed.

Lemma val_double a x : IsDouble a x -> exists x', Js.val a = Num x' /\ (x' == x)%Q.
Proof.
  intros (E & R & B). exists (Js.nearest x). split; [now apply val_same |].
  now apply nearest_fixed.
Qed.

Lemma double_f64 x : (Qabs x <= Js.pow2 1023)%Q -> IsDouble (Js.f64 x) (Js.nearest x).
Proof.
  intros Hx. rewrite (f64_finite x Hx). split; [apply Qeq_refl |].
  split; [apply nearest_representable | now apply nearest_bounded].
Qed.

Lemma pow2_53_le_1023 : (inject_Z (2 ^ 53) <= Js.pow2 1023)%Q.
Proof. rewrite <- pow2_Z by lia. apply pow2_le. lia. Qed.

Lemma Qabs_inject_le z n : Z.abs z <= n -> (Qabs (inject_Z z) <= inject_Z n)%Q.
Proof. intros H. rewrite Zabs_Qabs_inject. now rewrite <- Zle_Qle. Qed.

Lemma double_ofZ z : Z.abs z <= 2 ^ 53 -> IsDouble (Js.ofZ z) (inject_Z z).
Proof.
  intros H. split; [apply Qeq_refl |]. split; [now apply representable_Z |].
  eapply Qle_trans; [apply Qabs_inject_le, H | apply pow2_53_le_1023].
Qed.

Lemma double_comp a x y : (x == y)%Q -> IsDouble a x -> IsDouble a y.
Proof.
  intros E (S & R & B). split; [| split].
  - destruct a; [exact S |]. cbn [Js.same] in *. now rewrite <- E.
  - now apply (representable_comp x).
  - now rewrite <- E.
Qed.

Section Lift.

Context (f : Q -> Q -> Q) (f_comp : Proper (Qeq ==> Qeq ==> Qeq) f).

Lemma lift64_double a b x y :
  IsDouble a x -> IsDouble b y -> Js.lift64 f a b = Js.f64 (f x y).
Proof.
  intros Ha Hb. unfold Js.lift64.
  destruct (val_double a x Ha) as (x' & -> & Ex).
  destruct (val_double b y Hb) as (y' & -> & Ey).
  apply f64_comp. now rewrite Ex, Ey.
Qed.

(** A first operand that is not known to be a double is read as the
    nearest one. *)
Lemma lift64_left (r : Q) b y :
  (Qabs r <= Js.pow2 1023)%Q -> IsDouble b y ->
  Js.lift64 f (Num r) b = Js.f64 (f (Js.nearest r) y).
Proof.
  intros Hr Hb. destruct (val_double b y Hb) as (y' & Ey' & Ey).
  unfold Js.lift64. rewrite Ey'. cbn [Js.val]. rewrite (f64_finite r Hr).
  apply f64_comp. now rewrite Ey.
Qed.

End Lift.

Lemma div64_double a b x y :
  IsDouble a x -> IsDouble b y -> ~ (y == 0)%Q -> Js.div64 a b = Js.f64 (x / y).
Proof.
  intros Ha Hb Hy. destruct (val_double a x Ha) as (x' & Ex' & Ex).
  destruct (val_double b y Hb) as (y' & Ey' & Ey).
  unfold Js.div64. rewrite Ex', Ey'.
  destruct (Qeq_bool y' 0) eqn:E.
  - apply Qeq_bool_iff in E. rewrite Ey in E. contradiction.
  - apply f64_comp. now rewrite Ex, Ey.
Qed.

(** ** Rounding errors *)

Lemma binade_le x y :
  ~ (x == 0)%Q -> (Qabs x <= Qabs y)%Q -> Js.binade x <= Js.binade y.
Proof.
  intros Hx Hxy.
  assert (~ (y == 0)%Q) as Hy.
  { intros H. rewrite H in Hxy. change (Qabs 0) with 0%Q in Hxy.
    apply Hx. apply Qabs_le_0. exact Hxy. }
  destruct (binade_spec x Hx) as [X1 _]. destruct (binade_spec y Hy) as [_ Y2].
  destruct (Z_le_gt_dec (Js.binade x) (Js.binade y)) as [H | H]; [exact H |].
  pose proof (pow2_le (Js.binade y + 1) (Js.binade x) ltac:(lia)). lra.
Qed.

(** The error of rounding [x] is at most 2^-53 of any normal magnitude
    that bounds [x]. *)
Lemma nearest_within x y :
  (Qabs x <= y)%Q -> (Js.pow2 (-1022) <= y)%Q ->
  (Qabs (x - Js.nearest x) <= y * Js.pow2 (-53))%Q.
Proof.
  intros Hxy Hy. pose proof (pow2_pos (-53)) as P53.
  destruct (Qeq_dec x 0) as [Hx | Hx].
  { rewrite (nearest_zero x Hx).
    assert (x - 0 == 0)%Q as -> by (rewrite Hx; ring). change (Qabs 0) with 0%Q.
    apply Qmult_le_0_compat; [| lra]. pose proof (pow2_pos (-1022)). lra. }
  eapply Qle_trans; [now apply nearest_error_ulp |].
  destruct (binade_spec x Hx) as [B1 _].
  assert (Js.pow2 (Z.max (Js.binade x) (-1022)) <= y)%Q as Hm.
  { destruct (Z.max_spec (Js.binade x) (-1022)) as [[_ ->] | [_ ->]]; lra. }
  replace (Js.ulpExp x - 1) with (Z.max (Js.binade x) (-1022) + -53)
    by (unfold Js.ulpExp; lia).
  rewrite pow2_add. apply Qmult_le_compat_r; [exact Hm | lra].
Qed.

Lemma nearest_relative x :
  (Js.pow2 (-1022) <= x)%Q ->
  ((1 - Js.pow2 (-53)) * x <= Js.nearest x <= (1 + Js.pow2 (-53)) * x)%Q.
Proof.
  intros Hx. pose proof (pow2_pos (-1022)) as P.
  pose proof (nearest_within x x) as H. rewrite Qabs_pos in H by lra.
  specialize (H (Qle_refl x) Hx). apply Qabs_Qle_condition in H as [H1 H2].
  split; lra.
Qed.

Lemma approx_exact k e : (Js.pow2 (- k) <= e <= Js.pow2 k)%Q -> Approx k 1 1 e e.
Proof. intros H. split; [exact H | split; lra]. Qed.

Lemma approx_pos k lo hi e c : Approx k lo hi e c -> (0 < lo)%Q -> (0 < c)%Q.
Proof.
  intros [[E1 _] [C1 _]] Hlo. pose proof (pow2_pos (- k)) as P.
  eapply Qlt_le_trans; [| exact C1]. apply Qmult_lt_0_compat; lra.
Qed.

Lemma approx_normal k lo hi e c :
  Approx k lo hi e c -> (1 # 2 <= lo)%Q -> k <= 1000 ->
  (Js.pow2 (-1022) <= c)%Q.
Proof.
  intros [[E1 _] [C1 _]] Hlo Hk. pose proof (pow2_pos (- k)) as P.
  apply Qle_trans with ((1 # 2) * Js.pow2 (- k))%Q.
  - change (1 # 2)%Q with (Js.pow2 (-1)). rewrite <- pow2_add. apply pow2_le. lia.
  - eapply Qle_trans; [| exact C1].
    apply Qle_trans with ((1 # 2) * e)%Q.
    + apply Qmult_le_l; [reflexivity | exact E1].
    + apply Qmult_le_compat_r; [exact Hlo | lra].
Qed.

Lemma approx_finite k lo hi e c :
  Approx k lo hi e c -> (0 < lo)%Q -> (hi <= 2)%Q -> k <= 1000 ->
  (Qabs c <= Js.pow2 1023)%Q.
Proof.
  intros H Hlo Hhi Hk. pose proof (approx_pos _ _ _ _ _ H Hlo) as Hc.
  destruct H as [[E1 E2] [_ C2]]. pose proof (pow2_pos (- k)) as P.
  rewrite Qabs_pos by lra. eapply Qle_trans; [exact C2 |].
  apply Qle_trans with (2 * Js.pow2 k)%Q.
  - apply Qle_trans with (2 * e)%Q.
    + apply Qmult_le_compat_r; [exact Hhi | lra].
    + apply Qmult_le_l; [reflexivity | exact E2].
  - rewrite <- pow2_succ. apply pow2_le. lia.
Qed.

Lemma approx_nearest k lo hi e c :
  Approx k lo hi e c -> (1 # 2 <= lo)%Q -> k <= 1000 ->
  Approx k (lo * (1 - Js.pow2 (-53))) (hi * (1 + Js.pow2 (-53))) e (Js.nearest c).
Proof.
  intros H Hlo Hk. pose proof (approx_normal _ _ _ _ _ H Hlo Hk) as Hn.
  pose proof (approx_pos _ _ _ _ _ H ltac:(lra)) as Hc.
  destruct (nearest_relative c Hn) as [N1 N2].
  destruct H as [[E1 E2] [C1 C2]]. pose proof (pow2_pos (- k)) as P.
  pose proof (pow2_pos (-53)) as P53.
  assert (Js.pow2 (-53) < 1)%Q as U1.
  { change 1%Q with (Js.pow2 0). apply pow2_lt. lia. }
  split; [split; assumption |].
  revert N1 N2 C1 C2 P53 U1. generalize (Js.nearest c) (Js.pow2 (-53)).
  intros n u N1 N2 C1 C2 P53 U1. split.
  - eapply Qle_trans; [| exact N1].
    assert (lo * (1 - u) * e == (1 - u) * (lo * e))%Q as -> by ring.
    apply Qmult_le_l; lra.
  - eapply Qle_trans; [exact N2 |].
    assert (hi * (1 + u) * e == (1 + u) * (hi * e))%Q as -> by ring.
    apply Qmult_le_l; lra.
Qed.

Lemma approx_mul k1 k2 l1 h1 e1 c1 l2 h2 e2 c2 :
  Approx k1 l1 h1 e1 c1 -> Approx k2 l2 h2 e2 c2 -> (0 < l1)%Q -> (0 < l2)%Q ->
  Approx (k1 + k2) (l1 * l2) (h1 * h2) (e1 * e2) (c1 * c2).
Proof.
  intros H1 H2 L1 L2.
  pose proof (approx_pos _ _ _ _ _ H1 L1) as C1. pose proof (approx_pos _ _ _ _ _ H2 L2) as C2.
  destruct H1 as [[E11 E12] [C11 C12]]. destruct H2 as [[E21 E22] [C21 C22]].
  pose proof (pow2_pos (- k1)) as P1. pose proof (pow2_pos (- k2)) as P2.
  split; [split |].
  - replace (- (k1 + k2)) with (- k1 + - k2) by lia. rewrite pow2_add.
    apply Qle_trans with (Js.pow2 (- k1) * e2)%Q.
    + apply Qmult_le_l; assumption.
    + apply Qmult_le_compat_r; lra.
  - rewrite pow2_add. apply Qle_trans with (e1 * Js.pow2 k2)%Q.
    + apply Qmult_le_l; lra.
    + apply Qmult_le_compat_r; [assumption |]. apply Qlt_le_weak, pow2_pos.
  - assert (0 < l1 * e1)%Q by (apply Qmult_lt_0_compat; lra).
    assert (0 < l2 * e2)%Q by (apply Qmult_lt_0_compat; lra).
    split.
    + assert (l1 * l2 * (e1 * e2) == (l1 * e1) * (l2 * e2))%Q as -> by ring.
      apply Qle_trans with (l1 * e1 * c2)%Q.
      * apply Qmult_le_l; assumption.
      * apply Qmult_le_compat_r; lra.
    + assert (h1 * h2 * (e1 * e2) == (h1 * e1) * (h2 * e2))%Q as -> by ring.
      apply Qle_trans with (c1 * (h2 * e2))%Q.
      * apply Qmult_le_l; assumption.
      * apply Qmult_le_compat_r; lra.
Qed.

Lemma approx_inv k l h e c :
  Approx k l h e c -> (0 < l)%Q ->
  Approx k (/ h) (/ l) (/ e) (/ c).
Proof.
  intros H L. pose proof (approx_pos _ _ _ _ _ H L) as C.
  destruct H as [[E1 E2] [C1 C2]]. pose proof (pow2_pos (- k)) as P.
  pose proof (pow2_pos k) as Pk.
  assert (0 < e)%Q as He by lra.
  assert (0 < h)%Q as Hh.
  { destruct (Qlt_le_dec 0 h) as [Hh | Hh]; [exact Hh |].
    assert (h * e <= 0 * e)%Q by (apply Qmult_le_compat_r; lra). lra. }
  assert (Js.pow2 (- k) == / Js.pow2 k)%Q as Ek by apply Qpower_opp.
  split; [split |].
  - rewrite Ek. apply Qle_shift_inv_l; [exact He |].
    assert (/ Js.pow2 k * e <= / Js.pow2 k * Js.pow2 k)%Q as H0.
    { apply Qmult_le_l; [now apply Qinv_lt_0_compat | exact E2]. }
    assert (/ Js.pow2 k * Js.pow2 k == 1)%Q as E1' by (field; lra). lra.
  - apply Qle_shift_inv_r; [exact He |].
    assert (Js.pow2 k * Js.pow2 (- k) == 1)%Q as E1'.
    { rewrite Ek. field. lra. }
    assert (Js.pow2 k * Js.pow2 (- k) <= Js.pow2 k * e)%Q as H0.
    { apply Qmult_le_l; assumption. }
    lra.
  - assert (0 < / e)%Q as Hie by now apply Qinv_lt_0_compat.
    assert (0 < / c)%Q as Hic by now apply Qinv_lt_0_compat.
    assert (0 < / h)%Q as Hih by now apply Qinv_lt_0_compat.
    assert (0 < / l)%Q as Hil by now apply Qinv_lt_0_compat.
    split.
    + assert (/ h * / e == / (h * e))%Q as -> by (field; split; lra).
      assert (0 < h * e)%Q as Hhe by (apply Qmult_lt_0_compat; lra).
      apply Qle_shift_inv_l; [exact C |].
      assert (/ (h * e) * (h * e) == 1)%Q as E by (field; split; lra).
      assert (/ (h * e) * c <= / (h * e) * (h * e))%Q.
      { apply Qmult_le_l; [now apply Qinv_lt_0_compat | exact C2]. }
      lra.
    + assert (/ l * / e == / (l * e))%Q as -> by (field; split; lra).
      assert (0 < l * e)%Q as Hle by (apply Qmult_lt_0_compat; lra).
      apply Qle_shift_inv_l; [exact Hle |].
      assert (/ c * c == 1)%Q as E by (field; lra).
      assert (/ c * (l * e) <= / c * c)%Q by (apply Qmult_le_l; assumption).
      lra.
Qed.

Lemma approx_div k1 k2 l1 h1 e1 c1 l2 h2 e2 c2 :
  Approx k1 l1 h1 e1 c1 -> Approx k2 l2 h2 e2 c2 -> (0 < l1)%Q -> (0 < l2)%Q ->
  (0 < h2)%Q ->
  Approx (k1 + k2) (l1 * / h2) (h1 * / l2) (e1 / e2) (c1 / c2).
Proof.
  intros H1 H2 L1 L2 Hh. unfold Qdiv.
  apply approx_mul; [exact H1 | now apply approx_inv | exact L1 |].
  now apply Qinv_lt_0_compat.
Qed.

(** ** The order quantity *)

Ltac qcompute :=
  first [ apply Qle_bool_iff; vm_compute; reflexivity
        | apply Qlt_alt; vm_compute; reflexivity ].

Lemma floor_half_Z (n : Z) : Qfloor (inject_Z n + (1 # 2)) = n.
Proof.
  pose proof (Qfloor_le (inject_Z n + (1 # 2))) as H1.
  pose proof (Qlt_floor (inject_Z n + (1 # 2))) as H2.
  revert H1 H2. generalize (Qfloor (inject_Z n + (1 # 2))). intros k H1 H2.
  assert (inject_Z k < inject_Z (n + 1))%Q as A1.
  { rewrite inject_Z_plus. change (inject_Z 1) with 1%Q. lra. }
  assert (inject_Z n < inject_Z (k + 1))%Q as A2 by lra.
  rewrite <- Zlt_Qlt in A1, A2. lia.
Qed.

(** [Math.round] of a double is a double. *)
Lemma round_representable x :
  Representable x -> Representable (inject_Z (Qfloor (x + (1 # 2)))).
Proof.
  intros (m & t & Ht & Hm & Ex).
  destruct (Z_le_gt_dec 0 t) as [Hpos | Hneg].
  - assert (x == inject_Z (m * 2 ^ t))%Q as Ez.
    { rewrite Ex, inject_Z_mult, <- pow2_Z by lia. reflexivity. }
    assert (Qfloor (x + (1 # 2)) = m * 2 ^ t) as ->.
    { rewrite <- (floor_half_Z (m * 2 ^ t)). apply Qfloor_comp. now rewrite Ez. }
    apply (representable_comp x); [exact Ez |]. exists m, t. auto.
  - assert (Qabs x <= inject_Z (2 ^ 52))%Q as Hx.
    { rewrite Ex, Qabs_Qmult, Zabs_Qabs_inject.
      rewrite (Qabs_pos (Js.pow2 t)) by apply Qlt_le_weak, pow2_pos.
      rewrite Zle_Qle in Hm. rewrite <- pow2_Z in Hm by lia. rewrite <- pow2_Z by lia.
      apply Qle_trans with (Js.pow2 53 * Js.pow2 t)%Q.
      - apply Qmult_le_compat_r; [exact Hm | apply Qlt_le_weak, pow2_pos].
      - rewrite <- pow2_add. apply pow2_le. lia. }
    apply Qabs_Qle_condition in Hx as [X1 X2].
    pose proof (Qfloor_le (x + (1 # 2))) as H1.
    pose proof (Qlt_floor (x + (1 # 2))) as H2.
    rewrite inject_Z_plus in H2. change (inject_Z 1) with 1%Q in H2.
    apply representable_Z.
    revert H1 H2. generalize (Qfloor (x + (1 # 2))). intros k H1 H2.
    assert (inject_Z k < inject_Z (2 ^ 52 + 1))%Q as A1.
    { rewrite inject_Z_plus. change (inject_Z 1) with 1%Q.
      revert X1 X2. generalize (inject_Z (2 ^ 52)). intros. lra. }
    assert (inject_Z (- 2 ^ 52 - 1) < inject_Z k)%Q as A2.
    { rewrite inject_Z_minus, inject_Z_opp. change (inject_Z 1) with 1%Q.
      revert X1 X2. generalize (inject_Z (2 ^ 52)). intros. lra. }
    rewrite <- Zlt_Qlt in A1, A2. lia.
Qed.

Lemma lift64_raw (f : Q -> Q -> Q) (x y : Q) :
  (Qabs x <= Js.pow2 1023)%Q -> (Qabs y <= Js.pow2 1023)%Q ->
  Js.lift64 f (Num x) (Num y) = Js.f64 (f (Js.nearest x) (Js.nearest y)).
Proof.
  intros Hx Hy. unfold Js.lift64. cbn [Js.val].
  now rewrite (f64_finite x Hx), (f64_finite y Hy).
Qed.

Lemma div64_right a x (y : Q) :
  IsDouble a x -> (Qabs y <= Js.pow2 1023)%Q -> ~ (Js.nearest y == 0)%Q ->
  Js.div64 a (Num y) = Js.f64 (x / Js.nearest y).
Proof.
  intros Ha Hy Hn. destruct (val_double a x Ha) as (x' & Ex' & Ex).
  unfold Js.div64. rewrite Ex'. cbn [Js.val]. rewrite (f64_finite y Hy).
  destruct (Qeq_bool (Js.nearest y) 0) eqn:E.
  - apply Qeq_bool_iff in E. contradiction.
  - apply f64_comp. now rewrite Ex.
Qed.

Lemma ordinary_bounded x : Ordinary x -> (Qabs x <= Js.pow2 1023)%Q.
Proof.
  intros [H1 H2]. pose proof (pow2_pos (-100)).
  rewrite Qabs_pos by lra. eapply Qle_trans; [exact H2 |]. apply pow2_le. lia.
Qed.

Lemma ordinary_approx x :
  Ordinary x ->
  Approx 100 (1 * (1 - Js.pow2 (-53))) (1 * (1 + Js.pow2 (-53))) x (Js.nearest x).
Proof.
  intros H. apply approx_nearest; [now apply approx_exact | qcompute | lia].
Qed.

Lemma double_pow10 symbol :
  IsDouble (Js.pow10 (precisionOf symbol)) (Qpower 10 (precisionOf symbol))
  /\ Approx 10 1 1 (Qpower 10 (precisionOf symbol)) (Qpower 10 (precisionOf symbol)).
Proof.
  destruct (precisionOf_cases symbol) as [-> | [-> | ->]]; (split; [split; [| split] |]).
  all: try apply Qeq_refl.
  all: try (apply approx_exact; split; qcompute).
  all: try qcompute.
  - apply (representable_Z 1000). lia.
  - apply (representable_Z 100). lia.
  - apply (representable_Z 10). lia.
Qed.

(** The quantity is a whole number [k] of units of 10^-d, written as a
    double, and [k] is the nearest integer to the exact scaled quotient up
    to the error of the six roundings on the way. *)
Lemma calculateQuantity_nearly_rounds tc (size price lev : Q) leverage symbol :
  actualLeverage tc leverage = Num lev ->
  Ordinary size -> Ordinary lev -> Ordinary price ->
  exists k : Z,
    calculateQuantity tc (Num size) (Num price) leverage symbol
    = Js.f64 (inject_Z k / Qpower 10 (precisionOf symbol))
    /\ (Qabs (inject_Z k - size * lev / price * Qpower 10 (precisionOf symbol))
        <= (1 # 2) + size * lev / price * Qpower 10 (precisionOf symbol) * Js.pow2 (-50))%Q.
Proof.
  intros Hlev Hs Hl Hp.
  destruct (double_pow10 symbol) as [DM AM].
  unfold calculateQuantity. rewrite Hlev.
  revert DM AM. generalize (precisionOf symbol). intros d DM AM.
  set (M := Qpower 10 d) in *.
  pose proof (ordinary_approx _ Hs) as A1. pose proof (ordinary_approx _ Hl) as A2.
  pose proof (ordinary_approx _ Hp) as A3.
  (* size * leverage *)
  unfold Js.mul64 at 2.
  rewrite (lift64_raw Qmult size lev (ordinary_bounded _ Hs) (ordinary_bounded _ Hl)).
  pose proof (approx_mul _ _ _ _ _ _ _ _ _ _ A1 A2 ltac:(qcompute) ltac:(qcompute)) as A4.
  pose proof (approx_finite _ _ _ _ _ A4 ltac:(qcompute) ltac:(qcompute) ltac:(lia)) as F4.
  pose proof (double_f64 _ F4) as D4.
  pose proof (approx_nearest _ _ _ _ _ A4 ltac:(qcompute) ltac:(lia)) as A5.
  (* / price *)
  assert (~ (Js.nearest price == 0)%Q) as Hnz.
  { pose proof (approx_pos _ _ _ _ _ A3 ltac:(qcompute)). lra. }
  rewrite (div64_right _ _ price D4 (ordinary_bounded _ Hp) Hnz).
  pose proof (approx_div _ _ _ _ _ _ _ _ _ _ A5 A3
                ltac:(qcompute) ltac:(qcompute) ltac:(qcompute)) as A6.
  pose proof (approx_finite _ _ _ _ _ A6 ltac:(qcompute) ltac:(qcompute) ltac:(lia)) as F6.
  pose proof (double_f64 _ F6) as D6.
  pose proof (approx_nearest _ _ _ _ _ A6 ltac:(qcompute) ltac:(lia)) as A7.
  (* * multiplier *)
  unfold Js.mul64. rewrite (lift64_double Qmult _ _ _ _ _ D6 DM).
  pose proof (approx_mul _ _ _ _ _ _ _ _ _ _ A7 AM ltac:(qcompute) ltac:(qcompute)) as A8.
  pose proof (approx_finite _ _ _ _ _ A8 ltac:(qcompute) ltac:(qcompute) ltac:(lia)) as F8.
  pose proof (approx_nearest _ _ _ _ _ A8 ltac:(qcompute) ltac:(lia)) as A9.
  rewrite (f64_finite _ F8). cbn [Js.round].
  (* Math.round *)
  set (x3 := Js.nearest
               (Js.nearest (Js.nearest (Js.nearest size * Js.nearest lev)
                            / Js.nearest price) * M)) in *.
  set (k := Qfloor (x3 + (1 # 2))).
  pose proof (round_nearest x3) as [K1 K2]. fold k in K1, K2.
  pose proof (approx_pos _ _ _ _ _ A9 ltac:(qcompute)) as X0.
  pose proof (approx_finite _ _ _ _ _ A9 ltac:(qcompute) ltac:(qcompute) ltac:(lia)) as F9.
  rewrite Qabs_pos in F9 by lra.
  assert (IsDouble (Num (inject_Z k)) (inject_Z k)) as Dk.
  { split; [apply Qeq_refl |]. split; [apply round_representable, nearest_representable |].
    assert (Js.pow2 1022 + 1 <= Js.pow2 1023)%Q as P by qcompute.
    assert (x3 <= Js.pow2 1022)%Q as F9'.
    { destruct A9 as [[E1 E2] [_ C2]]. eapply Qle_trans; [exact C2 |].
      apply Qle_trans with (2 * Js.pow2 (100 + 100 + 100 + 10))%Q.
      - apply Qle_trans
          with (2 * (size * lev / price * M))%Q.
        + apply Qmult_le_compat_r; [qcompute |].
          eapply Qle_trans; [| exact E1]. apply Qlt_le_weak, pow2_pos.
        + apply Qmult_le_l; [reflexivity | exact E2].
      - qcompute. }
    apply Qabs_Qle_condition. split; lra. }
  exists k. split.
  - apply div64_double; [exact Dk | exact DM |].
    destruct AM as [[E1 _] _]. intros E0. rewrite E0 in E1.
    pose proof (pow2_pos (- 10)) as P10. apply (Qlt_irrefl 0).
    eapply Qlt_le_trans; [exact P10 | exact E1].
  - destruct A9 as [[E1 E2] [C1 C2]].
    set (T := (size * lev / price * M)%Q) in *.
    assert (0 < T)%Q as HT.
    { eapply Qlt_le_trans; [| exact E1]. apply pow2_pos. }
    match type of C1 with
    | (?lo * _ <= _)%Q =>
        assert (1 - Js.pow2 (-50) <= lo)%Q as HLO by qcompute;
        assert ((1 - Js.pow2 (-50)) * T <= lo * T)%Q as C1'
          by (apply Qmult_le_compat_r; [exact HLO | lra])
    end.
    match type of C2 with
    | (_ <= ?hi * _)%Q =>
        assert (hi <= 1 + Js.pow2 (-50))%Q as HHI by qcompute;
        assert (hi * T <= (1 + Js.pow2 (-50)) * T)%Q as C2'
          by (apply Qmult_le_compat_r; [exact HHI | lra])
    end.
    apply Qabs_Qle_condition.
    revert K1 K2 C1' C2' C1 C2. generalize (Js.pow2 (-50)) (inject_Z k) x3.
    intros u ki x K1 K2 C1' C2' C1 C2. split; lra.
Qed.

(** C7. For a size, a leverage and a price of ordinary magnitude (between
    2^-100 and 2^100), [calculateQuantity] is a whole number k of units of
    10^-d, written as a double, where k is (positionSize x leverage) / price
    scaled by 10^d and rounded to the nearest integer: the six binary64
    roundings on the way move the scaled value by at most 2^-50 of itself,
    so only a value at a tie, or that close to one, can go either way. d is
    3 for an instrument whose name contains BTC, else 2 for ETH, else 1 for
    BNB, else 3; for size 400, leverage 10 and price 30000 on BTCUSDT the
    quantity is the double 0.133. *)
Theorem calculateQuantity_rounds :
  (forall tc (size price lev : Q) leverage symbol,
     actualLeverage tc leverage = Num lev ->
     Ordinary size -> Ordinary lev -> Ordinary price ->
     exists k : Z,
       calculateQuantity tc (Num size) (Num price) leverage symbol
       = Js.f64 (inject_Z k / Qpower 10 (precisionOf symbol))
       /\ (Qabs (inject_Z k - size * lev / price * Qpower 10 (precisionOf symbol))
           <= (1 # 2)
              + size * lev / price * Qpower 10 (precisionOf symbol) * Js.pow2 (-50))%Q)
  /\ (forall symbol,
        precisionOf symbol =
          if Js.includes "BTC" symbol then 3
          else if Js.includes "ETH" symbol then 2
          else if Js.includes "BNB" symbol then 1
          else 3)
  /\ (forall tc, calculateQuantity tc (Num 400) (Num 30000) (Some (Num 10)) "BTCUSDT"
        = Js.f64 (133 # 1000)).
Proof.
  split; [| split].
  - intros tc size price lev leverage symbol Hlev Hs Hl Hp.
    now apply calculateQuantity_nearly_rounds.
  - reflexivity.
  - intros tc. vm_compute. reflexivity.
Qed.

(** At a tie the roundings decide: 402 x 5 / 2000 is 1.005, the scaled
    value is computed as 100.49999999999999, and the quantity is 1.00. *)
Lemma calculateQuantity_at_a_tie tc :
  calculateQuantity tc (Num 402) (Num 2000) (Some (Num 5)) "ETHUSDT" =n= Num 1.
Proof. vm_compute. reflexivity. Qed.

(** ** The inter-leg delay *)

Lemma floor_between (x : Q) (lo hi : Z) :
  (inject_Z lo <= x <= inject_Z hi)%Q -> lo <= Qfloor x <= hi.
Proof.
  intros [H1 H2]. split.
  - rewrite <- (Qfloor_Z lo). now apply Qfloor_resp_le.
  - rewrite <- (Qfloor_Z hi). now apply Qfloor_resp_le.
Qed.

Lemma legDelay_value (r : Q) (a b : Z) :
  0 <= a <= b -> b <= 2 ^ 53 -> (0 <= r <= 1)%Q ->
  legDelay (Num r) (Js.ofZ a) (Js.ofZ b)
  = Js.ofZ (Qfloor (Js.nearest
                      (Js.nearest (Js.nearest r * (inject_Z b - inject_Z a))
                       + inject_Z a))).
Proof.
  intros Hab Hb Hr.
  assert (inject_Z a <= inject_Z b)%Q as Hab' by (rewrite <- Zle_Qle; lia).
  assert (0 <= inject_Z a)%Q as Ha0 by (change 0%Q with (inject_Z 0); rewrite <- Zle_Qle; lia).
  assert (inject_Z b <= inject_Z (2 ^ 53))%Q as Hb' by now rewrite <- Zle_Qle.
  pose proof pow2_53_le_1023 as P53.
  assert (1 <= Js.pow2 1023)%Q as P1.
  { change 1%Q with (Js.pow2 0). apply pow2_le. lia. }
  pose proof (double_ofZ a ltac:(lia)) as Da. pose proof (double_ofZ b ltac:(lia)) as Db.
  unfold legDelay.
  (* maxDelay - minDelay *)
  unfold Js.sub64. rewrite (lift64_double Qminus _ _ _ _ _ Db Da).
  assert (IsDouble (Js.f64 (inject_Z b - inject_Z a)) (inject_Z b - inject_Z a)) as Dw.
  { apply (double_comp _ (Js.nearest (inject_Z b - inject_Z a))).
    - apply nearest_fixed. apply (representable_comp (inject_Z (b - a)));
        [apply inject_Z_minus | apply representable_Z; lia].
    - apply double_f64. apply Qabs_Qle_condition. split; lra. }
  (* random * width *)
  unfold Js.mul64. rewrite (lift64_left Qmult _ r _ _ ltac:(apply Qabs_Qle_condition; split; lra) Dw).
  assert (0 <= Js.nearest r <= 1)%Q as [R0 R1].
  { split; [apply nearest_nonneg; lra |].
    apply nearest_le; [| lra]. apply (representable_Z 1). lia. }
  set (x := (Js.nearest r * (inject_Z b - inject_Z a))%Q).
  assert (0 <= x <= inject_Z b - inject_Z a)%Q as [X0 X1].
  { unfold x. split; [apply Qmult_le_0_compat; lra |].
    rewrite <- (Qmult_1_l (inject_Z b - inject_Z a)) at 2.
    apply Qmult_le_compat_r; lra. }
  pose proof (double_f64 x ltac:(apply Qabs_Qle_condition; split; lra)) as Dx.
  (* + minDelay *)
  unfold Js.add64. rewrite (lift64_double Qplus _ _ _ _ _ Dx Da).
  assert (0 <= Js.nearest x <= inject_Z b - inject_Z a)%Q as [N0 N1].
  { split; [now apply nearest_nonneg |].
    apply nearest_le; [| exact X1].
    apply (representable_comp (inject_Z (b - a)));
      [apply inject_Z_minus | apply representable_Z; lia]. }
  rewrite (f64_finite (Js.nearest x + inject_Z a))
    by (apply Qabs_Qle_condition; split; lra).
  reflexivity.
Qed.

Lemma legDelay_within (a b : Z) (r : Q) :
  0 <= a <= b -> b <= 2 ^ 53 -> (0 <= r < 1)%Q ->
  exists d : Z, legDelay (Num r) (Js.ofZ a) (Js.ofZ b) = Js.ofZ d /\ a <= d <= b.
Proof.
  intros Hab Hb [Hr0 Hr1]. eexists. split; [apply legDelay_value; auto; split; lra |].
  assert (inject_Z a <= inject_Z b)%Q as Hab' by (rewrite <- Zle_Qle; lia).
  assert (0 <= Js.nearest r <= 1)%Q as [R0 R1].
  { split; [apply nearest_nonneg; lra |].
    apply nearest_le; [| lra]. apply (representable_Z 1). lia. }
  set (x := (Js.nearest r * (inject_Z b - inject_Z a))%Q).
  assert (0 <= x <= inject_Z b - inject_Z a)%Q as [X0 X1].
  { unfold x. split; [apply Qmult_le_0_compat; lra |].
    rewrite <- (Qmult_1_l (inject_Z b - inject_Z a)) at 2.
    apply Qmult_le_compat_r; lra. }
  assert (0 <= Js.nearest x <= inject_Z b - inject_Z a)%Q as [N0 N1].
  { split; [now apply nearest_nonneg |].
    apply nearest_le; [| exact X1].
    apply (representable_comp (inject_Z (b - a)));
      [apply inject_Z_minus | apply representable_Z; lia]. }
  apply floor_between. split.
  - apply nearest_ge; [apply representable_Z; lia | lra].
  - apply nearest_le; [apply representable_Z; lia | lra].
Qed.

Lemma representable_half (m : Z) :
  Z.abs m <= 2 ^ 53 -> Representable (inject_Z m * (1 # 2)).
Proof.
  intros H. apply (representable_comp (inject_Z m * Js.pow2 (-1))); [reflexivity |].
  apply representable_scaled; [lia | exact H].
Qed.

Lemma isDouble_representable x :
  Representable x -> (Qabs x < Js.pow2 1024)%Q -> Js.isDouble x = true.
Proof.
  intros R B. unfold Js.isDouble. apply andb_true_intro. split.
  - apply Qeq_bool_iff. now apply nearest_fixed.
  - apply negb_true_iff. apply not_true_is_false. intros H.
    apply Qle_bool_iff in H. lra.
Qed.

Lemma isDouble_nearest x : Js.isDouble x = true -> (Js.nearest x == x)%Q.
Proof.
  unfold Js.isDouble. intros H. apply andb_true_iff in H as [H _].
  now apply Qeq_bool_iff.
Qed.

(** Every delay below [maxDelay] is the delay of some draw: the first
    multiple of 2^-52 at or above (d - a) / (b - a). *)
Lemma legDelay_attains (a b d : Z) :
  0 <= a -> b <= 2 ^ 51 -> a <= d < b ->
  exists c : Z, 0 <= c < 2 ^ 52
    /\ legDelay (Num (inject_Z c * Js.pow2 (-52))) (Js.ofZ a) (Js.ofZ b) = Js.ofZ d.
Proof.
  intros Ha Hb [Hd1 Hd2].
  set (w := b - a). set (n := (d - a) * 2 ^ 52).
  set (c := (n + w - 1) / w).
  assert (0 < w <= 2 ^ 51) as Hw by (unfold w; lia).
  assert (c * w < n + w /\ n <= c * w) as [C1 C2].
  { pose proof (Z.div_mod (n + w - 1) w ltac:(lia)) as E.
    pose proof (Z.mod_pos_bound (n + w - 1) w ltac:(lia)) as M.
    fold c in E. split; nia. }
  assert (0 <= c < 2 ^ 52) as Hc.
  { assert (0 <= n) by (unfold n; nia).
    assert (n <= (w - 1) * 2 ^ 52) by (unfold n, w; nia).
    split; nia. }
  exists c. split; [exact Hc |].
  set (r := (inject_Z c * Js.pow2 (-52))%Q).
  assert (Representable r) as Rr by (apply representable_scaled; lia).
  pose proof (pow2_pos (-52)) as P52.
  assert (Js.pow2 (-52) * inject_Z (2 ^ 52) == 1)%Q as E52.
  { rewrite <- pow2_Z, <- pow2_add by lia. reflexivity. }
  assert (0 <= r < 1)%Q as [R0 R1].
  { unfold r. destruct Hc as [Hc0 Hc1]. rewrite Zle_Qle in Hc0. rewrite Zlt_Qlt in Hc1.
    change (inject_Z 0) with 0%Q in Hc0.
    revert E52 Hc0 Hc1 P52. generalize (inject_Z (2 ^ 52)) (Js.pow2 (-52)) (inject_Z c).
    intros. nra. }
  rewrite legDelay_value by (try lia; split; lra).
  unfold Js.ofZ. do 2 f_equal.
  rewrite (nearest_comp (Js.nearest r * (inject_Z b - inject_Z a))
             (r * (inject_Z b - inject_Z a)))
    by now rewrite (nearest_fixed r Rr).
  set (x := (r * (inject_Z b - inject_Z a))%Q).
  assert (inject_Z (d - a) <= x <= inject_Z (2 * (d - a) + 1) * (1 # 2))%Q as [X1 X2].
  { unfold x, r. rewrite <- inject_Z_minus. fold w.
    rewrite inject_Z_plus, inject_Z_mult. change (inject_Z 2) with 2%Q.
    change (inject_Z 1) with 1%Q.
    assert (inject_Z (c * w) < inject_Z (n + w))%Q as C1' by now rewrite <- Zlt_Qlt.
    assert (inject_Z n <= inject_Z (c * w))%Q as C2' by now rewrite <- Zle_Qle.
    destruct Hw as [Hw0 Hw]. rewrite Zle_Qle in Hw.
    unfold n in C1', C2'. rewrite inject_Z_plus in C1'. rewrite !inject_Z_mult in C1', C2'.
    assert (inject_Z (2 ^ 52) == 2 * inject_Z (2 ^ 51))%Q as E2 by reflexivity.
    revert E52 E2 C1' C2' Hw P52.
    generalize (inject_Z (2 ^ 52)) (inject_Z (2 ^ 51)) (Js.pow2 (-52)) (inject_Z c)
      (inject_Z w) (inject_Z (d - a)).
    intros T52 T51 u ci wi di E52 E2 C1' C2' Hw P52.
    assert (u * (di * T52) == di)%Q as L1.
    { transitivity (di * (u * T52))%Q; [ring | rewrite E52; ring]. }
    assert (u * T51 == 1 # 2)%Q as L2.
    { assert (2 * (u * T51) == 1)%Q as L by (rewrite <- E52, E2; ring). lra. }
    assert (u * (di * T52) <= u * (ci * wi))%Q as L3.
    { apply Qmult_le_l; assumption. }
    assert (u * (ci * wi) < u * (di * T52 + wi))%Q as L4.
    { apply Qmult_lt_l; assumption. }
    assert (u * wi <= u * T51)%Q as L5.
    { apply Qmult_le_l; assumption. }
    assert (ci * u * wi == u * (ci * wi))%Q as -> by ring.
    assert (u * (di * T52 + wi) == u * (di * T52) + u * wi)%Q as L6 by ring.
    split; lra. }
  assert (inject_Z (d - a) <= Js.nearest x <= inject_Z (2 * (d - a) + 1) * (1 # 2))%Q
    as [N1 N2].
  { split.
    - apply nearest_ge; [apply representable_Z; lia | exact X1].
    - apply nearest_le; [apply representable_half; lia | exact X2]. }
  assert (inject_Z d <= Js.nearest x + inject_Z a <= inject_Z (2 * d + 1) * (1 # 2))%Q
    as [Y1 Y2].
  { rewrite inject_Z_minus in N1.
    rewrite inject_Z_plus, inject_Z_mult, inject_Z_minus in N2.
    rewrite inject_Z_plus, inject_Z_mult.
    change (inject_Z 2) with 2%Q in *. change (inject_Z 1) with 1%Q in *. split; lra. }
  assert (inject_Z d <= Js.nearest (Js.nearest x + inject_Z a)
          <= inject_Z (2 * d + 1) * (1 # 2))%Q as [F1 F2].
  { split.
    - apply nearest_ge; [apply representable_Z; lia | exact Y1].
    - apply nearest_le; [apply representable_half; lia | exact Y2]. }
  assert (d <= Qfloor (Js.nearest (Js.nearest x + inject_Z a)) < d + 1) as Hfl.
  { split.
    - rewrite <- (Qfloor_Z d). now apply Qfloor_resp_le.
    - rewrite Zlt_Qlt. eapply Qle_lt_trans; [apply Qfloor_le |].
      rewrite inject_Z_plus, inject_Z_mult in F2. rewrite inject_Z_plus.
      change (inject_Z 2) with 2%Q in *. change (inject_Z 1) with 1%Q in *. lra. }
  lia.
Qed.

(** The largest double below 1 is 1 - 2^-53. *)
Lemma double_below_one r :
  Js.isDouble r = true -> (0 <= r < 1)%Q -> (r <= 1 - Js.pow2 (-53))%Q.
Proof.
  intros Hd [R0 R1]. apply isDouble_nearest in Hd.
  apply Qnot_lt_le. intros Hlt.
  pose proof (pow2_pos (-53)) as P53.
  assert (Js.pow2 (-53) <= 1 # 2)%Q as P53'.
  { change (1 # 2)%Q with (Js.pow2 (-1)). apply pow2_le. lia. }
  assert (~ (r == 0)%Q) as Hr by lra.
  assert (Js.binade r = -1) as Hb.
  { apply binade_unique. rewrite Qabs_pos by exact R0.
    change (Js.pow2 (-1)) with (1 # 2)%Q. change (Js.pow2 (-1 + 1)) with 1%Q.
    split; lra. }
  rewrite (nearest_nonzero r Hr) in Hd. unfold Js.ulpExp in Hd. rewrite Hb in Hd.
  change (Z.max (-1) (-1022) - 52) with (-53) in Hd.
  assert (Js.pow2 (-53) * inject_Z (2 ^ 53) == 1)%Q as E53.
  { rewrite <- pow2_Z, <- pow2_add by lia. reflexivity. }
  revert Hd. generalize (Js.rne (r / Js.pow2 (-53))). intros n Hd.
  assert (inject_Z (2 ^ 53 - 1) < inject_Z n < inject_Z (2 ^ 53))%Q as [A1 A2].
  { rewrite inject_Z_minus. change (inject_Z 1) with 1%Q.
    revert E53 Hd Hlt R1 P53. generalize (inject_Z (2 ^ 53)) (Js.pow2 (-53)) (inject_Z n).
    intros. split; nra. }
  rewrite <- Zlt_Qlt in A1, A2. lia.
Qed.

(** C9, as the code has it. For integers 0 <= minDelay < maxDelay <= 2^51
    and every draw of [Math.random] in [0, 1), the delay is an integer d
    with minDelay <= d <= maxDelay; every integer from minDelay up to
    maxDelay - 1 is the delay of some draw c / 2^52; and maxDelay itself is
    the delay only where the binary64 sum rounds up to it, as it does for
    the range from 25000 to 30000 at the draw 1 - 2^-52. *)
Theorem legDelay_range :
  (forall a b : Z, 0 <= a < b -> b <= 2 ^ 51 ->
     (forall r : Q, (0 <= r < 1)%Q ->
        exists d : Z, legDelay (Num r) (Js.ofZ a) (Js.ofZ b) = Js.ofZ d /\ a <= d <= b)
     /\ (forall d : Z, a <= d < b ->
           exists c : Z, 0 <= c < 2 ^ 52
             /\ legDelay (Num (inject_Z c * Js.pow2 (-52))) (Js.ofZ a) (Js.ofZ b)
                = Js.ofZ d))
  /\ legDelay (Num (inject_Z (2 ^ 52 - 1) * Js.pow2 (-52))) (Js.ofZ 25000) (Js.ofZ 30000)
     = Js.ofZ 30000.
Proof.
  split.
  - intros a b Hab Hb. split.
    + intros r Hr. apply legDelay_within; [lia | lia | exact Hr].
    + intros d Hd. apply legDelay_attains; [lia | exact Hb | exact Hd].
  - vm_compute. reflexivity.
Qed.

(** C9 as stated fails: with the default range of 10000 to 30000 ms no
    draw, that is no double in [0, 1), gives a delay of maxDelay. *)
Lemma legDelay_never_maxDelay :
  ~ exists r : Q, Js.isDouble r = true /\ (0 <= r < 1)%Q
      /\ legDelay (Num r) (Num 10000) (Num 30000) =n= Num 30000.
Proof.
  intros (r & Hd & Hr & Heq).
  pose proof (double_below_one r Hd Hr) as Hle. destruct Hr as [R0 R1].
  change (Num 10000) with (Js.ofZ 10000) in Heq.
  change (Num 30000) with (Js.ofZ 30000) in Heq at 1.
  rewrite legDelay_value in Heq by (try lia; split; lra).
  rewrite (nearest_comp (Js.nearest r * (inject_Z 30000 - inject_Z 10000))
             (r * 20000)) in Heq
    by (rewrite (isDouble_nearest r Hd); ring).
  change (inject_Z 10000) with 10000%Q in Heq.
  assert (Js.nearest (r * 20000) <= Js.nearest ((1 - Js.pow2 (-53)) * 20000))%Q as H1.
  { apply nearest_mono. lra. }
  assert (Js.nearest (Js.nearest (r * 20000) + 10000)
          <= Js.nearest (Js.nearest ((1 - Js.pow2 (-53)) * 20000) + 10000))%Q as H2.
  { apply nearest_mono. lra. }
  assert (Js.nearest (Js.nearest ((1 - Js.pow2 (-53)) * 20000) + 10000) < 30000)%Q as H3.
  { vm_compute. reflexivity. }
  unfold Js.ofZ in Heq. cbn [Js.same] in Heq.
  pose proof (Qfloor_le (Js.nearest (Js.nearest (r * 20000) + 10000))) as H4.
  rewrite Heq in H4. change (inject_Z 30000) with 30000%Q in H4. lra.
Qed.

(** ** The PnL of a position *)



(** ** The quarantine poll *)

Section Quarantine.

Context (gid : string) (g : GroupData) (retryAt : Z) (s : State).
Hypothesis Hgroup : activeGroups s !! gid = Some g.
Hypothesis Hcritical : criticalError g = true.
Hypothesis Hretry : retryAfter g = Some retryAt.
Hypothesis Hset : retryAt <> 0.





End Quarantine.



(** ** Reasoning about runs *)

(** Inversion of a run of [bind]. *)
Lemma bind_inv {A B} (m : M A) (k : A -> M B) s r s' :
  bind m k s = (r, s') ->
  (exists a s1, m s = (Return a, s1) /\ k a s1 = (r, s'))
  \/ (exists e, m s = (Throw e, s') /\ r = Throw e).
Proof.
  unfold bind. destruct (m s) as [[a | e] s1]; intros H.
  - left. eauto.
  - right. inversion H; subst. eauto.
Qed.

Lemma bind_return {A B} (m : M A) (k : A -> M B) s a s1 :
  m s = (Return a, s1) -> bind m k s = k a s1.
Proof. unfold bind. now intros ->. Qed.

Section Along.

Context (R : relation State) `{!PreOrder R}.

Lemma along_ret {A} (a : A) : along R (ret a).
Proof. intros s r s' H. inversion H; subst. reflexivity. Qed.

Lemma along_throw {A} e : along R (@throw A e).
Proof. intros s r s' H. inversion H; subst. reflexivity. Qed.

Lemma along_gets {A} (f : State -> A) : along R (gets f).
Proof. intros s r s' H. inversion H; subst. reflexivity. Qed.

Lemma along_modify f : (forall s, R s (f s)) -> along R (modify f).
Proof. intros Hf s r s' H. inversion H; subst. apply Hf. Qed.

Lemma along_bind {A B} (m : M A) (k : A -> M B) :
  along R m -> (forall a, along R (k a)) -> along R (bind m k).
Proof.
  intros Hm Hk s r s' H.
  destruct (bind_inv _ _ _ _ _ H) as [(a & s1 & H1 & H2) | (e & H1 & _)].
  - transitivity s1; [eapply Hm | eapply Hk]; eauto.
  - eapply Hm; eauto.
Qed.

Lemma along_tryCatch {A} (m : M A) (h : Error -> M A) :
  along R m -> (forall e, along R (h e)) -> along R (tryCatch m h).
Proof.
  intros Hm Hh s r s' H. unfold tryCatch in H.
  destruct (m s) as [[a | e] s1] eqn:E.
  - inversion H; subst. eapply Hm; eauto.
  - transitivity s1; [eapply Hm | eapply Hh]; eauto.
Qed.

End Along.

(** ** The open phase *)

#[local] Instance OpensOnly_preorder : PreOrder OpensOnly.
Proof.
  split.
  - intros s. split; try reflexivity; exists []; now rewrite app_nil_r.
  - intros s1 s2 s3 [R1 G1 P1 N1 E1 [h1 H1] [l1 L1]] [R2 G2 P2 N2 E2 [h2 H2] [l2 L2]].
    split; try congruence.
    + exists (h1 ++ h2). now rewrite H2, H1, app_assoc.
    + exists (l1 ++ l2). now rewrite L2, L1, app_assoc.
Qed.

Create HintDb along.

(** One step through a monadic term, for a goal [along R m]. *)
Ltac along_step :=
  first
    [ apply along_ret; apply _
    | apply along_throw; apply _
    | apply along_gets; apply _
    | apply along_bind; [apply _ | | intros]
    | apply along_tryCatch; [apply _ | | intros]
    | solve [auto with along] ].

Section OpenFrame.

Context (ex : Exchange) (tc : TradingConfig).

Lemma send_opens c : along OpensOnly (send ex c).
Proof.
  intros s r s' H. inversion H; subst. split; try reflexivity.
  - exists []. simpl. now rewrite app_nil_r.
  - eexists. reflexivity.
Qed.

Lemma sleep_opens ms : along OpensOnly (sleep ms).
Proof.
  apply along_modify. intros s. split; try reflexivity; exists []; simpl; now rewrite app_nil_r.
Qed.

Lemma mathRandom_opens : along OpensOnly (mathRandom ex).
Proof.
  intros s r s' H. inversion H; subst.
  split; try reflexivity; exists []; simpl; now rewrite app_nil_r.
Qed.

Lemma getGroup_along R `{!PreOrder R} gid : along R (getGroup gid).
Proof.
  intros s r s' H. unfold getGroup in H.
  destruct (activeGroups s !! gid); inversion H; subst; reflexivity.
Qed.

Lemma alloc_opens p : along OpensOnly (alloc p).
Proof.
  intros s r s' H. inversion H; subst. split; try reflexivity.
  - eexists. reflexivity.
  - exists []. simpl. now rewrite app_nil_r.
Qed.

Lemma placeOrder_opens c sym side ty ps : along OpensOnly (placeOrder ex c sym side ty ps).
Proof.
  unfold placeOrder. along_step; [apply send_opens |].
  destruct (orderReply ex a); along_step.
Qed.

Lemma setLeverage_opens c sym lev : along OpensOnly (setLeverage ex c sym lev).
Proof.
  unfold setLeverage. along_step; [apply send_opens |].
  destruct (leverageReply ex a); along_step.
Qed.

Lemma getSymbolPrice_opens c sym : along OpensOnly (getSymbolPrice ex c sym).
Proof.
  unfold getSymbolPrice. along_step; [apply send_opens |].
  destruct (priceReply ex a); along_step.
Qed.

#[local] Hint Resolve send_opens sleep_opens mathRandom_opens alloc_opens
  placeOrder_opens setLeverage_opens getSymbolPrice_opens : along.

Lemma openAttempt_opens pair symbol size gid config attempt :
  along OpensOnly (openAttempt ex tc pair symbol size gid config attempt).
Proof.
  unfold openAttempt, placeOrderWithRetry, dateNow.
  along_step; [apply getGroup_along; apply _ |].
  destruct (find _ _); [destruct (find _ _) |]; repeat (along_step; auto with along).
Qed.

Lemma openAttempts_opens pair symbol size gid config left :
  forall attempt lastError,
    along OpensOnly (openAttempts ex tc left attempt lastError pair symbol size gid config).
Proof.
  induction left as [| left IH]; intros attempt lastError; simpl.
  - along_step.
  - along_step.
    + along_step; [apply openAttempt_opens | along_step].
    + destruct (isInsufficientMarginError e); [along_step |].
      destruct (Z.eqb attempt maxRetries); [along_step |].
      along_step; [apply sleep_opens | apply IH].
Qed.

Lemma openPair_opens pair symbol size gid config :
  along OpensOnly (openPairPositionWithRetry ex tc pair symbol size gid config).
Proof. apply openAttempts_opens. Qed.

End OpenFrame.

Ltac simpl_state :=
  cbn [isRunning activeGroups groupPositions groupPnL heap clock requests
       emitted draws setClock setRequests setEmitted setDraws setHeap
       setActiveGroups setGroupPositions setGroupPnL setIsRunning sent elapse] in *.

Ltac finish_opened :=
  split; simpl_state; rewrite <- ?app_assoc in *; cbn [app] in *;
  first [reflexivity | eassumption].

Section OpenOutcome.

Context (ex : Exchange) (tc : TradingConfig).

Lemma openAttempt_outcome pair symbol size gid config attempt g s r s' :
  activeGroups s !! gid = Some g ->
  openAttempt ex tc pair symbol size gid config attempt s = (r, s') ->
  match r with
  | Throw _ => heap s' = heap s
  | Return ref =>
      exists p lc sc before, OpenedAt ex g pair symbol size s s' ref p lc sc before
  end.
Proof.
  intros Hg H. unfold openAttempt in H.
  unfold bind at 1 in H. unfold getGroup at 1 in H. rewrite Hg in H.
  destruct (find (isClientOf (long pair)) (apiClients g)) as [lc |] eqn:Hlc;
    [destruct (find (isClientOf (short pair)) (apiClients g)) as [sc |] eqn:Hsc |];
    try (inversion H; subst; reflexivity).
  cbv beta iota zeta delta [placeOrderWithRetry tryCatch bind setLeverage
    getSymbolPrice placeOrder send sent mathRandom sleep elapse dateNow gets modify alloc
    throw ret] in H.
  simpl_state.
  repeat (match type of H with
          | context [leverageReply ex ?n] => destruct (leverageReply ex n) eqn:?
          | context [priceReply ex ?n] => destruct (priceReply ex n) eqn:?
          | context [orderReply ex ?n] => destruct (orderReply ex n) eqn:?
          end; cbv beta iota zeta in H; simpl_state);
    inversion H; subst; clear H; simpl_state; try reflexivity.
  all: do 3 eexists;
    first [ eexists [_; _; _]; solve [finish_opened]
          | eexists [_; _]; solve [finish_opened] ].
Qed.

Lemma openAttempts_outcome pair symbol size gid config g left :
  forall attempt lastError s r s',
    activeGroups s !! gid = Some g ->
    openAttempts ex tc left attempt lastError pair symbol size gid config s = (r, s') ->
    exists result, r = Return result /\ PairOutcome ex g pair symbol size s s' result.
Proof.
  induction left as [| left IH]; intros attempt lastError s r s' Hg H; simpl in H.
  - inversion H; subst. eexists. split; [reflexivity | reflexivity].
  - unfold tryCatch in H. unfold bind at 1 in H.
    destruct (openAttempt ex tc pair symbol size gid config attempt s)
      as [[ref | e] s1] eqn:Hatt.
    + pose proof (openAttempt_outcome _ _ _ _ _ _ _ _ _ _ Hg Hatt) as (p & lc & sc & b & Ho).
      inversion H; subst. eexists. split; [reflexivity |].
      exists s, p, lc, sc, b. repeat split; try reflexivity; try apply Ho.
      * exists []. now rewrite app_nil_r.
      * exists []. now rewrite app_nil_r.
    + pose proof (openAttempt_outcome _ _ _ _ _ _ _ _ _ _ Hg Hatt) as Hheap.
      pose proof (openAttempt_opens ex tc _ _ _ _ _ _ _ _ _ Hatt) as Hfr.
      cbn beta iota in Hheap.
      destruct (isInsufficientMarginError e).
      { inversion H; subst. eexists. split; [reflexivity | exact Hheap]. }
      destruct (Z.eqb attempt maxRetries).
      { inversion H; subst. eexists. split; [reflexivity | exact Hheap]. }
      unfold bind at 1 in H. unfold sleep at 1, modify at 1, elapse at 1 in H.
      apply IH in H; [| simpl; now rewrite (oo_groups _ _ Hfr)].
      destruct H as (result & -> & Hres). exists result. split; [reflexivity |].
      destruct result as [ref | |]; simpl in *; try congruence.
      destruct Hres as (s0 & p & lc & sc & b & Hoo & Hh & Ho).
      exists s0, p, lc, sc, b. repeat split; try apply Ho; try apply Hoo.
      * rewrite (oo_running _ _ Hoo). simpl. apply Hfr.
      * rewrite (oo_groups _ _ Hoo). simpl. apply Hfr.
      * rewrite (oo_positions _ _ Hoo). simpl. apply Hfr.
      * rewrite (oo_pnl _ _ Hoo). simpl. apply Hfr.
      * rewrite (oo_emitted _ _ Hoo). simpl. apply Hfr.
      * destruct (oo_heap _ _ Hoo) as [h Eh]. exists h. rewrite Eh. simpl. now rewrite Hheap.
      * destruct (oo_requests _ _ Hoo) as [l El], (oo_requests _ _ Hfr) as [l' El'].
        exists (l' ++ l). rewrite El. simpl. now rewrite El', app_assoc.
      * congruence.
Qed.

Lemma openPair_outcome pair symbol size gid config g s r s' :
  activeGroups s !! gid = Some g ->
  openPairPositionWithRetry ex tc pair symbol size gid config s = (r, s') ->
  exists result, r = Return result /\ PairOutcome ex g pair symbol size s s' result.
Proof. apply openAttempts_outcome. Qed.

End OpenOutcome.

Section OpenPhase.

Context (ex : Exchange) (tc : TradingConfig) (gid symbol : string)
  (size : Js.number) (config : Config).

Lemma openBody_margin pair st s error s1 g :
  criticalErrorOccurred st = false ->
  openPairPositionWithRetry ex tc pair symbol size gid config s
    = (Return (InsufficientMargin error), s1) ->
  activeGroups s !! gid = Some g ->
  let st' := {| newPositions := newPositions st;
                insufficientMarginCount := S (insufficientMarginCount st);
                criticalErrorOccurred := false |} in
  let s2 := setEmitted
              (emitted s1 ++
               [insufficientMargin (pairId pair)
                  [accountName (long pair); accountName (short pair)] error]) s1 in
  openBody ex tc gid symbol size config pair st s =
    if (S (insufficientMarginCount st) =? length (pairs g))%nat
    then (Return (st', true),
          setEmitted (emitted s2 ++ [groupDeactivated gid marginReason error])
            (setActiveGroups (alter setInactive gid (activeGroups s2)) s2))
    else (Return (st', false), s2).
Proof.
  intros Hc Hopen Hg st' s2. unfold openBody. rewrite Hc.
  rewrite (bind_return _ _ _ _ _ Hopen).
  pose proof (openPair_opens ex tc pair symbol size gid config _ _ _ Hopen) as Hf.
  unfold bind at 1. unfold emit at 1, modify at 1. fold s2.
  unfold bind at 1. unfold getGroup at 1.
  assert (activeGroups s2 !! gid = Some g) as ->.
  { subst s2. simpl. now rewrite (oo_groups _ _ Hf). }
  cbn [insufficientMarginCount].
  destruct (_ =? _)%nat; reflexivity.
Qed.

Lemma all_margin_loop g :
  forall l st s,
    activeGroups s !! gid = Some g ->
    criticalErrorOccurred st = false ->
    (insufficientMarginCount st + length l = length (pairs g))%nat ->
    l <> [] ->
    (forall pair rest st2 s2,
       Reaches (openBody ex tc gid symbol size config) l st s (pair :: rest) st2 s2 ->
       exists error s3,
         openPairPositionWithRetry ex tc pair symbol size gid config s2
           = (Return (InsufficientMargin error), s3)) ->
    exists st' s' error,
      forOf (openBody ex tc gid symbol size config) l st s = (Return st', s')
      /\ criticalErrorOccurred st' = false
      /\ newPositions st' = newPositions st
      /\ activeGroups s' = alter setInactive gid (activeGroups s)
      /\ groupPositions s' = groupPositions s
      /\ List.filter (isDeactivation gid marginReason) (emitted s')
         = List.filter (isDeactivation gid marginReason) (emitted s)
           ++ [groupDeactivated gid marginReason error].
Proof.
  induction l as [| pair rest IH]; intros st s Hg Hc Hn Hne Hall; [congruence |].
  destruct (Hall pair rest st s (reaches_here _ _ _ _)) as (error & s3 & Hopen).
  pose proof (openPair_opens ex tc pair symbol size gid config _ _ _ Hopen) as Hf.
  pose proof (openBody_margin pair st s error s3 g Hc Hopen Hg) as Hbody.
  cbv zeta in Hbody. cbn [forOf].
  destruct (Nat.eqb_spec (S (insufficientMarginCount st)) (length (pairs g))) as [Heq | Hneq].
  - rewrite (bind_return _ _ _ _ _ Hbody). cbn [snd fst].
    eexists _, _, error. split; [reflexivity |].
    repeat split; simpl.
    + now rewrite (oo_groups _ _ Hf).
    + now rewrite (oo_positions _ _ Hf).
    + rewrite (oo_emitted _ _ Hf), <- app_assoc, List.filter_app. simpl.
      now rewrite !String.eqb_refl.
  - rewrite (bind_return _ _ _ _ _ Hbody). cbn [snd fst].
    edestruct IH as (st' & s' & error' & Hrun & Hc' & Hnew & Hgr & Hpos & Hev);
      [| | | | | exists st', s', error'; split; [apply Hrun |]].
    + simpl. rewrite (oo_groups _ _ Hf). exact Hg.
    + reflexivity.
    + simpl in *. lia.
    + destruct rest; [simpl in *; lia | congruence].
    + intros p r st2 s2 Hreach. eapply Hall. eapply reaches_next; [apply Hbody | apply Hreach].
    + repeat split; try assumption.
      * rewrite Hgr. simpl. now rewrite (oo_groups _ _ Hf).
      * rewrite Hpos. simpl. now rewrite (oo_positions _ _ Hf).
      * rewrite Hev. simpl. rewrite (oo_emitted _ _ Hf), List.filter_app. simpl.
        now rewrite app_nil_r.
Qed.

End OpenPhase.

(** C2. When every pair the loop of [openGroupPositions] gets to reports
    insufficient margin, the call returns 0, leaves the group inactive and
    emits exactly one deactivation event with reason
    all_pairs_insufficient_margin. *)
Theorem all_pairs_margin_suspends :
  forall ex tc gid symbol config s g ledger size s1,
    activeGroups s !! gid = Some g ->
    groupPositions s !! gid = Some ledger ->
    pairs g <> [] ->
    generateRandomPositionSize ex tc s = (Return size, s1) ->
    (forall pair rest st2 s2,
       Reaches (openBody ex tc gid symbol size config) (pairs g) openLoopStart s1
         (pair :: rest) st2 s2 ->
       exists error s3,
         openPairPositionWithRetry ex tc pair symbol size gid config s2
           = (Return (InsufficientMargin error), s3)) ->
    exists s' error,
      openGroupPositions ex tc gid symbol config s = (Return 0%nat, s')
      /\ activeGroups s' !! gid = Some (setInactive g)
      /\ isActive (setInactive g) = false
      /\ groupPositions s' !! gid = Some ledger
      /\ List.filter (isDeactivation gid marginReason) (emitted s')
         = List.filter (isDeactivation gid marginReason) (emitted s)
           ++ [groupDeactivated gid marginReason error].
Proof.
  intros ex tc gid symbol config s g ledger size s1 Hg Hled Hne Hsize Hall.
  assert (activeGroups s1 = activeGroups s /\ groupPositions s1 = groupPositions s
          /\ emitted s1 = emitted s) as (Hg1 & Hp1 & He1).
  { unfold generateRandomPositionSize in Hsize.
    destruct (default _ _) as [mn mx]. inversion Hsize; subst. auto. }
  destruct (all_margin_loop ex tc gid symbol size config g (pairs g) openLoopStart s1)
    as (st' & s' & error & Hrun & Hc & Hnew & Hgr & Hpos & Hev); try assumption.
  - now rewrite Hg1.
  - reflexivity.
  - reflexivity.
  - eexists _, error. unfold openGroupPositions.
    rewrite (bind_return _ _ _ _ _ Hsize).
    unfold bind at 1. unfold getGroup at 1. rewrite Hg1, Hg.
    rewrite (bind_return _ _ _ _ _ Hrun). rewrite Hc.
    unfold bind at 1. unfold bind at 1. unfold getGroupPositions at 1.
    rewrite Hpos, Hp1, Hled. unfold modify at 1. unfold ret at 1.
    rewrite Hnew. simpl. split; [reflexivity |].
    repeat split; simpl.
    + rewrite Hgr, Hg1, lookup_alter_eq, Hg. reflexivity.
    + now rewrite lookup_insert_eq, app_nil_r.
    + now rewrite Hev, He1.
Qed.

Section CriticalPath.

Context (ex : Exchange) (tc : TradingConfig) (gid symbol : string)
  (size : Js.number) (config : Config).

Lemma exhausts_critical pair s error s' :
  Exhausts ex tc pair symbol size gid config s error s' ->
  openPairPositionWithRetry ex tc pair symbol size gid config s
  = (Return (CriticalError (Some error)), s').
Proof.
  intros (e1 & s1 & e2 & s2 & H1 & M1 & H2 & M2 & H3 & M3).
  unfold openPairPositionWithRetry. change (Z.to_nat maxRetries) with 3%nat.
  cbn [openAttempts]. unfold maxRetries.
  unfold tryCatch at 1. unfold bind at 1. rewrite H1, M1. cbn [Z.eqb Pos.eqb].
  unfold bind at 1. unfold sleep at 1, modify at 1.
  unfold tryCatch at 1. unfold bind at 1.
  change (1000 * 1) with 1000. change (1 + 1) with 2. rewrite H2, M2. cbn [Z.eqb Pos.eqb].
  unfold bind at 1. unfold sleep at 1, modify at 1.
  unfold tryCatch at 1. unfold bind at 1.
  change (1000 * 2) with 2000. change (2 + 1) with 3. rewrite H3, M3. reflexivity.
Qed.

Lemma forOf_reaches {A St} (body : A -> St -> M (St * bool)) l st s l' st' s' :
  Reaches body l st s l' st' s' -> forOf body l st s = forOf body l' st' s'.
Proof.
  induction 1 as [| x l st s st1 s1 l' st' s' Hbody _ IH]; [reflexivity |].
  cbn [forOf]. now rewrite (bind_return _ _ _ _ _ Hbody).
Qed.

Lemma closable_app g h h' r p lc sc :
  Closable g h r p lc sc -> Closable g (h ++ h') r p lc sc.
Proof.
  intros (Hl & Hrest). split; [| exact Hrest]. now apply lookup_app_l_Some.
Qed.

Lemma openBody_keeps_inv g pair st s st1 s1 :
  OpenInv gid g size st s ->
  openBody ex tc gid symbol size config pair st s = (Return (st1, false), s1) ->
  OpenInv gid g size st1 s1.
Proof.
  intros [Hg Hc Hnd Hopen] H. unfold openBody in H. rewrite Hc in H.
  apply bind_inv in H. destruct H as [(result & s2 & Hpair & H) | (e & _ & He)];
    [| discriminate].
  destruct (openPair_outcome ex tc _ _ _ _ _ g _ _ _ Hg Hpair) as (result' & Er & Hout).
  inversion Er; subst result'; clear Er.
  pose proof (openPair_opens ex tc _ _ _ _ _ _ _ _ Hpair) as Hfr.
  destruct result as [r | error | error].
  - (* opened *)
    cbv [bind emit modify ret] in H. inversion H; subst; clear H.
    destruct Hout as (s0 & p & lc & sc & before & Hoo & Hh & Ho).
    assert (heap s2 = heap s ++ [p]) as Hheap
      by (rewrite (oa_heap _ _ _ _ _ _ _ _ _ _ _ _ Ho); congruence).
    assert (r = length (heap s)) as Hr by (rewrite (oa_ref _ _ _ _ _ _ _ _ _ _ _ _ Ho); congruence).
    split; cbn [newPositions criticalErrorOccurred activeGroups setEmitted heap].
    + now rewrite (oo_groups _ _ Hfr).
    + reflexivity.
    + apply NoDup_app. repeat split; [exact Hnd | | apply NoDup_singleton].
      intros x Hx Hx'. apply list_elem_of_In in Hx. apply list_elem_of_singleton in Hx'. subst x.
      destruct (Hopen _ Hx) as (p' & ? & ? & (Hl & _) & _).
      apply lookup_lt_Some in Hl. lia.
    + intros x Hx. apply in_app_or in Hx. destruct Hx as [Hx | [<- | []]].
      * destruct (Hopen _ Hx) as (p' & lc' & sc' & Hcl & Hsz).
        exists p', lc', sc'. rewrite Hheap. split; [now apply closable_app | exact Hsz].
      * exists p, lc, sc. split; [| apply Ho]. split; [| split; [| split]].
        -- rewrite Hheap, Hr. now apply list_lookup_middle.
        -- apply Ho.
        -- rewrite (oa_longAccount _ _ _ _ _ _ _ _ _ _ _ _ Ho). apply Ho.
        -- rewrite (oa_shortAccount _ _ _ _ _ _ _ _ _ _ _ _ Ho). apply Ho.
  - (* insufficient margin, not the last pair *)
    cbn beta iota in Hout.
    unfold bind at 1 in H. unfold emit at 1, modify at 1 in H.
    unfold bind at 1 in H. unfold getGroup at 1 in H.
    cbn [activeGroups setEmitted] in H. rewrite (oo_groups _ _ Hfr), Hg in H.
    destruct (_ =? _)%nat.
    { cbv [bind modifyGroup modify emit ret] in H. inversion H. }
    inversion H; subst; clear H.
    split; cbn [newPositions criticalErrorOccurred activeGroups setEmitted heap].
    + now rewrite (oo_groups _ _ Hfr).
    + reflexivity.
    + exact Hnd.
    + intros x Hx. rewrite Hout. now apply Hopen.
  - (* critical: the loop is left *)
    repeat (apply bind_inv in H;
            destruct H as [(? & ? & _ & H) | (? & _ & ?)]; [| discriminate]).
    inversion H.
Qed.

Lemma reaches_keeps_inv g l st s l' st' s' :
  Reaches (openBody ex tc gid symbol size config) l st s l' st' s' ->
  OpenInv gid g size st s -> OpenInv gid g size st' s'.
Proof.
  induction 1 as [| x l st s st1 s1 l' st' s' Hbody _ IH]; [auto |].
  intros Hinv. apply IH. eapply openBody_keeps_inv; eauto.
Qed.

(** Before a critical error the loop changes neither the ledger nor the
    PnL records. *)
Lemma openBody_keeps_ledger g pair st s st1 s1 :
  OpenInv gid g size st s ->
  openBody ex tc gid symbol size config pair st s = (Return (st1, false), s1) ->
  groupPositions s1 = groupPositions s.
Proof.
  intros [Hg Hc Hnd Hopen] H. unfold openBody in H. rewrite Hc in H.
  apply bind_inv in H. destruct H as [(result & s2 & Hpair & H) | (e & _ & He)];
    [| discriminate].
  pose proof (openPair_opens ex tc _ _ _ _ _ _ _ _ Hpair) as Hfr.
  destruct result as [r | error | error].
  - cbv [bind emit modify ret] in H. inversion H; subst; clear H. apply Hfr.
  - unfold bind at 1 in H. unfold emit at 1, modify at 1 in H.
    unfold bind at 1 in H. unfold getGroup at 1 in H.
    cbn [activeGroups setEmitted] in H. rewrite (oo_groups _ _ Hfr), Hg in H.
    destruct (_ =? _)%nat.
    { cbv [bind modifyGroup modify emit ret] in H. inversion H. }
    inversion H; subst; clear H. apply Hfr.
  - repeat (apply bind_inv in H;
            destruct H as [(? & ? & _ & H) | (? & _ & ?)]; [| discriminate]).
    inversion H.
Qed.

Lemma reaches_keeps_ledger g l st s l' st' s' :
  Reaches (openBody ex tc gid symbol size config) l st s l' st' s' ->
  OpenInv gid g size st s -> groupPositions s' = groupPositions s.
Proof.
  induction 1 as [| x l st s st1 s1 l' st' s' Hbody _ IH]; [auto |].
  intros Hinv. rewrite IH by (eapply openBody_keeps_inv; eauto).
  eapply openBody_keeps_ledger; eauto.
Qed.

End CriticalPath.

(** ** The emergency unwind *)

Section Unwind.

Context (ex : Exchange) (gid : string) (g : GroupData).

Lemma emergencyClose_spec r s p lc sc :
  activeGroups s !! gid = Some g ->
  Closable g (heap s) r p lc sc ->
  exists s',
    emergencyClose ex gid r s = (Return tt, s')
    /\ UnwindsOnly s s'
    /\ (forall r', r' <> r -> heap s' !! r' = heap s !! r')
    /\ Unwound ex g s s' r.
Proof.
  intros Hg (Hl & Hst & Hlc & Hsc).
  unfold emergencyClose, tryCatch. unfold bind at 1. unfold deref at 1. rewrite Hl.
  unfold bind at 1. unfold getGroup at 1. rewrite Hg, Hlc, Hsc.
  cbv beta iota zeta delta [bind placeOrder send sent update modify throw ret].
  simpl_state.
  destruct (orderReply ex (length (requests s))) as [e1 | c1] eqn:E1;
    cbv beta iota zeta; simpl_state;
    [| destruct (orderReply ex
                   (length (requests s ++
                            [PlaceOrder lc (symbol p) SELL "MARKET" (closeParams p)])))
         as [e2 | c2] eqn:E2;
       cbv beta iota zeta; simpl_state];
    eexists; (split; [reflexivity |]); simpl_state.
  - split; [| split].
    + split; simpl_state; try reflexivity.
      eexists. split; [reflexivity |]. repeat constructor.
    + reflexivity.
    + exists p, lc, sc, (length (requests s)). repeat split; try assumption.
      * lia.
      * now apply list_lookup_middle.
      * right. split; [exact Hl |]. left. eauto.
  - split; [| split].
    + split; simpl_state; try reflexivity.
      eexists. split; [symmetry; apply app_assoc |]. repeat constructor.
    + reflexivity.
    + exists p, lc, sc, (length (requests s)). repeat split; try assumption.
      * lia.
      * rewrite <- app_assoc. now apply list_lookup_middle.
      * right. split; [exact Hl |]. right. exists e2. split.
        -- apply list_lookup_middle. rewrite length_app. simpl. lia.
        -- rewrite length_app in E2. simpl in E2. now rewrite Nat.add_1_r in E2.
  - split; [| split].
    + split; simpl_state; try reflexivity.
      * apply length_alter.
      * eexists. split; [symmetry; apply app_assoc |]. repeat constructor.
    + intros r' Hne. now apply list_lookup_alter_ne.
    + exists p, lc, sc, (length (requests s)). repeat split; try assumption.
      * lia.
      * rewrite <- app_assoc. now apply list_lookup_middle.
      * left. exists c1, c2. repeat split.
        -- exact E1.
        -- apply list_lookup_middle. rewrite length_app. simpl. lia.
        -- rewrite length_app in E2. simpl in E2. now rewrite Nat.add_1_r in E2.
        -- simpl_state. now rewrite list_lookup_alter_eq, Hl.
Qed.

Lemma unwound_later s0 s1 s2 r :
  Unwound ex g s0 s1 r ->
  heap s2 !! r = heap s1 !! r ->
  (exists l, requests s2 = requests s1 ++ l) ->
  Unwound ex g s0 s2 r.
Proof.
  intros (p & lc & sc & n & Hcl & Hn & Hreq & Hcase) Hheap [l Hl].
  exists p, lc, sc, n. repeat split; try apply Hcl; try assumption.
  - rewrite Hl. now apply lookup_app_l_Some.
  - rewrite Hheap, Hl.
    destruct Hcase as [(c1 & c2 & ? & ? & ? & ?) | (? & [? | (e & ? & ?)])].
    + left. exists c1, c2. repeat split; try assumption. now apply lookup_app_l_Some.
    + right. split; [assumption |]. now left.
    + right. split; [assumption |]. right. exists e. split; [| assumption].
      now apply lookup_app_l_Some.
Qed.

Lemma unwound_earlier s0 s1 s2 r :
  Unwound ex g s1 s2 r ->
  heap s1 !! r = heap s0 !! r ->
  (length (requests s0) <= length (requests s1))%nat ->
  Unwound ex g s0 s2 r.
Proof.
  intros (p & lc & sc & n & (Hl & Hrest) & Hn & Hreq & Hcase) Hheap Hlen.
  exists p, lc, sc, n. repeat split; try apply Hrest; try assumption.
  - now rewrite <- Hheap.
  - lia.
Qed.

Lemma closePartial_spec :
  forall refs s,
    activeGroups s !! gid = Some g ->
    NoDup refs ->
    (forall r, In r refs -> exists p lc sc, Closable g (heap s) r p lc sc) ->
    exists s',
      closePartialGroupPositions ex gid refs s = (Return tt, s')
      /\ UnwindsOnly s s'
      /\ (forall r', ~ In r' refs -> heap s' !! r' = heap s !! r')
      /\ (forall r, In r refs -> Unwound ex g s s' r).
Proof.
  unfold closePartialGroupPositions.
  induction refs as [| r refs IH]; intros s Hg Hnd Hall.
  - exists s. repeat split; try reflexivity; try (intros ? []).
    exists []. split; [now rewrite app_nil_r | constructor].
  - apply NoDup_cons in Hnd. destruct Hnd as [Hnotin Hnd].
    rewrite list_elem_of_In in Hnotin.
    destruct (Hall r (or_introl eq_refl)) as (p & lc & sc & Hcl).
    destruct (emergencyClose_spec r s p lc sc Hg Hcl) as (s1 & Hrun & Hf1 & Hh1 & Hu1).
    destruct (IH s1) as (s2 & Hrun2 & Hf2 & Hh2 & Hu2).
    { now rewrite (uo_groups _ _ Hf1). }
    { exact Hnd. }
    { intros r' Hin. destruct (Hall r' (or_intror Hin)) as (p' & lc' & sc' & Hl' & Hrest).
      exists p', lc', sc'. split; [| exact Hrest].
      rewrite Hh1; [exact Hl' |]. intros ->. contradiction. }
    exists s2. cbn [forEach]. rewrite (bind_return _ _ _ _ _ Hrun).
    split; [exact Hrun2 |].
    destruct (uo_requests _ _ Hf1) as (l1 & El1 & Fl1).
    destruct (uo_requests _ _ Hf2) as (l2 & El2 & Fl2).
    split; [| split].
    + split.
      * now rewrite (uo_groups _ _ Hf2), (uo_groups _ _ Hf1).
      * now rewrite (uo_positions _ _ Hf2), (uo_positions _ _ Hf1).
      * now rewrite (uo_emitted _ _ Hf2), (uo_emitted _ _ Hf1).
      * now rewrite (uo_length _ _ Hf2), (uo_length _ _ Hf1).
      * exists (l1 ++ l2). split; [now rewrite El2, El1, app_assoc |].
        now apply Forall_app.
    + intros r' Hnin. rewrite Hh2 by (intros Hin; apply Hnin; now right).
      apply Hh1. intros ->. apply Hnin. now left.
    + intros r' [<- | Hin].
      * eapply unwound_later; [exact Hu1 | now apply Hh2 | eauto].
      * eapply unwound_earlier; [now apply Hu2 | |].
        -- apply Hh1. intros ->. contradiction.
        -- rewrite El1, length_app. lia.
Qed.

End Unwind.

(** ** The positions a call of [openGroupPositions] creates *)

Lemma created_none s s' : length (heap s') = length (heap s) -> created s s' = [].
Proof. intros H. unfold created. rewrite H, Nat.sub_diag. reflexivity. Qed.

Lemma created_app s s1 s2 :
  (length (heap s) <= length (heap s1))%nat ->
  (length (heap s1) <= length (heap s2))%nat ->
  created s s1 ++ created s1 s2 = created s s2.
Proof.
  intros H1 H2. unfold created.
  replace (length (heap s2) - length (heap s))%nat
    with ((length (heap s1) - length (heap s)) + (length (heap s2) - length (heap s1)))%nat
    by lia.
  rewrite seq_app. do 2 f_equal. lia.
Qed.

Lemma created_heap s s' t t' :
  heap t = heap s -> heap t' = heap s' -> created t t' = created s s'.
Proof. intros H1 H2. unfold created. now rewrite H1, H2. Qed.

Section Created.

Context (ex : Exchange) (tc : TradingConfig) (gid symbol : string)
  (size : Js.number) (config : Config) (g : GroupData).

(** A position object is created exactly when a pair opens. *)
Lemma openPair_creates pair s result s' :
  activeGroups s !! gid = Some g ->
  openPairPositionWithRetry ex tc pair symbol size gid config s = (Return result, s') ->
  created s s' = match result with Opened r => [r] | _ => [] end.
Proof.
  intros Hg Hpair.
  destruct (openPair_outcome ex tc _ _ _ _ _ g _ _ _ Hg Hpair) as (result' & Er & Hout).
  inversion Er; subst result'; clear Er.
  destruct result as [r | error | error]; cbn beta iota in Hout.
  - destruct Hout as (s0 & p & lc & sc & before & Hoo & Hh & Ho).
    unfold created.
    rewrite (oa_heap _ _ _ _ _ _ _ _ _ _ _ _ Ho), (oa_ref _ _ _ _ _ _ _ _ _ _ _ _ Ho), Hh.
    rewrite length_app. cbn [length].
    replace (length (heap s) + 1 - length (heap s))%nat with 1%nat by lia. reflexivity.
  - apply created_none. now rewrite Hout.
  - apply created_none. now rewrite Hout.
Qed.

(** The loop variable [newPositions] gains exactly the objects that the
    pass creates. *)
Lemma openBody_creates pair st s st1 b s1 :
  OpenInv gid g size st s ->
  openBody ex tc gid symbol size config pair st s = (Return (st1, b), s1) ->
  (length (heap s) <= length (heap s1))%nat
  /\ newPositions st1 = newPositions st ++ created s s1.
Proof.
  intros [Hg Hc Hnd Hopen] H. unfold openBody in H. rewrite Hc in H.
  apply bind_inv in H. destruct H as [(result & s2 & Hpair & H) | (e & _ & He)];
    [| discriminate].
  destruct (openPair_outcome ex tc _ _ _ _ _ g _ _ _ Hg Hpair) as (result' & Er & Hout).
  inversion Er; subst result'; clear Er.
  pose proof (openPair_opens ex tc _ _ _ _ _ _ _ _ Hpair) as Hfr.
  destruct result as [r | error | error].
  - cbv [bind emit modify ret] in H. inversion H; subst; clear H.
    destruct Hout as (s0 & p & lc & sc & before & Hoo & Hh & Ho).
    assert (heap s2 = heap s ++ [p]) as Hheap
      by (rewrite (oa_heap _ _ _ _ _ _ _ _ _ _ _ _ Ho); congruence).
    assert (r = length (heap s)) as Hr
      by (rewrite (oa_ref _ _ _ _ _ _ _ _ _ _ _ _ Ho); congruence).
    cbn [newPositions]. unfold created. simpl_state.
    rewrite Hheap, length_app. cbn [length]. split; [lia |].
    replace (length (heap s) + 1 - length (heap s))%nat with 1%nat by lia.
    cbn [seq]. now rewrite Hr.
  - cbn beta iota in Hout.
    unfold bind at 1 in H. unfold emit at 1, modify at 1 in H.
    unfold bind at 1 in H. unfold getGroup at 1 in H.
    cbn [activeGroups setEmitted] in H. rewrite (oo_groups _ _ Hfr), Hg in H.
    destruct (_ =? _)%nat;
      cbv [bind modifyGroup modify emit ret] in H; inversion H; subst; clear H;
      cbn [newPositions]; rewrite created_none by (simpl_state; now rewrite Hout);
      simpl_state; rewrite Hout, app_nil_r; auto.
  - cbn beta iota in Hout.
    unfold bind at 1 in H. unfold dateNow at 1, gets at 1 in H.
    unfold bind at 1 in H. unfold modifyGroup at 1, modify at 1 in H.
    unfold bind at 1 in H. unfold emit at 1, modify at 1 in H. simpl_state.
    apply bind_inv in H. destruct H as [([] & s5 & Hclose & H) | (e & _ & He)];
      [| discriminate].
    inversion H; subst; clear H. cbn [newPositions].
    assert (length (heap s1) = length (heap s)) as Hlen.
    { destruct (0 <? length (newPositions st))%nat.
      - match type of Hclose with
        | closePartialGroupPositions _ _ _ ?s4 = _ =>
            destruct (closePartial_spec ex gid
                        (setFlags false true (Some (clock s2 + 10 * 60 * 1000)) g)
                        (newPositions st) s4) as (s' & Hrun & Hf & _ & _)
        end.
        + simpl_state. now rewrite lookup_alter_eq, (oo_groups _ _ Hfr), Hg.
        + exact Hnd.
        + intros r' Hin'.
          destruct (Hopen r' Hin') as (p' & lc' & sc' & (Hl' & Hrest') & _).
          exists p', lc', sc'. split; [| exact Hrest']. simpl_state. now rewrite Hout.
        + rewrite Hrun in Hclose. inversion Hclose; subst s'; clear Hclose.
          rewrite (uo_length _ _ Hf). simpl_state. now rewrite Hout.
      - inversion Hclose; subst; clear Hclose. simpl_state. now rewrite Hout. }
    rewrite (created_none _ _ Hlen), app_nil_r. split; [lia | reflexivity].
Qed.

Lemma reaches_creates l st s l' st' s' :
  Reaches (openBody ex tc gid symbol size config) l st s l' st' s' ->
  OpenInv gid g size st s ->
  (length (heap s) <= length (heap s'))%nat
  /\ newPositions st' = newPositions st ++ created s s'.
Proof.
  induction 1 as [l st s | x l st s st1 s1 l' st' s' Hbody _ IH]; intros Hinv.
  - rewrite created_none by reflexivity. now rewrite app_nil_r.
  - destruct (openBody_creates _ _ _ _ _ _ Hinv Hbody) as [L1 N1].
    destruct (IH (openBody_keeps_inv ex tc gid symbol size config g _ _ _ _ _ Hinv Hbody))
      as [L2 N2].
    split; [lia |]. rewrite N2, N1, <- app_assoc. now rewrite created_app.
Qed.


End Created.

Lemma generateRandomPositionSize_frame ex tc s size s1 :
  generateRandomPositionSize ex tc s = (Return size, s1) ->
  s1 = setDraws (S (draws s)) s.
Proof.
  unfold generateRandomPositionSize. destruct (default _ _) as [mn mx].
  intros H. now inversion H.
Qed.

(** C1. When a pair's open attempt uses up its three passes on errors that
    are not margin errors, [openGroupPositions] opens no further pair,
    quarantines the group until ten minutes after the failure, and sends
    the emergency close of every position opened earlier in the cycle.
    A position object is created exactly when a pair opens, and the list
    the loop keeps holds exactly the objects created since the call began:
    each of them ends emergency-closed when both its close orders are
    accepted and stays open only when one of them is refused. *)
Theorem critical_error_quarantines_and_unwinds :
  forall ex tc gid symbol config s g size s1 pair rest st2 s2 error s3,
    activeGroups s !! gid = Some g ->
    generateRandomPositionSize ex tc s = (Return size, s1) ->
    Reaches (openBody ex tc gid symbol size config) (pairs g) openLoopStart s1
      (pair :: rest) st2 s2 ->
    Exhausts ex tc pair symbol size gid config s2 error s3 ->
    exists s',
      openGroupPositions ex tc gid symbol config s
        = (Return (length (created s s3)), s')
      /\ newPositions st2 = created s s3
      /\ (forall pair0 sa result sb,
            activeGroups sa !! gid = Some g ->
            openPairPositionWithRetry ex tc pair0 symbol size gid config sa
              = (Return result, sb) ->
            created sa sb = match result with Opened r => [r] | _ => [] end)
      /\ activeGroups s' !! gid
         = Some (setFlags false true (Some (clock s3 + 10 * 60 * 1000)) g)
      /\ emitted s'
         = emitted s3 ++
           [criticalGroupError gid (pairId pair) (Some error)
              (clock s3 + 10 * 60 * 1000)]
      /\ (exists closes,
            requests s' = requests s3 ++ closes
            /\ Forall (fun c => isReduceOnlyOrder c = true) closes)
      /\ groupPositions s' = groupPositions s
      /\ length (heap s') = length (heap s3)
      /\ (forall r, In r (created s s3) -> Unwound ex g s3 s' r).
Proof.
  intros ex tc gid symbol config s g size s1 pair rest st2 s2 error s3
    Hg Hsize Hreach Hex.
  pose proof (generateRandomPositionSize_frame _ _ _ _ _ Hsize) as Es1.
  assert (OpenInv gid g size openLoopStart s1) as Hstart.
  { split.
    - now subst s1.
    - reflexivity.
    - apply NoDup_nil_2.
    - intros r []. }
  pose proof (reaches_keeps_inv ex tc gid symbol size config g _ _ _ _ _ _ Hreach Hstart)
    as [Hg2 Hc2 Hnd2 Hopen2].
  pose proof (reaches_keeps_ledger ex tc gid symbol size config g _ _ _ _ _ _ Hreach Hstart)
    as Hledger.
  pose proof (reaches_creates ex tc gid symbol size config g _ _ _ _ _ _ Hreach Hstart)
    as [_ Hnew].
  pose proof (exhausts_critical ex tc gid symbol size config pair s2 error s3 Hex) as Hpair.
  pose proof (openPair_opens ex tc _ _ _ _ _ _ _ _ Hpair) as Hfr.
  destruct (openPair_outcome ex tc _ _ _ _ _ g _ _ _ Hg2 Hpair) as (result & Er & Hheap).
  inversion Er; subst result; clear Er. cbn beta iota in Hheap.
  set (until := clock s3 + 10 * 60 * 1000).
  set (g' := setFlags false true (Some until) g).
  set (s4 := setEmitted
               (emitted s3 ++ [criticalGroupError gid (pairId pair) (Some error) until])
               (setActiveGroups
                  (alter (setFlags false true (Some until)) gid (activeGroups s3)) s3)).
  assert (activeGroups s4 !! gid = Some g') as Hg4.
  { subst s4. simpl_state. now rewrite lookup_alter_eq, (oo_groups _ _ Hfr), Hg2. }
  assert (exists s',
             (if (0 <? length (newPositions st2))%nat
              then closePartialGroupPositions ex gid (newPositions st2)
              else ret tt) s4 = (Return tt, s')
             /\ UnwindsOnly s4 s'
             /\ (forall r, In r (newPositions st2) -> Unwound ex g' s4 s' r))
    as (s' & Hclose & Hf & Hun).
  { destruct (0 <? length (newPositions st2))%nat eqn:Hlen.
    - destruct (closePartial_spec ex gid g' (newPositions st2) s4 Hg4 Hnd2)
        as (s' & Hrun & Hf & _ & Hun).
      + intros r Hin. destruct (Hopen2 r Hin) as (p & lc & sc & (Hl & Hrest) & _).
        exists p, lc, sc. split; [| exact Hrest].
        subst s4. simpl_state. now rewrite Hheap.
      + exists s'. auto.
    - exists s4. split; [reflexivity |]. split.
      + split; try reflexivity. exists []. split; [now rewrite app_nil_r | constructor].
      + apply Nat.ltb_ge in Hlen. destruct (newPositions st2); [intros r [] | simpl in Hlen; lia]. }
  exists s'. unfold openGroupPositions.
  rewrite (bind_return _ _ _ _ _ Hsize).
  unfold bind at 1. unfold getGroup at 1.
  assert (activeGroups s1 !! gid = Some g) as -> by now subst s1.
  cbn beta iota zeta.
  assert (openBody ex tc gid symbol size config pair st2 s2
          = (Return ({| newPositions := newPositions st2;
                        insufficientMarginCount := insufficientMarginCount st2;
                        criticalErrorOccurred := true |}, true), s')) as Hbody.
  { unfold openBody. rewrite Hc2. rewrite (bind_return _ _ _ _ _ Hpair).
    unfold bind at 1. unfold dateNow at 1, gets at 1.
    unfold bind at 1. unfold modifyGroup at 1, modify at 1.
    unfold bind at 1. unfold emit at 1, modify at 1.
    fold until. simpl_state. fold s4.
    now rewrite (bind_return _ _ _ _ _ Hclose). }
  assert (forOf (openBody ex tc gid symbol size config) (pairs g) openLoopStart s1
          = (Return {| newPositions := newPositions st2;
                       insufficientMarginCount := insufficientMarginCount st2;
                       criticalErrorOccurred := true |}, s')) as Hloop.
  { rewrite (forOf_reaches _ _ _ _ _ _ _ Hreach). cbn [forOf].
    now rewrite (bind_return _ _ _ _ _ Hbody). }
  rewrite (bind_return _ _ _ _ _ Hloop). cbn [criticalErrorOccurred newPositions].
  assert (newPositions st2 = created s s3) as Enew.
  { rewrite Hnew. cbn [newPositions openLoopStart app].
    apply created_heap; [now subst s1 | symmetry; exact Hheap]. }
  split; [now rewrite Enew |].
  destruct (uo_requests _ _ Hf) as (closes & Ecl & Fcl).
  split; [exact Enew |].
  split; [intros pair0 sa result sb; apply openPair_creates |].
  split; [now rewrite (uo_groups _ _ Hf) |].
  split; [now rewrite (uo_emitted _ _ Hf) |].
  split; [exists closes; split; [exact Ecl | exact Fcl] |].
  split.
  { rewrite (uo_positions _ _ Hf). subst s4. simpl_state.
    rewrite (oo_positions _ _ Hfr), Hledger. now subst s1. }
  split; [now rewrite (uo_length _ _ Hf) |].
  intros r Hin. rewrite <- Enew in Hin. exact (Hun r Hin).
Qed.

(** ** Quantities and the sampled size *)

Section Quantities.

Context (ex : Exchange) (tc : TradingConfig).




End Quantities.

Section SameSize.

Context (ex : Exchange) (tc : TradingConfig) (gid symbol : string)
  (size : Js.number) (config : Config) (g : GroupData).




End SameSize.


(** ** [closeAllPositions] *)

Section Flatten.

Context (ex : Exchange).


Lemma closeOpenPositions_spec api account :
  forall l result s,
    exists result' s',
      forEach (closeOpenPosition ex api account) l result s = (Return result', s')
      /\ requests s' = requests s ++ map (closingOrder api) l
      /\ closedCount result'
         = (closedCount result + accepted ex (length (requests s)) (length l))%nat
      /\ (length (errors result') + closedCount result'
          = length (errors result) + closedCount result + length l)%nat.
Proof.
  induction l as [| position l IH]; intros result s.
  - exists result, s. cbn. rewrite app_nil_r. repeat split; lia.
  - cbn [forEach]. unfold bind at 1.
    unfold closeOpenPosition at 1, tryCatch.
    cbv beta iota zeta delta [bind placeOrder send sent sleep modify elapse throw ret].
    simpl_state.
    destruct (orderReply ex (length (requests s))) as [e | c] eqn:E;
      cbv beta iota zeta; simpl_state.
    + match goal with
      | |- context [forEach _ l ?r ?s1] =>
          destruct (IH r s1) as (r' & s' & Hrun & Hreq & Hcnt & Hsum)
      end.
      exists r', s'. split; [exact Hrun |]. simpl_state.
      rewrite length_app in Hcnt. cbn [length map accepted] in *.
      rewrite E. rewrite Nat.add_1_r in Hcnt.
      split; [| split].
      * rewrite Hreq, <- app_assoc. reflexivity.
      * rewrite Hcnt. cbn [addError closedCount]. lia.
      * rewrite Hsum. cbn [addError closedCount errors]. rewrite length_app. cbn [length]. lia.
    + match goal with
      | |- context [forEach _ l ?r ?s1] =>
          destruct (IH r s1) as (r' & s' & Hrun & Hreq & Hcnt & Hsum)
      end.
      exists r', s'. split; [exact Hrun |]. simpl_state.
      rewrite length_app in Hcnt. cbn [length map accepted] in *.
      rewrite E. rewrite Nat.add_1_r in Hcnt.
      split; [| split].
      * rewrite Hreq, <- app_assoc. reflexivity.
      * rewrite Hcnt. cbn [addClosed closedCount]. lia.
      * rewrite Hsum. cbn [addClosed closedCount errors]. lia.
Qed.

Lemma closeAccount_spec account result s :
  exists result' s',
    closeAccount ex account result s = (Return result', s')
    /\ AccountOutcome ex account result s result' s'.
Proof.
  unfold closeAccount, AccountOutcome, tryCatch. unfold bind at 1.
  destruct (String.eqb (apiKey account) (secretKey account)).
  { cbv [bind ret snd fst]. eexists _, _. split; [reflexivity |].
    cbn [addError closedCount errors]. rewrite length_app. cbn [length].
    repeat split; lia. }
  fold (apiOf account).
  unfold bind at 1. unfold getPositions at 1. unfold bind at 1. unfold send at 1.
  destruct (positionsReply ex (length (requests s))) as [e | positions] eqn:E.
  { cbv [throw bind ret snd fst sleep modify elapse]. eexists _, _. split; [reflexivity |].
    simpl_state. cbn [addError closedCount errors success]. rewrite length_app. cbn [length].
    repeat split; lia. }
  unfold ret at 1.
  destruct (length positions =? 0)%nat eqn:Hlen.
  { apply Nat.eqb_eq in Hlen. destruct positions; [| discriminate].
    cbv [bind ret snd fst]. eexists _, _. split; [reflexivity |].
    simpl_state. cbn [List.filter map length accepted]. repeat split; lia. }
  destruct (length (List.filter aboveDust positions) =? 0)%nat eqn:Hkept.
  { apply Nat.eqb_eq in Hkept. destruct (List.filter aboveDust positions); [| discriminate].
    cbv [bind ret snd fst]. eexists _, _. split; [reflexivity |].
    simpl_state. cbn [map length accepted]. repeat split; lia. }
  destruct (closeOpenPositions_spec (apiOf account) account
              (List.filter aboveDust positions) result
              (sent ex (GetPositions (apiOf account)) s))
    as (r' & s1 & Hrun & Hreq & Hcnt & Hsum).
  rewrite (bind_return _ _ _ _ _ Hrun).
  cbv [bind ret snd fst sleep modify elapse]. eexists _, _. split; [reflexivity |].
  simpl_state.
  rewrite length_app in Hcnt. cbn [length] in Hcnt. rewrite Nat.add_1_r in Hcnt.
  split; [| split].
  - rewrite Hreq, <- app_assoc. reflexivity.
  - exact Hcnt.
  - exact Hsum.
Qed.

Lemma queried_app l1 l2 : queried (l1 ++ l2) = queried l1 ++ queried l2.
Proof. apply omap_app. Qed.

Lemma queried_orders api l : queried (map (closingOrder api) l) = [].
Proof. induction l; [reflexivity | exact IHl]. Qed.

Lemma closeAccounts_spec :
  forall accts result s,
    exists result' s',
      forEach (closeAccount ex) accts result s = (Return result', s')
      /\ queried (requests s')
         = queried (requests s) ++ map apiOf (List.filter usable accts).
Proof.
  induction accts as [| account accts IH]; intros result s.
  - exists result, s. split; [reflexivity |]. cbn. now rewrite app_nil_r.
  - destruct (closeAccount_spec account result s) as (r1 & s1 & Hrun & Hout).
    destruct (IH r1 s1) as (r2 & s2 & Hrun2 & Hq).
    exists r2, s2. cbn [forEach]. rewrite (bind_return _ _ _ _ _ Hrun).
    split; [exact Hrun2 |]. rewrite Hq. cbn [List.filter]. unfold usable at 2.
    unfold AccountOutcome in Hout.
    destruct (String.eqb (apiKey account) (secretKey account)); cbn [negb].
    + destruct Hout as (-> & _). reflexivity.
    + destruct (positionsReply ex (length (requests s))).
      * destruct Hout as (-> & _). rewrite queried_app. cbn. now rewrite <- app_assoc.
      * cbv zeta in Hout. destruct Hout as (-> & _).
        rewrite queried_app.
        change (queried (GetPositions (apiOf account)
                           :: map (closingOrder (apiOf account)) (List.filter aboveDust l)))
          with (apiOf account
                  :: queried (map (closingOrder (apiOf account)) (List.filter aboveDust l))).
        rewrite queried_orders. cbn. now rewrite <- app_assoc.
Qed.

End Flatten.




(** ** The theorems on concrete runs *)

Import Scenario.

(** C4 on the code: two cycles of a one-pair group, the long leg closing
    at 110 after opening at 100 in each. Each cycle opens and closes one
    position with a PnL of 10, yet the record of the second cycle counts 2
    positions and a PnL of 20, and the running total is 30. *)
Theorem second_cycle_record_counts_first_cycle_again :
  exists record,
    groupPnL (after risingLong onePair 2) !! "group_1" = Some record
    /\ map cycle (trades record) = [1; 2]
    /\ map positions (trades record) = [1; 2]%nat
    /\ Forall2 Js.same (map pnl (trades record)) [Num 10; Num 20]
    /\ totalPnL record =n= Num 30
    /\ map timestamp (trades record) = [1810000; 3625000]
    /\ map closeTime (heap (after risingLong onePair 2))
       = [Some 1810000; Some 3625000]
    /\ Forall2 Js.same (map pairPnL (heap (after risingLong onePair 2)))
         [Num 10; Num 10].
Proof.
  eexists. split; [vm_compute; reflexivity |].
  split; [vm_compute; reflexivity |].
  split; [vm_compute; reflexivity |].
  split; [vm_compute; repeat constructor |].
  split; [vm_compute; reflexivity |].
  split; [vm_compute; reflexivity |].
  split; [vm_compute; reflexivity |].
  vm_compute; repeat constructor.
Qed.

(** C5 on the code: the close of the long leg times out in the first
    cycle, at ETHUSDT, and leaves the position open; the close phase of the
    second cycle, at BTCUSDT, sends the close orders of that ETHUSDT
    position for BTCUSDT and marks it closed. *)
Theorem close_phase_uses_cycle_symbol_for_leftover :
  exists leftover,
    heap (after stuckClose onePair 1) !! 0%nat = Some leftover
    /\ symbol leftover = "ETHUSDT"
    /\ status leftover = "open"
    /\ requests (after stuckClose onePair 2) !! 11%nat
       = Some (closeOrder (clientOf (account "A")) "BTCUSDT" SELL leftover)
    /\ requests (after stuckClose onePair 2) !! 12%nat
       = Some (closeOrder (clientOf (account "B")) "BTCUSDT" BUY leftover)
    /\ status <$> heap (after stuckClose onePair 2) !! 0%nat = Some "closed"
    /\ symbol <$> heap (after stuckClose onePair 2) !! 0%nat = Some "ETHUSDT".
Proof.
  eexists. split; [vm_compute; reflexivity |].
  split; [vm_compute; reflexivity |].
  split; [vm_compute; reflexivity |].
  split; [vm_compute; reflexivity |].
  split; [vm_compute; reflexivity |].
  split; vm_compute; reflexivity.
Qed.

(** C7 at size 400, price 30000, leverage 10 on BTCUSDT. *)
Lemma calculateQuantity_rounds_witness :
  exists k : Z,
    calculateQuantity fileConfig (Num 400) (Num 30000) (Some (Num 10)) "BTCUSDT"
    = Js.f64 (inject_Z k / Qpower 10 (precisionOf "BTCUSDT"))
    /\ (Qabs (inject_Z k - 400 * 10 / 30000 * Qpower 10 (precisionOf "BTCUSDT"))
        <= (1 # 2) + 400 * 10 / 30000 * Qpower 10 (precisionOf "BTCUSDT") * Js.pow2 (-50))%Q.
Proof.
  apply (proj1 calculateQuantity_rounds fileConfig 400%Q 30000%Q 10%Q
           (Some (Num 10)) "BTCUSDT").
  - reflexivity.
  - split; vm_compute; discriminate.
  - split; vm_compute; discriminate.
  - split; vm_compute; discriminate.
Defined.

(** C9 at the default range, 10000 to 30000 ms. *)
Lemma legDelay_range_witness :
  (forall r : Q, (0 <= r < 1)%Q ->
     exists d : Z,
       legDelay (Num r) (Js.ofZ 10000) (Js.ofZ 30000) = Js.ofZ d /\ 10000 <= d <= 30000)
  /\ (forall d : Z, 10000 <= d < 30000 ->
        exists c : Z, 0 <= c < 2 ^ 52
          /\ legDelay (Num (inject_Z c * Js.pow2 (-52))) (Js.ofZ 10000) (Js.ofZ 30000)
             = Js.ofZ d).
Proof. apply (proj1 legDelay_range 10000 30000); lia. Defined.




(** C2 on a group of two pairs whose orders are all refused for lack of
    margin. *)
Lemma all_pairs_margin_witness :
  exists s' error,
    openGroupPositions noMargin fileConfig "group_1" "BTCUSDT" config (started twoPairs)
      = (Return 0%nat, s')
    /\ activeGroups s' !! "group_1" = Some (setInactive (newGroupData twoPairs))
    /\ isActive (setInactive (newGroupData twoPairs)) = false
    /\ groupPositions s' !! "group_1" = Some []
    /\ List.filter (isDeactivation "group_1" marginReason) (emitted s')
       = List.filter (isDeactivation "group_1" marginReason)
           (emitted (started twoPairs))
         ++ [groupDeactivated "group_1" marginReason error].
Proof.
  refine (all_pairs_margin_suspends noMargin fileConfig "group_1" "BTCUSDT" config
            (started twoPairs) (newGroupData twoPairs) []
            (sampledSize noMargin twoPairs) (sampled noMargin twoPairs) _ _ _ _ _).
  - vm_compute; reflexivity.
  - vm_compute; reflexivity.
  - discriminate.
  - vm_compute; reflexivity.
  - intros pair rest st2 s2 Hreach.
    change (pairs (newGroupData twoPairs)) with [pair1; pair2] in Hreach.
    inversion Hreach as [| x l st s st1 s1 l' st' s' Hbody Hrest]; subst; clear Hreach.
    + eexists _, _. vm_compute. reflexivity.
    + vm_compute in Hbody. inversion Hbody; subst; clear Hbody.
      inversion Hrest as [| x l st s st1 s1 l' st' s' Hbody Hrest']; subst; clear Hrest.
      * eexists _, _. vm_compute. reflexivity.
      * vm_compute in Hbody. discriminate Hbody.
Defined.

(** C1 on a group of two pairs: the first opens, the second loses the
    price feed on its three passes. *)
Lemma critical_error_witness :
  exists s',
    openGroupPositions feedDown fileConfig "group_1" "BTCUSDT" config (started twoPairs)
      = (Return (length (created (started twoPairs) exhausted)), s')
    /\ newPositions loopAfterFirstPair = created (started twoPairs) exhausted
    /\ (forall pair0 sa result sb,
          activeGroups sa !! "group_1" = Some (newGroupData twoPairs) ->
          openPairPositionWithRetry feedDown fileConfig pair0 "BTCUSDT"
            (sampledSize feedDown twoPairs) "group_1" config sa = (Return result, sb) ->
          created sa sb = match result with Opened r => [r] | _ => [] end)
    /\ activeGroups s' !! "group_1"
       = Some (setFlags false true (Some (clock exhausted + 10 * 60 * 1000))
                 (newGroupData twoPairs))
    /\ emitted s'
       = emitted exhausted ++
         [criticalGroupError "group_1" (pairId pair2) (Some timeout)
            (clock exhausted + 10 * 60 * 1000)]
    /\ (exists closes,
          requests s' = requests exhausted ++ closes
          /\ Forall (fun c => isReduceOnlyOrder c = true) closes)
    /\ groupPositions s' = groupPositions (started twoPairs)
    /\ length (heap s') = length (heap exhausted)
    /\ (forall r, In r (created (started twoPairs) exhausted) ->
          Unwound feedDown (newGroupData twoPairs) exhausted s' r).
Proof.
  refine (critical_error_quarantines_and_unwinds feedDown fileConfig "group_1" "BTCUSDT"
            config (started twoPairs) (newGroupData twoPairs)
            (sampledSize feedDown twoPairs) (sampled feedDown twoPairs)
            pair2 [] loopAfterFirstPair (snd afterFirstPair) timeout exhausted _ _ _ _).
  - vm_compute; reflexivity.
  - vm_compute; reflexivity.
  - change (pairs (newGroupData twoPairs)) with [pair1; pair2].
    eapply reaches_next; [| apply reaches_here].
    vm_compute; reflexivity.
  - unfold Exhausts. eexists _, _, _, _.
    split; [vm_compute; reflexivity |].
    split; [vm_compute; reflexivity |].
    split; [vm_compute; reflexivity |].
    split; [vm_compute; reflexivity |].
    split; [vm_compute; reflexivity |].
    vm_compute; reflexivity.
Defined.


(** * Further properties of the engine and of the account manager *)

(** ** What is drawn at random *)

Lemma scaled_draw_between (r a b : Q) :
  (a <= b)%Q -> (0 <= r < 1)%Q -> (a <= r * (b - a) + a <= b)%Q.
Proof.
  intros Hab [H0 H1].
  assert (0 <= b - a)%Q as Hw by lra.
  pose proof (Qmult_le_0_compat _ _ H0 Hw) as Hlo.
  assert (r * (b - a) <= 1 * (b - a))%Q as Hhi.
  { apply Qmult_le_compat_r; lra. }
  split; lra.
Qed.

Lemma round_between (x : Q) (lo hi : Z) :
  (inject_Z lo <= x <= inject_Z hi)%Q -> lo <= Qfloor (x + (1 # 2)) <= hi.
Proof.
  intros [Hlo Hhi]. split.
  - apply Z.le_trans with (Qfloor (inject_Z lo)); [rewrite Qfloor_Z; lia |].
    apply Qfloor_resp_le. lra.
  - apply Z.lt_succ_r. rewrite Zlt_Qlt.
    eapply Qle_lt_trans; [apply Qfloor_le |].
    unfold Z.succ. rewrite inject_Z_plus. change (inject_Z 1) with 1%Q. lra.
Qed.

Lemma round_of_integer (x : Q) (m : Z) :
  (x == inject_Z m)%Q -> Qfloor (x + (1 # 2)) = m.
Proof.
  intros E. assert (m <= Qfloor (x + (1 # 2)) <= m) by (apply round_between; split; lra).
  lia.
Qed.

Lemma lift64_right (f : Q -> Q -> Q) (f_comp : Proper (Qeq ==> Qeq ==> Qeq) f) a x (y : Q) :
  IsDouble a x -> (Qabs y <= Js.pow2 1023)%Q ->
  Js.lift64 f a (Num y) = Js.f64 (f x (Js.nearest y)).
Proof.
  intros Ha Hy. destruct (val_double a x Ha) as (x' & Ex' & Ex).
  unfold Js.lift64. rewrite Ex'. cbn [Js.val]. rewrite (f64_finite y Hy).
  apply f64_comp. now rewrite Ex.
Qed.

Lemma round_between_slack (x : Q) (lo hi : Z) :
  (inject_Z lo - (1 # 2) <= x < inject_Z hi + (1 # 2))%Q ->
  lo <= Qfloor (x + (1 # 2)) <= hi.
Proof.
  intros [H1 H2].
  pose proof (Qfloor_le (x + (1 # 2))) as F1. pose proof (Qlt_floor (x + (1 # 2))) as F2.
  revert F1 F2. generalize (Qfloor (x + (1 # 2))). intros k F1 F2.
  assert (inject_Z lo < inject_Z (k + 1))%Q as A1 by lra.
  assert (inject_Z k < inject_Z (hi + 1))%Q as A2.
  { rewrite inject_Z_plus. change (inject_Z 1) with 1%Q. lra. }
  rewrite <- Zlt_Qlt in A1, A2. lia.
Qed.

Lemma nearest_within_abs x y :
  (Qabs x <= y)%Q -> (Js.pow2 (-1022) <= y)%Q ->
  (x - y * (1 # 9007199254740992) <= Js.nearest x <= x + y * (1 # 9007199254740992))%Q.
Proof.
  intros H1 H2. pose proof (nearest_within x y H1 H2) as H.
  change (Js.pow2 (-53)) with (1 # 9007199254740992)%Q in H.
  apply Qabs_Qle_condition in H as [Ha Hb]. split; lra.
Qed.

Lemma modest_finite x : (Qabs x <= 1152921504606846976)%Q -> (Qabs x <= Js.pow2 1023)%Q.
Proof. intros H. eapply Qle_trans; [exact H | qcompute]. Qed.

Lemma modest_normal y : (1 # 1000 <= y)%Q -> (Js.pow2 (-1022) <= y)%Q.
Proof. intros H. eapply Qle_trans; [| exact H]. qcompute. Qed.

Lemma double_100 : IsDouble (Num 100) 100.
Proof.
  split; [apply Qeq_refl |]. split; [apply (representable_Z 100); lia | qcompute].
Qed.

Lemma scale_within (t x e : Q) :
  (0 <= t <= 1)%Q -> (- e <= x <= e)%Q -> (- e <= t * x <= e)%Q.
Proof.
  intros [T0 T1] [X1 X2].
  destruct (Qlt_le_dec x 0) as [Hx | Hx].
  - assert (t * x <= 0)%Q.
    { rewrite Qmult_comm. rewrite <- (Qmult_0_l t).
      apply Qmult_le_compat_r; lra. }
    assert (1 * x <= t * x)%Q.
    { rewrite (Qmult_comm 1), (Qmult_comm t).
      assert (x * t == - ((- x) * t))%Q as -> by ring.
      assert (x * 1 == - ((- x) * 1))%Q as -> by ring.
      apply Qopp_le_compat. rewrite (Qmult_comm (- x) t), (Qmult_comm (- x) 1).
      apply Qmult_le_compat_r; lra. }
    split; lra.
  - assert (0 <= t * x)%Q by (apply Qmult_le_0_compat; lra).
    assert (t * x <= 1 * x)%Q by (apply Qmult_le_compat_r; lra).
    split; lra.
Qed.

Lemma diff_within (d w e : Q) :
  (- e <= d <= e)%Q -> (0 <= w)%Q -> (- (e * w) <= d * w <= e * w)%Q.
Proof.
  intros [D1 D2] W. split.
  - assert ((- e) * w <= d * w)%Q by (apply Qmult_le_compat_r; lra).
    assert (- (e * w) == (- e) * w)%Q as -> by ring. assumption.
  - apply Qmult_le_compat_r; lra.
Qed.

(** With bounds that are whole cents, between 0.01 and 2^48 cents, the
    sampled size is a whole number of cents within the bounds. *)
Lemma generateRandomPositionSize_cents ex tc s (a b : Q) (ka kb : Z) :
  default (Num 400, Num 600) (positionSizeRange tc) = (Num a, Num b) ->
  (a * 100 == inject_Z ka)%Q -> (b * 100 == inject_Z kb)%Q ->
  1 <= ka <= kb -> kb <= 2 ^ 48 ->
  (0 <= random ex (draws s) < 1)%Q ->
  exists k : Z,
    generateRandomPositionSize ex tc s
    = (Return (Js.f64 (inject_Z k / 100)), setDraws (S (draws s)) s)
    /\ ka <= k <= kb
    /\ (Qabs (inject_Z k - (random ex (draws s) * (b - a) + a) * 100)
        <= (1 # 2) + inject_Z kb * (1 # 562949953421312))%Q.
Proof.
  intros Hrange Ea Eb Hk Hkb [R0 R1].
  unfold generateRandomPositionSize. rewrite Hrange.
  unfold bind, mathRandom, ret. set (r := random ex (draws s)) in *.
  assert (inject_Z 1 <= inject_Z ka <= inject_Z kb)%Q as [K1 K2]
    by (rewrite <- !Zle_Qle; lia).
  assert (inject_Z kb <= inject_Z (2 ^ 48))%Q as K3 by now rewrite <- Zle_Qle.
  change (inject_Z 1) with 1%Q in K1.
  change (inject_Z (2 ^ 48)) with 281474976710656%Q in K3.
  set (qa := inject_Z ka) in *. set (qb := inject_Z kb) in *.
  (* the bounds as doubles *)
  pose proof (nearest_within_abs a a) as Ha. rewrite Qabs_pos in Ha by lra.
  specialize (Ha (Qle_refl a) (modest_normal a ltac:(lra))).
  pose proof (nearest_within_abs b b) as Hb. rewrite Qabs_pos in Hb by lra.
  specialize (Hb (Qle_refl b) (modest_normal b ltac:(lra))).
  assert (Js.nearest a <= Js.nearest b)%Q as Hab by (apply nearest_mono; lra).
  set (A := Js.nearest a) in *. set (B := Js.nearest b) in *.
  assert (IsDouble (Js.f64 a) A) as DA
    by (apply double_f64, modest_finite, Qabs_Qle_condition; split; lra).
  (* max - min *)
  unfold Js.sub64.
  rewrite (lift64_raw Qminus b a)
    by (apply modest_finite, Qabs_Qle_condition; split; lra).
  fold A B.
  pose proof (nearest_within_abs (B - A) B) as HD. rewrite Qabs_pos in HD by lra.
  specialize (HD ltac:(lra) (modest_normal B ltac:(lra))).
  pose proof (nearest_nonneg (B - A) ltac:(lra)) as D0.
  pose proof (double_f64 (B - A) ltac:(apply modest_finite, Qabs_Qle_condition; split; lra))
    as DD.
  set (Dp := Js.nearest (B - A)) in *.
  (* random * width *)
  unfold Js.mul64 at 2.
  rewrite (lift64_left Qmult _ r _ _ ltac:(apply modest_finite, Qabs_Qle_condition; split; lra) DD).
  assert (0 <= Js.nearest r <= 1)%Q as [N0 N1].
  { split; [apply nearest_nonneg; lra |].
    apply nearest_le; [| lra]. apply (representable_Z 1). lia. }
  pose proof (nearest_within_abs r 1) as HR. rewrite Qabs_pos in HR by lra.
  specialize (HR ltac:(lra) (modest_normal 1 ltac:(lra))).
  assert (0 <= Js.nearest r * Dp <= Dp)%Q as [X0 X1].
  { split; [apply Qmult_le_0_compat; lra |].
    rewrite <- (Qmult_1_l Dp) at 2. apply Qmult_le_compat_r; lra. }
  pose proof (nearest_nonneg _ X0) as M0.
  pose proof (nearest_le _ Dp (nearest_representable (B - A)) X1) as M1.
  pose proof (nearest_within_abs (Js.nearest r * Dp) (2 * b)) as M2.
  rewrite Qabs_pos in M2 by lra.
  specialize (M2 ltac:(lra) (modest_normal (2 * b) ltac:(lra))).
  pose proof (scale_within (Js.nearest r) (Dp - (b - a))
                (4 * b * (1 # 9007199254740992)) ltac:(lra) ltac:(split; lra)) as P1.
  pose proof (diff_within (Js.nearest r - r) (b - a) (1 # 9007199254740992)
                ltac:(split; lra) ltac:(lra)) as P2.
  pose proof (double_f64 (Js.nearest r * Dp)
                ltac:(apply modest_finite, Qabs_Qle_condition; split; lra)) as D1.
  set (n1 := Js.nearest (Js.nearest r * Dp)) in *.
  (* + min *)
  unfold Js.add64.
  rewrite (lift64_right Qplus _ _ _ a D1)
    by (apply modest_finite, Qabs_Qle_condition; split; lra).
  fold A.
  pose proof (nearest_ge (n1 + A) A (nearest_representable a) ltac:(lra)) as S0.
  pose proof (nearest_within_abs (n1 + A) (2 * b)) as S1. rewrite Qabs_pos in S1 by lra.
  specialize (S1 ltac:(lra) (modest_normal (2 * b) ltac:(lra))).
  pose proof (double_f64 (n1 + A) ltac:(apply modest_finite, Qabs_Qle_condition; split; lra))
    as D2.
  set (rs := Js.nearest (n1 + A)) in *.
  (* * 100 *)
  unfold Js.mul64. rewrite (lift64_double Qmult _ _ _ _ _ D2 double_100).
  pose proof (nearest_within_abs (rs * 100) (400 * b)) as Z1.
  rewrite Qabs_pos in Z1 by lra.
  specialize (Z1 ltac:(lra) (modest_normal (400 * b) ltac:(lra))).
  rewrite (f64_finite (rs * 100))
    by (apply modest_finite, Qabs_Qle_condition; split; lra).
  cbn [Js.round].
  set (x3 := Js.nearest (rs * 100)) in *.
  assert (qa - (1 # 2) <= x3 < qb + (1 # 2))%Q as Hx3 by (split; lra).
  (* Math.round, / 100 *)
  pose proof (round_nearest x3) as [Q1 Q2].
  assert (IsDouble (Num (inject_Z (Qfloor (x3 + (1 # 2))))) (inject_Z (Qfloor (x3 + (1 # 2)))))
    as Dk.
  { split; [apply Qeq_refl |]. split; [apply round_representable, nearest_representable |].
    apply modest_finite, Qabs_Qle_condition. split; lra. }
  exists (Qfloor (x3 + (1 # 2))). split; [| split].
  - f_equal. f_equal. apply div64_double; [exact Dk | exact double_100 | discriminate].
  - apply round_between_slack. exact Hx3.
  - apply Qabs_Qle_condition.
    assert (Js.nearest r * Dp
            == Js.nearest r * (Dp - (b - a)) + (Js.nearest r - r) * (b - a) + r * (b - a))%Q
      as Ex by ring.
    revert Q1 Q2 Z1 S1 M2 P1 P2 Ex Ha Hb HD HR Ea Eb K1 K2 K3.
    generalize (inject_Z (Qfloor (x3 + (1 # 2)))) (Js.nearest r * (Dp - (b - a)))%Q
      ((Js.nearest r - r) * (b - a))%Q (r * (b - a))%Q (Js.nearest r * Dp)%Q.
    intros ki t1 t2 t3 t4. intros. split; lra.
Qed.

(** X1. When the bounds of the configured position-size range (400 and 600
    when there is none) are whole cents, from one cent up to 2^48 cents,
    with min <= max, [generateRandomPositionSize] returns a whole number of
    cents, written as a double, between min and max, both included, and
    within half a cent of min + random * (max - min) up to the error of the
    binary64 roundings (at most 2^-49 of max); it uses one draw and changes
    nothing else. *)
Theorem position_size_within_range :
  forall ex tc s (a b : Q) (ka kb : Z),
    default (Num 400, Num 600) (positionSizeRange tc) = (Num a, Num b) ->
    (a * 100 == inject_Z ka)%Q -> (b * 100 == inject_Z kb)%Q ->
    1 <= ka <= kb -> kb <= 2 ^ 48 ->
    (0 <= random ex (draws s) < 1)%Q ->
    exists (size : Q) (k : Z),
      generateRandomPositionSize ex tc s
      = (Return (Num size), setDraws (S (draws s)) s)
      /\ Js.f64 (inject_Z k / 100) = Num size
      /\ ka <= k <= kb
      /\ (Js.nearest a <= size <= Js.nearest b)%Q
      /\ (Qabs (inject_Z k - (random ex (draws s) * (b - a) + a) * 100)
          <= (1 # 2) + inject_Z kb * Js.pow2 (-49))%Q.
Proof.
  intros ex tc s a b ka kb Hrange Ea Eb Hk Hkb Hr.
  destruct (generateRandomPositionSize_cents ex tc s a b ka kb Hrange Ea Eb Hk Hkb Hr)
    as (k & Hrun & Hin & Hnear).
  assert (inject_Z ka <= inject_Z k <= inject_Z kb)%Q as [K1 K2]
    by (rewrite <- !Zle_Qle; lia).
  assert (inject_Z 0 <= inject_Z ka)%Q as K0 by (rewrite <- Zle_Qle; lia).
  assert (inject_Z kb <= inject_Z (2 ^ 48))%Q as K3 by now rewrite <- Zle_Qle.
  change (inject_Z 0) with 0%Q in K0.
  change (inject_Z (2 ^ 48)) with 281474976710656%Q in K3.
  assert (exists q : Q, q = (inject_Z k / 100)%Q /\ (q * 100 == inject_Z k)%Q)
    as (q & Eq0 & Eq) by (eexists; split; [reflexivity | field]).
  rewrite <- Eq0 in Hrun.
  assert (Js.f64 q = Num (Js.nearest q)) as Ef.
  { apply f64_finite, modest_finite, Qabs_Qle_condition. split; lra. }
  exists (Js.nearest q), k. rewrite <- Eq0.
  split; [now rewrite <- Ef |]. split; [exact Ef |]. split; [exact Hin |].
  split; [split; apply nearest_mono; lra | exact Hnear].
Qed.

Lemma position_size_within_range_witness :
  exists (size : Q) (k : Z),
    generateRandomPositionSize Cases.drawn Scenario.fileConfig Scenario.idle
    = (Return (Num size), setDraws 1 Scenario.idle)
    /\ Js.f64 (inject_Z k / 100) = Num size
    /\ 40000 <= k <= 60000
    /\ (Js.nearest 400 <= size <= Js.nearest 600)%Q
    /\ (Qabs (inject_Z k - (random Cases.drawn 0 * (600 - 400) + 400) * 100)
        <= (1 # 2) + inject_Z 60000 * Js.pow2 (-49))%Q.
Proof.
  apply (position_size_within_range Cases.drawn Scenario.fileConfig Scenario.idle
           400 600 40000 60000).
  - reflexivity.
  - reflexivity.
  - reflexivity.
  - lia.
  - lia.
  - split; [discriminate | reflexivity].
Defined.

(** At the draw 112589990684 / 2^52 the scaled size is computed as
    40000.5, which [Math.round] takes up: the size is 400.01. *)
Lemma position_size_rounded_up :
  generateRandomPositionSize Cases.drawn Scenario.fileConfig Scenario.idle
  = (Return (Js.f64 (40001 # 100)), setDraws 1 Scenario.idle).
Proof. vm_compute. reflexivity. Qed.

(** X2. When the bounds of the configured close-time range (30 and 90
    when there is none) are whole minutes with min <= max,
    [generateRandomCloseTime] returns a whole number of minutes between min
    and max, both included; and every whole number of minutes in that
    range, max included, is what it returns for some draw. *)
Theorem close_time_whole_minutes_within_range :
  forall ex tc (a b : Z),
    default (Num 30, Num 90) (closeAfterMinutesRange tc) = (Js.ofZ a, Js.ofZ b) ->
    a <= b ->
    (forall s, (0 <= random ex (draws s) < 1)%Q ->
       exists m : Z,
         generateRandomCloseTime ex tc s
         = (Return (Js.ofZ m), setDraws (S (draws s)) s)
         /\ a <= m <= b)
    /\ (forall m : Z, a <= m <= b ->
          exists r : Q, (0 <= r < 1)%Q
            /\ forall ex' s, random ex' (draws s) = r ->
                 generateRandomCloseTime ex' tc s
                 = (Return (Js.ofZ m), setDraws (S (draws s)) s)).
Proof.
  intros ex tc a b Hrange Hab. split.
  - intros s Hr. eexists. split.
    + unfold generateRandomCloseTime. rewrite Hrange. reflexivity.
    + apply round_between. apply scaled_draw_between; [| exact Hr].
      now rewrite <- Zle_Qle.
  - intros m [Hm1 Hm2].
    assert (inject_Z a <= inject_Z m)%Q as Hm1' by now rewrite <- Zle_Qle.
    assert (inject_Z m <= inject_Z b)%Q as Hm2' by now rewrite <- Zle_Qle.
    assert (forall r : Q,
               Qfloor (r * (inject_Z b - inject_Z a) + inject_Z a + (1 # 2)) = m ->
               forall ex' s, random ex' (draws s) = r ->
                 generateRandomCloseTime ex' tc s
                 = (Return (Js.ofZ m), setDraws (S (draws s)) s)) as Hgives.
    { intros r Hfl ex' s Hr. unfold generateRandomCloseTime. rewrite Hrange.
      unfold bind, mathRandom, ret. rewrite Hr. unfold Js.ofZ.
      cbn [Js.sub Js.mul Js.add Js.lift2 Js.round]. now rewrite Hfl. }
    destruct (Z.eq_dec a b) as [-> | Hne].
    + exists 0%Q. split; [split; [discriminate | reflexivity] |].
      apply Hgives. assert (m = b) as -> by lia. apply round_of_integer. ring.
    + assert (a < b) as Hlt by lia.
      assert (0 < inject_Z b - inject_Z a)%Q as Hw.
      { rewrite Zlt_Qlt in Hlt. lra. }
      destruct (Z.eq_dec m b) as [-> | Hmb].
      * exists ((inject_Z b - inject_Z a - (1 # 2)) / (inject_Z b - inject_Z a))%Q.
        assert (1 <= inject_Z b - inject_Z a)%Q as Hone.
        { assert (a + 1 <= b) as H by lia. rewrite Zle_Qle, inject_Z_plus in H.
          change (inject_Z 1) with 1%Q in H. lra. }
        split; [split |].
        -- apply Qle_shift_div_l; [exact Hw | lra].
        -- apply Qlt_shift_div_r; [exact Hw | lra].
        -- apply Hgives.
           assert ((inject_Z b - inject_Z a - (1 # 2)) / (inject_Z b - inject_Z a)
                   * (inject_Z b - inject_Z a) + inject_Z a + (1 # 2) == inject_Z b)%Q as E.
           { field. lra. }
           now rewrite (Qfloor_comp _ _ E), Qfloor_Z.
      * exists ((inject_Z m - inject_Z a) / (inject_Z b - inject_Z a))%Q.
        assert (inject_Z m < inject_Z b)%Q as Hmlt.
        { rewrite <- Zlt_Qlt. lia. }
        split; [split |].
        -- apply Qle_shift_div_l; [exact Hw | lra].
        -- apply Qlt_shift_div_r; [exact Hw | lra].
        -- apply Hgives. apply round_of_integer. field. lra.
Qed.

Lemma close_time_whole_minutes_within_range_witness :
  (forall s, (0 <= random Scenario.calm (draws s) < 1)%Q ->
     exists m : Z,
       generateRandomCloseTime Scenario.calm Scenario.fileConfig s
       = (Return (Js.ofZ m), setDraws (S (draws s)) s)
       /\ 30 <= m <= 90)
  /\ (forall m : Z, 30 <= m <= 90 ->
        exists r : Q, (0 <= r < 1)%Q
          /\ forall ex' s, random ex' (draws s) = r ->
               generateRandomCloseTime ex' Scenario.fileConfig s
               = (Return (Js.ofZ m), setDraws (S (draws s)) s)).
Proof.
  apply (close_time_whole_minutes_within_range Scenario.calm Scenario.fileConfig 30 90).
  - reflexivity.
  - lia.
Defined.



(** ** How a rejection is classified *)

Lemma prefix_iff (a b : string) :
  String.prefix a b = true <-> exists post, b = a +:+ post.
Proof.
  revert b. induction a as [| c a IH]; intros b.
  - split; [intros _; now exists b | intros _; now destruct b].
  - destruct b as [| d b]; simpl; [split; [discriminate | intros [? ?]; discriminate] |].
    destruct (ascii_dec c d) as [-> | Hne].
    + rewrite IH. split; intros [post E]; exists post; [now subst | now inversion E].
    + split; [discriminate | intros [post E]; inversion E; congruence].
Qed.

Lemma includes_iff (needle hay : string) :
  Js.includes needle hay = true <-> exists pre post, hay = pre +:+ needle +:+ post.
Proof.
  split.
  - induction hay as [| c hay IH]; cbn [Js.includes]; rewrite orb_true_iff; intros [H | H].
    + apply prefix_iff in H as [post ->]. now exists "", post.
    + discriminate.
    + apply prefix_iff in H as [post ->]. now exists "", post.
    + destruct (IH H) as (pre & post & ->). now exists (String c pre), post.
  - intros (pre & post & ->). induction pre as [| c pre IH].
    + change ("" +:+ needle +:+ post) with (needle +:+ post).
      assert (String.prefix needle (needle +:+ post) = true) as Hp.
      { apply prefix_iff. now exists post. }
      destruct (needle +:+ post); cbn [Js.includes]; now rewrite Hp.
    + change (String c pre +:+ needle +:+ post) with (String c (pre +:+ needle +:+ post)).
      cbn [Js.includes]. rewrite IH. apply orb_true_r.
Qed.

(** X4. [isInsufficientMarginError] holds exactly when the message, in
    lower case, contains one of the three phrases (an empty message never
    does); for the error that [makeRequest] throws on a rejected request
    the answer depends on the reason the exchange gave alone, not on the
    prefix put before it; and a rejection without a reason is not a margin
    error. *)
Theorem margin_error_iff_phrase :
  (forall error,
     isInsufficientMarginError error = true
     <-> exists phrase pre post,
           In phrase marginPhrases
           /\ Js.toLowerCase (message error) = pre +:+ phrase +:+ post)
  /\ (forall msg alt,
        isInsufficientMarginError (apiError msg alt)
        = isInsufficientMarginError {| message := rejectionReason msg alt |})
  /\ isInsufficientMarginError (apiError None None) = false.
Proof.
  split; [| split].
  - intros [m]. unfold isInsufficientMarginError. cbn [message].
    destruct m as [| c m].
    + simpl. split; [discriminate |].
      intros (phrase & pre & post & Hin & E).
      destruct pre; [| discriminate].
      simpl in Hin. destruct Hin as [<- | [<- | [<- | []]]]; discriminate.
    + cbn [String.eqb negb]. rewrite !orb_true_iff, !includes_iff. unfold marginPhrases. split.
      * intros [[(pre & post & E) | (pre & post & E)] | (pre & post & E)];
          eexists _, pre, post; (split; [| exact E]); simpl; auto.
      * intros (phrase & pre & post & [<- | [<- | [<- | []]]] & E); eauto.
  - intros msg alt. unfold apiError, isInsufficientMarginError. cbn [message].
    generalize (rejectionReason msg alt). intros m.
    destruct m as [| c m]; [reflexivity |].
    cbn [String.eqb negb]. reflexivity.
  - reflexivity.
Qed.

(** ** What opening a pair sends *)

(** Case analysis on the replies of the exchange that [H] mentions. *)
Ltac split_replies H ex :=
  repeat (match type of H with
          | context [leverageReply ex ?n] => destruct (leverageReply ex n) eqn:?
          | context [priceReply ex ?n] => destruct (priceReply ex n) eqn:?
          | context [orderReply ex ?n] => destruct (orderReply ex n) eqn:?
          end; cbv beta iota zeta in H; simpl_state).

Section PairSends.

Context (ex : Exchange) (tc : TradingConfig).

Lemma openAttempt_sends pair symbol size gid config attempt s r s' :
  openAttempt ex tc pair symbol size gid config attempt s = (r, s') ->
  Sends 5 s s'.
Proof.
  intros H. unfold openAttempt in H.
  unfold bind at 1 in H. unfold getGroup at 1 in H.
  destruct (activeGroups s !! gid) as [g |];
    [| inversion H; subst; exists []; rewrite app_nil_r; repeat split; [simpl; lia | constructor]].
  destruct (find (isClientOf (long pair)) (apiClients g)) as [lc |];
    [destruct (find (isClientOf (short pair)) (apiClients g)) as [sc |] |];
    try (inversion H; subst; exists []; rewrite app_nil_r; repeat split; [simpl; lia | constructor]).
  cbv beta iota zeta delta [placeOrderWithRetry tryCatch bind setLeverage
    getSymbolPrice placeOrder send sent mathRandom sleep elapse dateNow gets modify alloc
    throw ret] in H.
  simpl_state. split_replies H ex;
    inversion H; subst; clear H; simpl_state; rewrite <- ?app_assoc; cbn [app];
    eexists; (split; [reflexivity |]); (split; [simpl; lia |]);
    repeat constructor.
Qed.

Lemma sends_trans k1 k2 s1 s2 s3 :
  Sends k1 s1 s2 -> Sends k2 s2 s3 -> Sends (k1 + k2) s1 s3.
Proof.
  intros (l1 & E1 & L1 & F1) (l2 & E2 & L2 & F2). exists (l1 ++ l2).
  split; [now rewrite E2, E1, app_assoc |].
  split; [rewrite length_app; lia | now apply Forall_app].
Qed.

Lemma openAttempts_sends pair symbol size gid config left :
  forall attempt lastError s,
    exists result s',
      openAttempts ex tc left attempt lastError pair symbol size gid config s
      = (Return result, s')
      /\ Sends (5 * left) s s'.
Proof.
  induction left as [| left IH]; intros attempt lastError s.
  - exists (CriticalError lastError), s. split; [reflexivity |].
    exists []. rewrite app_nil_r. repeat split; [simpl; lia | constructor].
  - cbn [openAttempts]. unfold tryCatch. unfold bind at 1.
    destruct (openAttempt ex tc pair symbol size gid config attempt s)
      as [[ref | e] s1] eqn:Hatt;
      pose proof (openAttempt_sends _ _ _ _ _ _ _ _ _ Hatt) as (l & E & L & F).
    + eexists _, s1. split; [reflexivity |]. exists l. repeat split; [exact E | lia | exact F].
    + destruct (isInsufficientMarginError e).
      { eexists _, s1. split; [reflexivity |]. exists l. repeat split; [exact E | lia | exact F]. }
      destruct (Z.eqb attempt maxRetries).
      { eexists _, s1. split; [reflexivity |]. exists l. repeat split; [exact E | lia | exact F]. }
      unfold bind at 1. unfold sleep at 1, modify at 1.
      destruct (IH (attempt + 1) (Some e) (elapse (1000 * attempt) s1))
        as (result & s' & Hrun & Hs).
      exists result, s'. split; [exact Hrun |].
      replace (5 * S left)%nat with (5 + 5 * left)%nat by lia.
      apply sends_trans with (elapse (1000 * attempt) s1); [| exact Hs].
      exists l. repeat split; [exact E | exact L | exact F].
Qed.

End PairSends.

(** X5. [openPairPositionWithRetry] always returns a result (it never
    throws), sends at most 15 requests (three passes of at most five),
    never sends a reduce-only order, emits no event and leaves the groups,
    their position lists and their PnL entries as they are. *)
Theorem open_pair_returns_and_never_closes :
  forall ex tc pair symbol size gid config s,
    exists result s' sent,
      openPairPositionWithRetry ex tc pair symbol size gid config s = (Return result, s')
      /\ requests s' = requests s ++ sent
      /\ (length sent <= 15)%nat
      /\ Forall (fun c => isReduceOnlyOrder c = false) sent
      /\ emitted s' = emitted s
      /\ activeGroups s' = activeGroups s
      /\ groupPositions s' = groupPositions s
      /\ groupPnL s' = groupPnL s.
Proof.
  intros ex tc pair symbol size gid config s.
  destruct (openAttempts_sends ex tc pair symbol size gid config (Z.to_nat maxRetries)
              1 None s) as (result & s' & Hrun & l & E & L & F).
  pose proof (openPair_opens ex tc _ _ _ _ _ _ _ _ Hrun) as [_ G P N Ev _ _].
  exists result, s', l. split; [exact Hrun |]. split; [exact E |]. split; [exact L |].
  split; [exact F |]. auto.
Qed.

Section HalfOpen.

Context (ex : Exchange) (tc : TradingConfig).

Lemma length_snoc {A} (l : list A) x : length (l ++ [x]) = S (length l).
Proof. rewrite length_app. simpl. lia. Qed.

Lemma openAttempt_half_filled pair symbol size gid config attempt g s lc sc p e :
  activeGroups s !! gid = Some g ->
  find (isClientOf (long pair)) (apiClients g) = Some lc ->
  find (isClientOf (short pair)) (apiClients g) = Some sc ->
  HalfFilled ex (length (requests s)) p e ->
  exists s',
    openAttempt ex tc pair symbol size gid config attempt s = (Throw e, s')
    /\ requests s'
       = requests s ++
         attemptCalls lc sc symbol (Js.orNum (leverage config) (Num 5))
           (calculateQuantity tc size (Js.parseFloat p) None symbol)
    /\ heap s' = heap s
    /\ activeGroups s' = activeGroups s
    /\ groupPositions s' = groupPositions s
    /\ emitted s' = emitted s.
Proof.
  intros Hg Hlc Hsc (L1 & L2 & P & (c & O1) & O2).
  unfold openAttempt. unfold bind at 1. unfold getGroup at 1. rewrite Hg, Hlc, Hsc.
  cbv beta iota zeta delta [placeOrderWithRetry tryCatch bind setLeverage
    getSymbolPrice placeOrder send sent mathRandom sleep elapse dateNow gets modify alloc
    throw ret].
  simpl_state. rewrite ?length_snoc. cbn [Nat.add] in *.
  rewrite L1. cbv beta iota zeta. simpl_state. rewrite ?length_snoc.
  rewrite L2. cbv beta iota zeta. simpl_state. rewrite ?length_snoc.
  rewrite P. cbv beta iota zeta. simpl_state. rewrite ?length_snoc.
  rewrite O1. cbv beta iota zeta. simpl_state. rewrite ?length_snoc.
  rewrite O2. cbv beta iota zeta. simpl_state.
  eexists. split; [reflexivity |]. simpl_state.
  rewrite <- ?app_assoc. cbn [app]. repeat split.
Qed.

End HalfOpen.

(** X6. When the long order of an attempt is filled and the short order
    is refused for lack of margin, [openPairPositionWithRetry] reports
    insufficient margin at once: the filled long order stays in the request
    log with no order after it to close it, and no position record is
    created, so nothing later knows of the long leg. *)
Theorem short_leg_margin_leaves_long_leg_open :
  forall ex tc pair symbol size gid config g s lc sc p error,
    activeGroups s !! gid = Some g ->
    find (isClientOf (long pair)) (apiClients g) = Some lc ->
    find (isClientOf (short pair)) (apiClients g) = Some sc ->
    HalfFilled ex (length (requests s)) p error ->
    isInsufficientMarginError error = true ->
    exists s',
      openPairPositionWithRetry ex tc pair symbol size gid config s
      = (Return (InsufficientMargin error), s')
      /\ requests s'
         = requests s ++
           attemptCalls lc sc symbol (Js.orNum (leverage config) (Num 5))
             (calculateQuantity tc size (Js.parseFloat p) None symbol)
      /\ heap s' = heap s
      /\ groupPositions s' = groupPositions s
      /\ emitted s' = emitted s.
Proof.
  intros ex tc pair symbol size gid config g s lc sc p error Hg Hlc Hsc Hhalf Hm.
  destruct (openAttempt_half_filled ex tc pair symbol size gid config 1 g s lc sc p error
              Hg Hlc Hsc Hhalf) as (s' & Hrun & Hreq & Hheap & _ & Hpos & Hev).
  exists s'. split; [| auto].
  unfold openPairPositionWithRetry. change (Z.to_nat maxRetries) with 3%nat. cbn [openAttempts].
  unfold tryCatch. unfold bind at 1. rewrite Hrun, Hm. reflexivity.
Qed.

(** X7. When in each of the three attempts the long order is filled and
    the short order is refused with an error that is not a margin error,
    [openPairPositionWithRetry] sends a new long order in every attempt:
    the request log ends with the fifteen requests of three full attempts,
    three of them filled long orders, the result is a critical error, and
    no position record is created. *)
Theorem refused_short_leg_retried_with_new_long_orders :
  forall ex tc pair symbol size gid config g s lc sc p1 e1 p2 e2 p3 e3,
    activeGroups s !! gid = Some g ->
    find (isClientOf (long pair)) (apiClients g) = Some lc ->
    find (isClientOf (short pair)) (apiClients g) = Some sc ->
    HalfFilled ex (length (requests s)) p1 e1 ->
    HalfFilled ex (5 + length (requests s)) p2 e2 ->
    HalfFilled ex (10 + length (requests s)) p3 e3 ->
    isInsufficientMarginError e1 = false ->
    isInsufficientMarginError e2 = false ->
    isInsufficientMarginError e3 = false ->
    let lev := Js.orNum (leverage config) (Num 5) in
    let q p := calculateQuantity tc size (Js.parseFloat p) None symbol in
    exists s',
      openPairPositionWithRetry ex tc pair symbol size gid config s
      = (Return (CriticalError (Some e3)), s')
      /\ requests s'
         = requests s ++ attemptCalls lc sc symbol lev (q p1)
             ++ attemptCalls lc sc symbol lev (q p2)
             ++ attemptCalls lc sc symbol lev (q p3)
      /\ heap s' = heap s
      /\ groupPositions s' = groupPositions s.
Proof.
  intros ex tc pair symbol size gid config g s lc sc p1 e1 p2 e2 p3 e3
    Hg Hlc Hsc H1 H2 H3 M1 M2 M3 lev q.
  destruct (openAttempt_half_filled ex tc pair symbol size gid config 1 g s lc sc p1 e1
              Hg Hlc Hsc H1) as (s1 & R1 & Q1 & Hp1 & G1 & P1 & _).
  set (s1' := elapse (1000 * 1) s1).
  assert (length (requests s1') = (5 + length (requests s))%nat) as Len1.
  { unfold s1'. simpl_state. rewrite Q1, length_app. simpl. lia. }
  destruct (openAttempt_half_filled ex tc pair symbol size gid config (1 + 1) g s1' lc sc p2 e2)
    as (s2 & R2 & Q2 & Hp2 & G2 & P2 & _); try assumption.
  { unfold s1'. simpl_state. now rewrite G1. }
  { now rewrite Len1. }
  set (s2' := elapse (1000 * (1 + 1)) s2).
  assert (length (requests s2') = (10 + length (requests s))%nat) as Len2.
  { unfold s2'. simpl_state. rewrite Q2, length_app, Len1. simpl. lia. }
  destruct (openAttempt_half_filled ex tc pair symbol size gid config (1 + 1 + 1) g s2' lc sc p3 e3)
    as (s3 & R3 & Q3 & Hp3 & G3 & P3 & _); try assumption.
  { unfold s2'. simpl_state. rewrite G2. unfold s1'. simpl_state. now rewrite G1. }
  { now rewrite Len2. }
  exists s3. split; [| split; [| split]].
  - unfold openPairPositionWithRetry.
    change (Z.to_nat maxRetries) with 3%nat. cbn [openAttempts].
    unfold tryCatch. unfold bind at 1. rewrite R1, M1.
    change (1 =? maxRetries) with false. cbv beta iota.
    unfold bind at 1. unfold sleep at 1, modify at 1. fold s1'.
    unfold bind at 1. rewrite R2, M2.
    change (1 + 1 =? maxRetries) with false. cbv beta iota.
    unfold bind at 1. unfold sleep at 1, modify at 1. fold s2'.
    unfold bind at 1. rewrite R3, M3. reflexivity.
  - rewrite Q3. unfold s2'. simpl_state. rewrite Q2. unfold s1'. simpl_state. rewrite Q1.
    now rewrite <- !app_assoc.
  - rewrite Hp3. unfold s2'. simpl_state. rewrite Hp2. unfold s1'. simpl_state. exact Hp1.
  - rewrite P3. unfold s2'. simpl_state. rewrite P2. unfold s1'. simpl_state. exact P1.
Qed.

Lemma short_leg_margin_witness :
  exists s',
    openPairPositionWithRetry Cases.shortRefused Scenario.fileConfig Scenario.pair1
      "BTCUSDT" (Num 500) "group_1" Scenario.config (Scenario.started Scenario.onePair)
    = (Return (InsufficientMargin Scenario.marginError), s')
    /\ requests s'
       = requests (Scenario.started Scenario.onePair) ++
         attemptCalls (clientOf (Scenario.account "A")) (clientOf (Scenario.account "B"))
           "BTCUSDT" (Js.orNum (leverage Scenario.config) (Num 5))
           (calculateQuantity Scenario.fileConfig (Num 500)
              (Js.parseFloat (Js.Str "30000")) None "BTCUSDT")
    /\ heap s' = heap (Scenario.started Scenario.onePair)
    /\ groupPositions s' = groupPositions (Scenario.started Scenario.onePair)
    /\ emitted s' = emitted (Scenario.started Scenario.onePair).
Proof.
  apply (short_leg_margin_leaves_long_leg_open Cases.shortRefused Scenario.fileConfig
           Scenario.pair1 "BTCUSDT" (Num 500) "group_1" Scenario.config
           (newGroupData Scenario.onePair)).
  - vm_compute. reflexivity.
  - reflexivity.
  - reflexivity.
  - repeat split. eexists. reflexivity.
  - reflexivity.
Defined.

Lemma refused_short_leg_witness :
  exists s',
    openPairPositionWithRetry Cases.shortTimesOut Scenario.fileConfig Scenario.pair1
      "BTCUSDT" (Num 500) "group_1" Scenario.config (Scenario.started Scenario.onePair)
    = (Return (CriticalError (Some Scenario.timeout)), s')
    /\ requests s'
       = requests (Scenario.started Scenario.onePair)
         ++ attemptCalls (clientOf (Scenario.account "A")) (clientOf (Scenario.account "B"))
              "BTCUSDT" (Js.orNum (leverage Scenario.config) (Num 5))
              (calculateQuantity Scenario.fileConfig (Num 500)
                 (Js.parseFloat (Js.Str "30000")) None "BTCUSDT")
         ++ attemptCalls (clientOf (Scenario.account "A")) (clientOf (Scenario.account "B"))
              "BTCUSDT" (Js.orNum (leverage Scenario.config) (Num 5))
              (calculateQuantity Scenario.fileConfig (Num 500)
                 (Js.parseFloat (Js.Str "30000")) None "BTCUSDT")
         ++ attemptCalls (clientOf (Scenario.account "A")) (clientOf (Scenario.account "B"))
              "BTCUSDT" (Js.orNum (leverage Scenario.config) (Num 5))
              (calculateQuantity Scenario.fileConfig (Num 500)
                 (Js.parseFloat (Js.Str "30000")) None "BTCUSDT")
    /\ heap s' = heap (Scenario.started Scenario.onePair)
    /\ groupPositions s' = groupPositions (Scenario.started Scenario.onePair).
Proof.
  apply (refused_short_leg_retried_with_new_long_orders Cases.shortTimesOut
           Scenario.fileConfig Scenario.pair1 "BTCUSDT" (Num 500) "group_1"
           Scenario.config (newGroupData Scenario.onePair)
           (Scenario.started Scenario.onePair) _ _
           (Js.Str "30000") Scenario.timeout (Js.Str "30000") Scenario.timeout
           (Js.Str "30000") Scenario.timeout).
  - vm_compute. reflexivity.
  - reflexivity.
  - reflexivity.
  - repeat split. eexists. reflexivity.
  - repeat split. eexists. reflexivity.
  - repeat split. eexists. reflexivity.
  - reflexivity.
  - reflexivity.
  - reflexivity.
Defined.

(** X8. A refused leverage request does not stop the pair: when the
    exchange refuses the leverage of the long account, the leverage of the
    short account is not requested at all, and the attempt goes on to the
    price and the two orders; the pair opens when these are accepted. *)
Theorem refused_leverage_is_tolerated :
  forall ex tc pair symbol size gid config g s lc sc e p c1 c2,
    activeGroups s !! gid = Some g ->
    find (isClientOf (long pair)) (apiClients g) = Some lc ->
    find (isClientOf (short pair)) (apiClients g) = Some sc ->
    leverageReply ex (length (requests s)) = Some e ->
    priceReply ex (1 + length (requests s)) = inr p ->
    orderReply ex (2 + length (requests s)) = inr c1 ->
    orderReply ex (3 + length (requests s)) = inr c2 ->
    let lev := Js.orNum (leverage config) (Num 5) in
    let q := calculateQuantity tc size (Js.parseFloat p) None symbol in
    exists s' position,
      openPairPositionWithRetry ex tc pair symbol size gid config s
      = (Return (Opened (length (heap s))), s')
      /\ requests s'
         = requests s ++
           [SetLeverage lc symbol lev; GetSymbolPrice lc symbol;
            openOrder lc symbol BUY q; openOrder sc symbol SELL q]
      /\ heap s' = heap s ++ [position]
      /\ status position = "open"
      /\ longOrder position = c1 /\ shortOrder position = c2
      /\ pp_quantity position = q.
Proof.
  intros ex tc pair symbol size gid config g s lc sc e p c1 c2 Hg Hlc Hsc L P O1 O2 lev q.
  unfold openPairPositionWithRetry. change (Z.to_nat maxRetries) with 3%nat.
  cbn [openAttempts]. unfold tryCatch at 1. unfold bind at 1.
  unfold openAttempt. unfold bind at 1. unfold getGroup at 1. rewrite Hg, Hlc, Hsc.
  cbv beta iota zeta delta [placeOrderWithRetry tryCatch bind setLeverage
    getSymbolPrice placeOrder send sent mathRandom sleep elapse dateNow gets modify alloc
    throw ret].
  simpl_state. rewrite ?length_snoc. cbn [Nat.add] in *.
  rewrite L. cbv beta iota zeta. simpl_state. rewrite ?length_snoc.
  rewrite P. cbv beta iota zeta. simpl_state. rewrite ?length_snoc.
  rewrite O1. cbv beta iota zeta. simpl_state. rewrite ?length_snoc.
  rewrite O2. cbv beta iota zeta. simpl_state.
  eexists _, _. split; [reflexivity |]. simpl_state.
  rewrite <- ?app_assoc. cbn [app]. repeat split.
Qed.

Lemma refused_leverage_witness :
  exists s' position,
    openPairPositionWithRetry Cases.leverageRefused Scenario.fileConfig Scenario.pair1
      "BTCUSDT" (Num 500) "group_1" Scenario.config (Scenario.started Scenario.onePair)
    = (Return (Opened (length (heap (Scenario.started Scenario.onePair)))), s')
    /\ requests s'
       = requests (Scenario.started Scenario.onePair) ++
         [SetLeverage (clientOf (Scenario.account "A")) "BTCUSDT"
            (Js.orNum (leverage Scenario.config) (Num 5));
          GetSymbolPrice (clientOf (Scenario.account "A")) "BTCUSDT";
          openOrder (clientOf (Scenario.account "A")) "BTCUSDT" BUY
            (calculateQuantity Scenario.fileConfig (Num 500)
               (Js.parseFloat (Js.Str "30000")) None "BTCUSDT");
          openOrder (clientOf (Scenario.account "B")) "BTCUSDT" SELL
            (calculateQuantity Scenario.fileConfig (Num 500)
               (Js.parseFloat (Js.Str "30000")) None "BTCUSDT")]
    /\ heap s' = heap (Scenario.started Scenario.onePair) ++ [position]
    /\ status position = "open"
    /\ longOrder position = Scenario.filled "30000" "0.133"
    /\ shortOrder position = Scenario.filled "30000" "0.133"
    /\ pp_quantity position
       = calculateQuantity Scenario.fileConfig (Num 500)
           (Js.parseFloat (Js.Str "30000")) None "BTCUSDT".
Proof.
  apply (refused_leverage_is_tolerated Cases.leverageRefused Scenario.fileConfig
           Scenario.pair1 "BTCUSDT" (Num 500) "group_1" Scenario.config
           (newGroupData Scenario.onePair) (Scenario.started Scenario.onePair)
           _ _ Scenario.timeout).
  - vm_compute. reflexivity.
  - reflexivity.
  - reflexivity.
  - reflexivity.
  - reflexivity.
  - reflexivity.
  - reflexivity.
Defined.


(** ** The loop of a group *)

Lemma sameOpening_refl p : sameOpening p p.
Proof. repeat split. Qed.

Lemma sameOpening_trans p1 p2 p3 :
  sameOpening p1 p2 -> sameOpening p2 p3 -> sameOpening p1 p3.
Proof. unfold sameOpening. intuition congruence. Qed.

Lemma sameGroup_refl g : sameGroup g g.
Proof. repeat split. reflexivity. Qed.

Lemma sameGroup_trans g1 g2 g3 : sameGroup g1 g2 -> sameGroup g2 g3 -> sameGroup g1 g3.
Proof. unfold sameGroup. intros (?&?&?&?&?) (?&?&?&?&?). repeat split; try congruence. lia. Qed.

Lemma booked_app total l1 l2 : booked total (l1 ++ l2) = booked (booked total l1) l2.
Proof. unfold booked. now rewrite map_app, fold_left_app. Qed.

Lemma steady_refl s : Steady s s.
Proof.
  split.
  - auto.
  - intros k g Hg. exists g. split; [exact Hg | apply sameGroup_refl].
  - intros k l Hl. exists []. rewrite app_nil_r. split; [exact Hl | constructor].
  - intros k p Hp. exists p, []. rewrite app_nil_r. auto.
  - intros r p Hp. exists p. split; [exact Hp | apply sameOpening_refl].
  - exists []. now rewrite app_nil_r.
  - exists []. rewrite app_nil_r. split; [reflexivity | constructor].
Qed.

Lemma steady_heap_length s s' : Steady s s' -> (length (heap s) <= length (heap s'))%nat.
Proof.
  intros H. destruct (heap s) as [| p h] eqn:E using rev_ind; [simpl; lia |].
  clear IHh.
  destruct (sd_heap _ _ H (length h) p) as (p' & Hp' & _).
  { rewrite E. rewrite lookup_app_r by lia. now rewrite Nat.sub_diag. }
  apply lookup_lt_Some in Hp'. rewrite length_app. simpl. lia.
Qed.

Lemma steady_trans s1 s2 s3 : Steady s1 s2 -> Steady s2 s3 -> Steady s1 s3.
Proof.
  intros H1 H2. split.
  - intros H. apply (sd_running _ _ H1), (sd_running _ _ H2), H.
  - intros k g Hg. destruct (sd_groups _ _ H1 k g Hg) as (g2 & Hg2 & S12).
    destruct (sd_groups _ _ H2 k g2 Hg2) as (g3 & Hg3 & S23).
    exists g3. split; [exact Hg3 | now apply sameGroup_trans with g2].
  - intros k l Hl. destruct (sd_positions _ _ H1 k l Hl) as (n1 & Hl2 & V1).
    destruct (sd_positions _ _ H2 k _ Hl2) as (n2 & Hl3 & V2).
    exists (n1 ++ n2). rewrite app_assoc. split; [exact Hl3 |].
    apply Forall_app. split; [| exact V2].
    pose proof (steady_heap_length _ _ H2) as Hlen.
    eapply Forall_impl; [exact V1 |]. simpl. intros r Hr. lia.
  - intros k p Hp. destruct (sd_pnl _ _ H1 k p Hp) as (p2 & n1 & Hp2 & T1 & B1).
    destruct (sd_pnl _ _ H2 k p2 Hp2) as (p3 & n2 & Hp3 & T2 & B2).
    exists p3, (n1 ++ n2). split; [exact Hp3 |]. split.
    + now rewrite T2, T1, app_assoc.
    + now rewrite B2, B1, booked_app.
  - intros r p Hp. destruct (sd_heap _ _ H1 r p Hp) as (p2 & Hp2 & O1).
    destruct (sd_heap _ _ H2 r p2 Hp2) as (p3 & Hp3 & O2).
    exists p3. split; [exact Hp3 | now apply sameOpening_trans with p2].
  - destruct (sd_requests _ _ H1) as [l1 E1], (sd_requests _ _ H2) as [l2 E2].
    exists (l1 ++ l2). now rewrite E2, E1, app_assoc.
  - destruct (sd_emitted _ _ H1) as (l1 & E1 & F1), (sd_emitted _ _ H2) as (l2 & E2 & F2).
    exists (l1 ++ l2). split; [now rewrite E2, E1, app_assoc | now apply Forall_app].
Qed.

#[local] Instance Steady_preorder : PreOrder Steady.
Proof. split; [exact steady_refl | exact steady_trans]. Qed.

Lemma initialised_steady gid s s' : Initialised gid s -> Steady s s' -> Initialised gid s'.
Proof.
  intros ([g Hg] & [p Hp] & l & Hl & Hv) H. split; [| split].
  - destruct (sd_groups _ _ H gid g Hg) as (g' & -> & _). eauto.
  - destruct (sd_pnl _ _ H gid p Hp) as (p' & ? & -> & _). eauto.
  - destruct (sd_positions _ _ H gid l Hl) as (news & Hl' & Hv').
    exists (l ++ news). split; [exact Hl' |]. apply Forall_app. split; [| exact Hv'].
    pose proof (steady_heap_length _ _ H) as Hlen.
    eapply Forall_impl; [exact Hv |]. simpl. intros r Hr. lia.
Qed.

(** A state change that leaves the maps, the heap and the event log alone. *)
Lemma steady_quiet s s' :
  isRunning s' = isRunning s -> activeGroups s' = activeGroups s ->
  groupPositions s' = groupPositions s -> groupPnL s' = groupPnL s ->
  heap s' = heap s -> emitted s' = emitted s ->
  (exists l, requests s' = requests s ++ l) ->
  Steady s s'.
Proof.
  intros Hr Hg Hp Hn Hh He Hq.
  pose proof (steady_refl s) as [R G P N H Q E].
  split; rewrite ?Hr, ?Hg, ?Hp, ?Hn, ?Hh, ?He; auto.
Qed.

Section Loop.

Context (ex : Exchange) (tc : TradingConfig) (gid : string).

Lemma safe_framed {A} (m : M A) : Safe gid m -> Framed gid m.
Proof.
  intros Hm s r s' Hi H. destruct (Hm s Hi) as (a & s1 & E & Hs). congruence.
Qed.

Lemma safe_ret {A} (a : A) : Safe gid (ret a).
Proof. intros s _. exists a, s. split; [reflexivity | reflexivity]. Qed.

Lemma safe_gets {A} (f : State -> A) : Safe gid (gets f).
Proof. intros s _. exists (f s), s. split; [reflexivity | reflexivity]. Qed.

Lemma safe_modify f : (forall s, Initialised gid s -> Steady s (f s)) -> Safe gid (modify f).
Proof. intros Hf s Hi. exists tt, (f s). split; [reflexivity | now apply Hf]. Qed.

Lemma safe_bind {A B} (m : M A) (k : A -> M B) :
  Safe gid m -> (forall a, Safe gid (k a)) -> Safe gid (bind m k).
Proof.
  intros Hm Hk s Hi. destruct (Hm s Hi) as (a & s1 & E1 & S1).
  destruct (Hk a s1 (initialised_steady _ _ _ Hi S1)) as (b & s2 & E2 & S2).
  exists b, s2. split; [unfold bind; now rewrite E1 | now transitivity s1].
Qed.

Lemma framed_bind {A B} (m : M A) (k : A -> M B) :
  Framed gid m -> (forall a, Framed gid (k a)) -> Framed gid (bind m k).
Proof.
  intros Hm Hk s r s' Hi H.
  destruct (bind_inv _ _ _ _ _ H) as [(a & s1 & H1 & H2) | (e & H1 & _)].
  - pose proof (Hm _ _ _ Hi H1) as S1.
    transitivity s1; [exact S1 |].
    exact (Hk a _ _ _ (initialised_steady _ _ _ Hi S1) H2).
  - exact (Hm _ _ _ Hi H1).
Qed.

Lemma framed_throw {A} e : Framed gid (@throw A e).
Proof. intros s r s' _ H. inversion H; subst. reflexivity. Qed.

Lemma framed_tryCatch {A} (m : M A) (h : Error -> M A) :
  Framed gid m -> (forall e, Framed gid (h e)) -> Framed gid (tryCatch m h).
Proof.
  intros Hm Hh s r s' Hi H. unfold tryCatch in H.
  destruct (m s) as [[a | e] s1] eqn:E.
  - inversion H; subst. exact (Hm _ _ _ Hi E).
  - pose proof (Hm _ _ _ Hi E) as S1. transitivity s1; [exact S1 |].
    exact (Hh e _ _ _ (initialised_steady _ _ _ Hi S1) H).
Qed.

(** A [try] whose handler returns. *)
Lemma safe_tryCatch {A} (m : M A) (h : Error -> M A) :
  Framed gid m -> (forall e, Safe gid (h e)) -> Safe gid (tryCatch m h).
Proof.
  intros Hm Hh s Hi. unfold tryCatch.
  destruct (m s) as [[a | e] s1] eqn:E; pose proof (Hm _ _ _ Hi E) as S1.
  - exists a, s1. auto.
  - destruct (Hh e s1 (initialised_steady _ _ _ Hi S1)) as (b & s2 & E2 & S2).
    exists b, s2. split; [exact E2 | now transitivity s1].
Qed.

(** A [try] whose body returns: the handler is never entered. *)
Lemma safe_try {A} (m : M A) (h : Error -> M A) : Safe gid m -> Safe gid (tryCatch m h).
Proof.
  intros Hm s Hi. destruct (Hm s Hi) as (a & s1 & E & S1).
  exists a, s1. split; [unfold tryCatch; now rewrite E | exact S1].
Qed.

Lemma safe_sleep ms : Safe gid (sleep ms).
Proof. apply safe_modify. intros s _. apply steady_quiet; try reflexivity. exists []. simpl. now rewrite app_nil_r. Qed.

Lemma safe_mathRandom : Safe gid (mathRandom ex).
Proof.
  intros s _. eexists _, _. split; [reflexivity |].
  apply steady_quiet; try reflexivity. exists []. simpl. now rewrite app_nil_r.
Qed.

Lemma safe_send c : Safe gid (send ex c).
Proof.
  intros s _. eexists _, _. split; [reflexivity |].
  apply steady_quiet; try reflexivity. eexists. reflexivity.
Qed.

Lemma safe_emit e : fromCatch e = false -> Safe gid (emit e).
Proof.
  intros He. apply safe_modify. intros s _.
  pose proof (steady_refl s) as [R G P N H Q E].
  split; simpl_state; auto.
  exists [e]. split; [reflexivity | now constructor].
Qed.

Lemma safe_getGroup : Safe gid (getGroup gid).
Proof.
  intros s ([g Hg] & _). exists g, s. unfold getGroup. rewrite Hg.
  split; [reflexivity | reflexivity].
Qed.

Lemma safe_getGroupPositions : Safe gid (getGroupPositions gid).
Proof.
  intros s (_ & _ & l & Hl & _). exists l, s. unfold getGroupPositions. rewrite Hl.
  split; [reflexivity | reflexivity].
Qed.

Lemma steady_alter_group f s :
  (forall g, sameGroup g (f g)) ->
  Steady s (setActiveGroups (alter f gid (activeGroups s)) s).
Proof.
  intros Hf. pose proof (steady_refl s) as [R G P N H Q E].
  split; simpl_state; auto.
  intros k g Hg. destruct (decide (k = gid)) as [-> | Hne].
  - exists (f g). split; [rewrite lookup_alter_eq, Hg; reflexivity | apply Hf].
  - exists g. split; [now rewrite lookup_alter_ne | apply sameGroup_refl].
Qed.

Lemma safe_modifyGroup f : (forall g, sameGroup g (f g)) -> Safe gid (modifyGroup gid f).
Proof. intros Hf. apply safe_modify. intros s _. now apply steady_alter_group. Qed.

Lemma sameGroup_setFlags a c r g : sameGroup g (setFlags a c r g).
Proof. repeat split. simpl. lia. Qed.

Lemma sameGroup_setInactive g : sameGroup g (setInactive g).
Proof. apply sameGroup_setFlags. Qed.

Lemma sameGroup_cycleDone now g : sameGroup g (cycleDone now g).
Proof. repeat split. simpl. lia. Qed.

Lemma steady_alter_heap f r s :
  (forall p, sameOpening p (f p)) ->
  Steady s (setHeap (alter f r (heap s)) s).
Proof.
  intros Hf. pose proof (steady_refl s) as [R G P N H Q E].
  split; simpl_state; auto.
  - intros k l Hl. exists []. rewrite app_nil_r. split; [exact Hl | constructor].
  - intros r' p Hp. destruct (decide (r' = r)) as [-> | Hne].
    + exists (f p). split; [rewrite list_lookup_alter_eq, Hp; reflexivity | apply Hf].
    + exists p. split; [now rewrite list_lookup_alter_ne | apply sameOpening_refl].
Qed.

Lemma safe_update r f : (forall p, sameOpening p (f p)) -> Safe gid (update r f).
Proof. intros Hf. apply safe_modify. intros s _. now apply steady_alter_heap. Qed.

Lemma safe_alloc p : Safe gid (alloc p).
Proof.
  intros s _. eexists _, _. split; [reflexivity |].
  pose proof (steady_refl s) as [R G P N H Q E].
  split; simpl_state; auto.
  - intros k l Hl. exists []. rewrite app_nil_r. split; [exact Hl | constructor].
  - intros r p0 Hp. exists p0. split; [| apply sameOpening_refl].
    rewrite lookup_app_l; [exact Hp | now apply lookup_lt_Some in Hp].
Qed.


Lemma safe_dateNow : Safe gid dateNow.
Proof. apply safe_gets. Qed.

Lemma framed_deref r : Framed gid (deref r).
Proof.
  intros s res s' _ H. unfold deref in H.
  destruct (heap s !! r); inversion H; subst; reflexivity.
Qed.

Lemma framed_setLeverage c sym lev : Framed gid (setLeverage ex c sym lev).
Proof.
  unfold setLeverage. apply framed_bind; [apply safe_framed, safe_send |].
  intros n. destruct (leverageReply ex n); [apply framed_throw | apply safe_framed, safe_ret].
Qed.

Lemma framed_getSymbolPrice c sym : Framed gid (getSymbolPrice ex c sym).
Proof.
  unfold getSymbolPrice. apply framed_bind; [apply safe_framed, safe_send |].
  intros n. destruct (priceReply ex n); [apply framed_throw | apply safe_framed, safe_ret].
Qed.

Lemma framed_placeOrder c sym side ty ps : Framed gid (placeOrder ex c sym side ty ps).
Proof.
  unfold placeOrder. apply framed_bind; [apply safe_framed, safe_send |].
  intros n. destruct (orderReply ex n); [apply framed_throw | apply safe_framed, safe_ret].
Qed.

Lemma framed_orderVia c sym side ty ps : Framed gid (orderVia ex c sym side ty ps).
Proof. destruct c; [apply framed_placeOrder | apply framed_throw]. Qed.

Lemma sameOpening_setStatus st p : sameOpening p (setStatus st p).
Proof. repeat split. Qed.

Lemma sameOpening_setClosed now c1 c2 p : sameOpening p (setClosed now c1 c2 p).
Proof. repeat split. Qed.

End Loop.

(** One step through a monadic term, for a goal [Safe gid m] or
    [Framed gid m]. *)
Ltac safe_step :=
  first
    [ apply safe_ret | apply safe_gets | apply safe_sleep | apply safe_mathRandom
    | apply safe_send | apply safe_getGroup | apply safe_getGroupPositions
    | apply safe_alloc | apply safe_dateNow
    | apply safe_emit; reflexivity
    | apply safe_modifyGroup;
      first [apply sameGroup_setFlags | apply sameGroup_setInactive
            | apply sameGroup_cycleDone]
    | apply safe_update; first [apply sameOpening_setStatus | apply sameOpening_setClosed]
    | apply safe_bind; [| intros ?] ].

Ltac framed_step :=
  first
    [ apply framed_throw | apply framed_deref | apply framed_setLeverage
    | apply framed_getSymbolPrice | apply framed_placeOrder | apply framed_orderVia
    | apply framed_bind; [| intros ?]
    | apply framed_tryCatch; [| intros ?]
    | apply safe_framed; safe_step ].

Section LoopBody.

Context (ex : Exchange) (tc : TradingConfig) (gid : string).

Lemma framed_openAttempt pair symbol size config attempt :
  Framed gid (openAttempt ex tc pair symbol size gid config attempt).
Proof.
  unfold openAttempt, placeOrderWithRetry.
  framed_step; [framed_step |].
  destruct (find _ _); [destruct (find _ _) |]; repeat framed_step.
Qed.

Lemma safe_openAttempts pair symbol size config left :
  forall attempt lastError,
    Safe gid (openAttempts ex tc left attempt lastError pair symbol size gid config).
Proof.
  induction left as [| left IH]; intros attempt lastError; cbn [openAttempts].
  - safe_step.
  - apply safe_tryCatch.
    + framed_step; [apply framed_openAttempt | framed_step].
    + intros e. destruct (isInsufficientMarginError e); [safe_step |].
      destruct (Z.eqb attempt maxRetries); [safe_step |].
      safe_step; [safe_step | apply IH].
Qed.

Lemma safe_emergencyClose r : Safe gid (emergencyClose ex gid r).
Proof.
  unfold emergencyClose. apply safe_tryCatch; [| intros e; safe_step].
  framed_step; [framed_step |]. framed_step; [framed_step |].
  destruct (find _ _); [destruct (find _ _) |]; repeat framed_step.
Qed.

Lemma safe_forEach {A St} (body : A -> St -> M St) l :
  (forall x st, Safe gid (body x st)) -> forall st, Safe gid (forEach body l st).
Proof.
  intros Hb. induction l as [| x l IH]; intros st; cbn [forEach].
  - safe_step.
  - safe_step; [apply Hb | apply IH].
Qed.

Lemma safe_closePartial positions :
  Safe gid (closePartialGroupPositions ex gid positions).
Proof. apply safe_forEach. intros r _. apply safe_emergencyClose. Qed.

End LoopBody.

Lemma yields_ret {A} (a : A) (P : A -> Prop) : P a -> Yields (ret a) P.
Proof. intros H s a' s' E. now inversion E; subst. Qed.

Lemma yields_bind {A B} (m : M A) (k : A -> M B) (P : B -> Prop) :
  (forall a, Yields (k a) P) -> Yields (bind m k) P.
Proof.
  intros Hk s b s' E.
  destruct (bind_inv _ _ _ _ _ E) as [(a & s1 & _ & E2) | (e & _ & ?)]; [| discriminate].
  exact (Hk a _ _ _ E2).
Qed.

Section OpenSafe.

Context (ex : Exchange) (tc : TradingConfig) (gid symbol : string)
  (size : Js.number) (config : Config).

Lemma allocated_steady st s s' : Allocated st s -> Steady s s' -> Allocated st s'.
Proof.
  intros Ha Hs. pose proof (steady_heap_length _ _ Hs) as Hlen.
  eapply Forall_impl; [exact Ha |]. simpl. intros r Hr. lia.
Qed.

Lemma openPair_allocates pair s :
  Initialised gid s ->
  exists result s',
    openPairPositionWithRetry ex tc pair symbol size gid config s = (Return result, s')
    /\ Steady s s'
    /\ match result with
       | Opened r => (r < length (heap s'))%nat
       | _ => True
       end.
Proof.
  intros Hi.
  destruct (safe_openAttempts ex tc gid pair symbol size config (Z.to_nat maxRetries)
              1 None s Hi) as (result & s' & Hrun & Hs).
  exists result, s'. split; [exact Hrun |]. split; [exact Hs |].
  destruct Hi as ([g Hg] & _).
  destruct (openPair_outcome ex tc _ _ _ _ _ g _ _ _ Hg Hrun) as (result' & E & Ho).
  inversion E; subst result'. destruct result as [r | |]; try exact I.
  destruct Ho as (s0 & p & lc & sc & before & _ & _ & Hat).
  rewrite (oa_heap _ _ _ _ _ _ _ _ _ _ _ _ Hat), (oa_ref _ _ _ _ _ _ _ _ _ _ _ _ Hat).
  rewrite length_app. simpl. lia.
Qed.

Lemma openBody_safe pair st s :
  Initialised gid s -> Allocated st s ->
  exists st' b s',
    openBody ex tc gid symbol size config pair st s = (Return (st', b), s')
    /\ Steady s s' /\ Allocated st' s'.
Proof.
  intros Hi Ha. unfold openBody.
  destruct (criticalErrorOccurred st).
  { exists st, true, s. split; [reflexivity |]. split; [reflexivity | exact Ha]. }
  destruct (openPair_allocates pair s Hi) as (result & s1 & Hrun & S1 & Hres).
  rewrite (bind_return _ _ _ _ _ Hrun).
  pose proof (initialised_steady _ _ _ Hi S1) as Hi1.
  destruct result as [r | error | error].
  - destruct (safe_emit gid (positionOpened r) eq_refl s1 Hi1) as ([] & s2 & E2 & S2).
    eexists _, false, s2. split; [now rewrite (bind_return _ _ _ _ _ E2) |].
    split; [now transitivity s1 |].
    apply Forall_app. split.
    + apply (allocated_steady st s); [exact Ha | now transitivity s1].
    + constructor; [| constructor].
      pose proof (steady_heap_length _ _ S2). lia.
  - match goal with |- exists st' b s', ?m s1 = _ /\ _ =>
      assert (Safe gid m) as Hsafe by (repeat safe_step; destruct (_ =? _)%nat; repeat safe_step);
      assert (Yields m (fun a => newPositions (fst a) = newPositions st)) as Hy
    end.
    { apply yields_bind. intros _. apply yields_bind. intros g.
      destruct (_ =? _)%nat; [| now apply yields_ret].
      apply yields_bind. intros _. apply yields_bind. intros _. now apply yields_ret. }
    destruct (Hsafe s1 Hi1) as ([st' b] & s2 & E2 & S2).
    exists st', b, s2. split; [exact E2 |]. split; [now transitivity s1 |].
    unfold Allocated. pose proof (Hy _ _ _ E2) as Hn. cbn [fst] in Hn. rewrite Hn.
    apply (allocated_steady st s); [exact Ha | now transitivity s1].
  - match goal with |- exists st' b s', ?m s1 = _ /\ _ =>
      assert (Safe gid m) as Hsafe;
      [| assert (Yields m (fun a => newPositions (fst a) = newPositions st)) as Hy]
    end.
    { safe_step; [safe_step |]. safe_step; [safe_step |]. safe_step; [safe_step |].
      safe_step; [| safe_step].
      destruct (0 <? _)%nat; [apply safe_closePartial | safe_step]. }
    { do 4 (apply yields_bind; intros ?). now apply yields_ret. }
    destruct (Hsafe s1 Hi1) as ([st' b] & s2 & E2 & S2).
    exists st', b, s2. split; [exact E2 |]. split; [now transitivity s1 |].
    unfold Allocated. pose proof (Hy _ _ _ E2) as Hn. cbn [fst] in Hn. rewrite Hn.
    apply (allocated_steady st s); [exact Ha | now transitivity s1].
Qed.

Lemma openLoop_safe l :
  forall st s,
    Initialised gid s -> Allocated st s ->
    exists st' s',
      forOf (openBody ex tc gid symbol size config) l st s = (Return st', s')
      /\ Steady s s' /\ Allocated st' s'.
Proof.
  induction l as [| pair l IH]; intros st s Hi Ha; cbn [forOf].
  - exists st, s. split; [reflexivity |]. split; [reflexivity | exact Ha].
  - destruct (openBody_safe pair st s Hi Ha) as (st1 & b & s1 & E1 & S1 & A1).
    rewrite (bind_return _ _ _ _ _ E1). cbn [fst snd].
    destruct b.
    + exists st1, s1. auto.
    + destruct (IH st1 s1 (initialised_steady _ _ _ Hi S1) A1) as (st2 & s2 & E2 & S2 & A2).
      exists st2, s2. split; [exact E2 |]. split; [now transitivity s1 | exact A2].
Qed.

End OpenSafe.

Section CycleSafe.

Context (ex : Exchange) (tc : TradingConfig) (gid : string).

Lemma safe_generateRandomPositionSize : Safe gid (generateRandomPositionSize ex tc).
Proof.
  unfold generateRandomPositionSize. destruct (default _ _) as [mn mx].
  safe_step; [apply safe_mathRandom | safe_step].
Qed.

Lemma safe_generateRandomCloseTime : Safe gid (generateRandomCloseTime ex tc).
Proof.
  unfold generateRandomCloseTime. destruct (default _ _) as [mn mx].
  safe_step; [apply safe_mathRandom | safe_step].
Qed.

Lemma safe_selectRandomCoin : Safe gid (selectRandomCoin ex).
Proof. unfold selectRandomCoin. safe_step; [apply safe_mathRandom | safe_step]. Qed.

Lemma safe_openGroupPositions symbol config :
  Safe gid (openGroupPositions ex tc gid symbol config).
Proof.
  intros s Hi. unfold openGroupPositions.
  destruct (safe_generateRandomPositionSize s Hi) as (size & s1 & E1 & S1).
  rewrite (bind_return _ _ _ _ _ E1).
  pose proof (initialised_steady _ _ _ Hi S1) as Hi1.
  destruct (safe_getGroup gid s1 Hi1) as (g & s1' & Eg & _).
  assert (s1' = s1) as ->.
  { unfold getGroup in Eg. destruct (activeGroups s1 !! gid); now inversion Eg. }
  rewrite (bind_return _ _ _ _ _ Eg).
  destruct (openLoop_safe ex tc gid symbol size config (pairs g) openLoopStart s1 Hi1)
    as (st & s2 & E2 & S2 & A2); [constructor |].
  rewrite (bind_return _ _ _ _ _ E2).
  pose proof (initialised_steady _ _ _ Hi1 S2) as Hi2.
  destruct (criticalErrorOccurred st).
  - eexists _, s2. split; [reflexivity |]. now transitivity s1.
  - destruct Hi2 as (_ & _ & l & Hl & Hv).
    unfold bind at 1. unfold bind at 1. unfold getGroupPositions at 1. rewrite Hl.
    unfold modify at 1. unfold ret at 1.
    eexists _, _. split; [reflexivity |].
    transitivity s1; [exact S1 |]. transitivity s2; [exact S2 |].
    pose proof (steady_refl s2) as [R G P N H Q E].
    split; simpl_state; auto.
    intros k l0 Hl0. destruct (decide (k = gid)) as [-> | Hne].
    + exists (newPositions st). rewrite lookup_insert_eq.
      split; [congruence | exact A2].
    + exists []. rewrite app_nil_r, lookup_insert_ne by congruence.
      split; [exact Hl0 | constructor].
Qed.

Lemma closePosition_safe symbol r s :
  Initialised gid s -> (r < length (heap s))%nat ->
  exists s', closePosition ex gid symbol r s = (Return tt, s') /\ Steady s s'.
Proof.
  intros Hi Hr. unfold closePosition.
  destruct (lookup_lt_is_Some_2 _ _ Hr) as [p Hp].
  unfold bind at 1. unfold deref at 1. rewrite Hp.
  match goal with |- exists s', ?m s = _ /\ _ => assert (Safe gid m) as Hsafe end.
  { apply safe_tryCatch; [| intros e; safe_step].
    framed_step; [framed_step |]. repeat framed_step. }
  destruct (Hsafe s Hi) as ([] & s' & E & S1). exists s'. auto.
Qed.

Lemma closeLoop_safe symbol l :
  forall s,
    Initialised gid s -> Forall (fun r => (r < length (heap s))%nat) l ->
    exists s',
      forEach (fun r _ => closePosition ex gid symbol r) l tt s = (Return tt, s')
      /\ Steady s s'.
Proof.
  induction l as [| r l IH]; intros s Hi Hv; cbn [forEach].
  - exists s. split; [reflexivity | reflexivity].
  - inversion Hv as [| ? ? Hr Hl]; subst.
    destruct (closePosition_safe symbol r s Hi Hr) as (s1 & E1 & S1).
    rewrite (bind_return _ _ _ _ _ E1).
    destruct (IH s1 (initialised_steady _ _ _ Hi S1)) as (s2 & E2 & S2).
    { pose proof (steady_heap_length _ _ S1).
      eapply Forall_impl; [exact Hl |]. simpl. intros; lia. }
    exists s2. split; [exact E2 | now transitivity s1].
Qed.

Lemma safe_closeGroupPositions symbol : Safe gid (closeGroupPositions ex gid symbol).
Proof.
  intros s Hi. unfold closeGroupPositions.
  pose proof Hi as (_ & _ & l & Hl & Hv).
  unfold bind at 1. unfold getGroupPositions at 1. rewrite Hl.
  unfold bind at 1. unfold gets at 1.
  destruct (closeLoop_safe symbol (List.filter (hasStatus "open" (heap s)) l) s Hi)
    as (s' & E & S1).
  { rewrite List.Forall_forall in *. intros r Hin. apply Hv.
    now apply List.filter_In in Hin as [Hin _]. }
  exists tt, s'. auto.
Qed.

Lemma sumLoop_returns l :
  forall s acc,
    Forall (fun r => (r < length (heap s))%nat) l ->
    exists v,
      forEach (fun r cyclePnL => position <- deref r ;;
                                 ret (Js.add cyclePnL (pairPnL position)))
        l acc s = (Return v, s).
Proof.
  induction l as [| r l IH]; intros s acc Hv; cbn [forEach].
  - now exists acc.
  - inversion Hv as [| ? ? Hr Hl]; subst.
    destruct (lookup_lt_is_Some_2 _ _ Hr) as [p Hp].
    unfold bind at 1. unfold bind at 1. unfold deref at 1. rewrite Hp.
    unfold ret at 1. apply IH, Hl.
Qed.

Lemma booked_one total t : booked total [t] = Js.add total (pnl t).
Proof. reflexivity. Qed.

Lemma safe_updateGroupPnL : Safe gid (updateGroupPnL gid).
Proof.
  intros s Hi. unfold updateGroupPnL.
  pose proof Hi as ([g Hg] & [p Hp] & l & Hl & Hv).
  unfold bind at 1. unfold gets at 1. rewrite Hp, Hl.
  destruct (sumLoop_returns (List.filter (hasStatus "closed" (heap s)) l) s (Num 0))
    as (v & Ev).
  { rewrite List.Forall_forall in *. intros r Hin. apply Hv.
    now apply List.filter_In in Hin as [Hin _]. }
  rewrite (bind_return _ _ _ _ _ Ev).
  unfold bind at 1. unfold getGroup at 1. rewrite Hg.
  unfold bind at 1. unfold dateNow at 1, gets at 1.
  unfold bind at 1. unfold modify at 1.
  match goal with |- exists a s', emit ?e ?s1 = _ /\ _ =>
    destruct (safe_emit gid e eq_refl s1) as ([] & s2 & E2 & S2)
  end.
  { split; [| split]; simpl_state; eauto.
    rewrite lookup_insert_eq. eauto. }
  exists tt, s2. split; [exact E2 |].
  etransitivity; [| exact S2].
  pose proof (steady_refl s) as [R G P N H Q E].
  split; simpl_state; auto.
  intros k p0 Hp0. destruct (decide (k = gid)) as [-> | Hne].
    + rewrite lookup_insert_eq. eexists _, [_]. split; [reflexivity |].
      cbn [trades totalPnL]. rewrite booked_one. cbn [pnl].
      assert (p0 = p) as -> by congruence. auto.
    + rewrite lookup_insert_ne by congruence. exists p0, [].
      rewrite app_nil_r. auto.
Qed.

End CycleSafe.

Section IterationSafe.

Context (ex : Exchange) (tc : TradingConfig) (gid : string) (config : Config).

Lemma safe_tradingCycle : Safe gid (tradingCycle ex tc gid config).
Proof.
  unfold tradingCycle.
  safe_step; [apply safe_selectRandomCoin |].
  safe_step; [apply safe_openGroupPositions |].
  safe_step; [safe_step |].
  destruct (criticalError _); [safe_step |].
  destruct (negb _); [safe_step |].
  safe_step.
  { destruct (0 <? _)%nat; [| safe_step].
    safe_step; [apply safe_generateRandomCloseTime |].
    safe_step; [safe_step | apply safe_closeGroupPositions]. }
  safe_step; [apply safe_updateGroupPnL |].
  repeat safe_step.
Qed.

Lemma safe_checkRetry : Safe gid (checkRetry gid).
Proof.
  unfold checkRetry. safe_step; [safe_step |].
  destruct (criticalError _); [| safe_step].
  destruct (retryAfter _) as [retryAt |]; [| safe_step].
  destruct (retryAt =? 0); [safe_step |].
  safe_step; [safe_step |].
  destruct (_ <? _); repeat safe_step.
Qed.

Lemma safe_stopTrading : Safe gid stopTrading.
Proof.
  unfold stopTrading. safe_step; [| safe_step].
  apply safe_modify. intros s _.
  pose proof (steady_refl s) as [R G P N H Q E].
  split; simpl_state; auto.
  - discriminate.
  - intros k g Hg. exists (setInactive g).
    split; [now rewrite lookup_fmap, Hg | apply sameGroup_setInactive].
Qed.

Lemma safe_iteration : Safe gid (iteration ex tc gid config).
Proof.
  unfold iteration. safe_step; [apply safe_checkRetry |].
  destruct a; [safe_step |].
  safe_step; [unfold checkActiveGroups; safe_step |].
  destruct (_ =? 0)%nat.
  { safe_step; [apply safe_stopTrading | safe_step]. }
  safe_step; [safe_step |].
  destruct (negb _); [repeat safe_step |].
  safe_step; [| safe_step].
  apply safe_try, safe_tradingCycle.
Qed.

Lemma safe_startGroupTrading fuel : Safe gid (startGroupTrading ex tc fuel gid config).
Proof.
  induction fuel as [| fuel IH]; cbn [startGroupTrading].
  - safe_step.
  - safe_step; [safe_step |].
    destruct a; [| safe_step].
    safe_step; [apply safe_iteration |].
    destruct a; [apply IH | safe_step].
Qed.

End IterationSafe.

Lemma initializeGroup_initialised group s :
  Initialised (g_id group) (snd (initializeGroup group s)).
Proof.
  unfold initializeGroup, modify. cbn [snd]. split; [| split]; simpl_state.
  - rewrite lookup_insert_eq. eauto.
  - rewrite lookup_insert_eq. eauto.
  - exists []. rewrite lookup_insert_eq. split; [reflexivity | constructor].
Qed.

(** X9. [initializeGroup] initialises its group, and the loop of an
    initialised group never throws (the promise of
    [startGroupTrading] is never rejected), whatever the exchange answers
    and for any number of passes; the [catch] of its body is never entered:
    no groupError event and no groupDeactivated event with reason
    insufficient_margin is emitted; and the group is still initialised
    afterwards. *)
Theorem group_loop_never_throws :
  (forall group s, Initialised (g_id group) (snd (initializeGroup group s)))
  /\ (forall ex tc gid config fuel s,
        Initialised gid s ->
        exists s' events,
          startGroupTrading ex tc fuel gid config s = (Return tt, s')
          /\ Initialised gid s'
          /\ emitted s' = emitted s ++ events
          /\ Forall (fun e => fromCatch e = false) events).
Proof.
  split; [exact initializeGroup_initialised |].
  intros ex tc gid config fuel s Hi.
  destruct (safe_startGroupTrading ex tc gid config fuel s Hi) as ([] & s' & E & S1).
  destruct (sd_emitted _ _ S1) as (events & Ee & Fe).
  exists s', events. split; [exact E |]. split; [| split; assumption].
  exact (initialised_steady _ _ _ Hi S1).
Qed.

Lemma group_loop_witness :
  exists s' events,
    startGroupTrading Scenario.calm Scenario.fileConfig 2 "group_1" Scenario.config
      (Scenario.started Scenario.onePair) = (Return tt, s')
    /\ Initialised "group_1" s'
    /\ emitted s' = emitted (Scenario.started Scenario.onePair) ++ events
    /\ Forall (fun e => fromCatch e = false) events.
Proof.
  apply (proj2 group_loop_never_throws Scenario.calm Scenario.fileConfig "group_1"
           Scenario.config 2%nat (Scenario.started Scenario.onePair)).
  exact (proj1 group_loop_never_throws Scenario.onePair Scenario.idle).
Defined.

(** X10. Over any number of passes of a group's loop the PnL entry of every
    group keeps its trade records and only adds records at the end, and its
    total grows by exactly the PnL of the records added; so a total that is
    the sum of the recorded PnLs stays so, and a total that is NaN stays
    NaN. *)
Theorem pnl_ledger_is_append_only :
  forall ex tc gid config fuel s k p,
    Initialised gid s ->
    groupPnL s !! k = Some p ->
    exists p' new,
      groupPnL (snd (startGroupTrading ex tc fuel gid config s)) !! k = Some p'
      /\ trades p' = trades p ++ new
      /\ totalPnL p' = booked (totalPnL p) new
      /\ (totalPnL p = booked (Num 0) (trades p)
          -> totalPnL p' = booked (Num 0) (trades p'))
      /\ (totalPnL p = NaN -> totalPnL p' = NaN).
Proof.
  intros ex tc gid config fuel s k p Hi Hp.
  destruct (safe_startGroupTrading ex tc gid config fuel s Hi) as ([] & s' & E & S1).
  rewrite E. cbn [snd].
  destruct (sd_pnl _ _ S1 k p Hp) as (p' & new & Hp' & Ht & Hb).
  exists p', new. split; [exact Hp' |]. split; [exact Ht |]. split; [exact Hb |]. split.
  - intros Hc. now rewrite Hb, Ht, booked_app, Hc.
  - intros Hn. rewrite Hb, Hn. clear. unfold booked.
    induction (map pnl new) as [| x l IH]; [reflexivity | exact IH].
Qed.

Lemma pnl_ledger_witness :
  exists p' new,
    groupPnL (snd (startGroupTrading Scenario.risingLong Scenario.fileConfig 2 "group_1"
                     Scenario.config (Scenario.started Scenario.onePair))) !! "group_1"
    = Some p'
    /\ trades p' = [] ++ new
    /\ totalPnL p' = booked (Num 0) new
    /\ (Num 0 = booked (Num 0) [] -> totalPnL p' = booked (Num 0) (trades p'))
    /\ (Num 0 = NaN -> totalPnL p' = NaN).
Proof.
  apply (pnl_ledger_is_append_only Scenario.risingLong Scenario.fileConfig "group_1"
           Scenario.config 2%nat (Scenario.started Scenario.onePair) "group_1"
           {| totalPnL := Num 0; trades := []; pnl_currentCycle := 0 |}).
  - apply initializeGroup_initialised.
  - vm_compute. reflexivity.
Defined.

(** X11. Over any number of passes of a group's loop no group and no
    position record disappears; a group keeps its id, accounts, pairs and
    clients and its cycle counter never decreases; a position record keeps
    the fields written when it was opened; and the position list of every
    group only grows at its end, by references to existing records. *)
Theorem loop_keeps_groups_and_positions :
  forall ex tc gid config fuel s,
    Initialised gid s ->
    let s' := snd (startGroupTrading ex tc fuel gid config s) in
    (forall k g, activeGroups s !! k = Some g ->
       exists g', activeGroups s' !! k = Some g' /\ sameGroup g g')
    /\ (forall r p, heap s !! r = Some p ->
          exists p', heap s' !! r = Some p' /\ sameOpening p p')
    /\ (forall k l, groupPositions s !! k = Some l ->
          exists news, groupPositions s' !! k = Some (l ++ news)
            /\ Forall (fun r => is_Some (heap s' !! r)) news)
    /\ (exists sent, requests s' = requests s ++ sent)
    /\ (isRunning s = false -> isRunning s' = false).
Proof.
  intros ex tc gid config fuel s Hi.
  destruct (safe_startGroupTrading ex tc gid config fuel s Hi) as ([] & s' & E & S1).
  rewrite E. cbn [snd]. split; [| split; [| split; [| split]]].
  - exact (sd_groups _ _ S1).
  - exact (sd_heap _ _ S1).
  - intros k l Hl. destruct (sd_positions _ _ S1 k l Hl) as (news & Hn & Hv).
    exists news. split; [exact Hn |].
    eapply Forall_impl; [exact Hv |]. simpl. intros r Hr. now apply lookup_lt_is_Some_2.
  - exact (sd_requests _ _ S1).
  - intros Hr. destruct (isRunning s') eqn:Er; [| reflexivity].
    rewrite (sd_running _ _ S1 Er) in Hr. discriminate.
Qed.

Lemma loop_keeps_witness :
  let s := Scenario.started Scenario.twoPairs in
  let s' := snd (startGroupTrading Scenario.feedDown Scenario.fileConfig 1 "group_1"
                   Scenario.config s) in
  (forall k g, activeGroups s !! k = Some g ->
     exists g', activeGroups s' !! k = Some g' /\ sameGroup g g')
  /\ (forall r p, heap s !! r = Some p ->
        exists p', heap s' !! r = Some p' /\ sameOpening p p')
  /\ (forall k l, groupPositions s !! k = Some l ->
        exists news, groupPositions s' !! k = Some (l ++ news)
          /\ Forall (fun r => is_Some (heap s' !! r)) news)
  /\ (exists sent, requests s' = requests s ++ sent)
  /\ (isRunning s = false -> isRunning s' = false).
Proof.
  apply (loop_keeps_groups_and_positions Scenario.feedDown Scenario.fileConfig "group_1"
           Scenario.config 1%nat (Scenario.started Scenario.twoPairs)).
  apply initializeGroup_initialised.
Defined.

Lemma filter_none {A} (f : A -> bool) l :
  Forall (fun x => f x = false) l -> List.filter f l = [].
Proof.
  induction 1 as [| x l Hx _ IH]; [reflexivity |]. simpl. now rewrite Hx.
Qed.

(** X12. [stopTrading] switches the engine off and makes every group
    inactive, so that [checkActiveGroups] counts none; it emits one
    tradingStopped event; and a loop that looks at [isRunning] afterwards
    ends without doing anything. *)
Theorem stopTrading_halts_every_loop :
  forall s,
    exists s',
      stopTrading s = (Return tt, s')
      /\ isRunning s' = false
      /\ (forall k, activeGroups s' !! k = setInactive <$> activeGroups s !! k)
      /\ checkActiveGroups s' = (Return 0%nat, s')
      /\ emitted s' = emitted s ++ [tradingStopped]
      /\ requests s' = requests s
      /\ (forall ex tc fuel gid config,
            startGroupTrading ex tc fuel gid config s' = (Return tt, s')).
Proof.
  intros s. eexists. split; [reflexivity |]. simpl_state.
  split; [reflexivity |]. split; [| split; [| split; [| split]]].
  - intros k. now rewrite lookup_fmap.
  - unfold checkActiveGroups, gets. simpl_state. f_equal. f_equal.
    rewrite filter_none; [reflexivity |].
    rewrite List.Forall_forall. intros [k g] Hin.
    apply list_elem_of_In, elem_of_map_to_list in Hin.
    rewrite lookup_fmap in Hin. cbn [snd].
    destruct (activeGroups s !! k); inversion Hin. reflexivity.
  - reflexivity.
  - reflexivity.
  - intros ex tc fuel gid config. destruct fuel; reflexivity.
Qed.

Section Suspended.

Context (ex : Exchange) (tc : TradingConfig) (gid : string) (config : Config).

Lemma suspended_iteration s :
  Suspended gid s ->
  exists step s',
    iteration ex tc gid config s = (Return step, s')
    /\ Suspended gid s'
    /\ requests s' = requests s /\ heap s' = heap s
    /\ groupPositions s' = groupPositions s /\ groupPnL s' = groupPnL s
    /\ draws s' = draws s
    /\ (step = Continue -> clock s' = clock s + 30000 /\ emitted s' = emitted s).
Proof.
  intros (g & Hg & Ha & Hc). unfold iteration.
  unfold bind at 1. unfold checkRetry. unfold bind at 1. unfold getGroup at 1.
  rewrite Hg, Hc. unfold ret at 1.
  unfold bind at 1. unfold checkActiveGroups at 1, gets at 1.
  destruct (_ =? 0)%nat.
  - cbv [bind stopTrading modify emit ret].
    eexists Exit, _. split; [reflexivity |]. simpl_state.
    split; [| repeat split; discriminate].
    unfold Suspended. simpl_state.
    exists (setInactive g). rewrite lookup_fmap, Hg. repeat split; assumption.
  - unfold bind at 1. unfold getGroup at 1. rewrite Hg, Ha. cbn [negb].
    cbv [bind sleep modify ret].
    eexists Continue, _. split; [reflexivity |]. simpl_state.
    split; [| repeat split; lia].
    unfold Suspended. simpl_state. exists g. repeat split; assumption.
Qed.

End Suspended.

(** X13. A group that is inactive without a critical error is never made
    active again by its loop: whatever the number of passes, the loop
    returns with the group still inactive and has sent no request, drawn no
    random number and touched no position or PnL entry. *)
Theorem suspended_group_is_never_resumed :
  forall ex tc gid config fuel s,
    Suspended gid s ->
    exists s',
      startGroupTrading ex tc fuel gid config s = (Return tt, s')
      /\ Suspended gid s'
      /\ requests s' = requests s /\ heap s' = heap s
      /\ groupPositions s' = groupPositions s /\ groupPnL s' = groupPnL s
      /\ draws s' = draws s.
Proof.
  intros ex tc gid config fuel. induction fuel as [| fuel IH]; intros s Hs.
  - exists s. repeat split; assumption.
  - cbn [startGroupTrading]. unfold bind at 1. unfold gets at 1.
    destruct (isRunning s); [| exists s; repeat split; assumption].
    destruct (suspended_iteration ex tc gid config s Hs)
      as (step & s1 & E1 & S1 & Q1 & H1 & P1 & N1 & D1 & _).
    rewrite (bind_return _ _ _ _ _ E1).
    destruct step.
    + destruct (IH s1 S1) as (s2 & E2 & S2 & Q2 & H2 & P2 & N2 & D2).
      exists s2. split; [exact E2 |]. split; [exact S2 |].
      repeat split; congruence.
    + exists s1. repeat split; assumption.
Qed.

Lemma suspended_group_witness :
  exists s',
    startGroupTrading Scenario.noMargin Scenario.fileConfig 3 "group_1" Scenario.config
      Cases.suspended = (Return tt, s')
    /\ Suspended "group_1" s'
    /\ requests s' = requests Cases.suspended /\ heap s' = heap Cases.suspended
    /\ groupPositions s' = groupPositions Cases.suspended
    /\ groupPnL s' = groupPnL Cases.suspended
    /\ draws s' = draws Cases.suspended.
Proof.
  apply (suspended_group_is_never_resumed Scenario.noMargin Scenario.fileConfig "group_1"
           Scenario.config 3 Cases.suspended).
  exists (setInactive (newGroupData Scenario.onePair)).
  split; [vm_compute; reflexivity |]. split; reflexivity.
Defined.

(** ** Hedge pairs and groups *)

(** Induction on a list two elements at a time. *)
Lemma list_pair_ind {A} (P : list A -> Prop) :
  P [] -> (forall a, P [a]) -> (forall a b l, P l -> P (a :: b :: l)) ->
  forall l, P l.
Proof.
  intros H0 H1 H2 l. enough (P l /\ forall a, P (a :: l)) by tauto.
  induction l as [| b l [IH1 IH2]]; split; auto.
Qed.

Lemma even_length_cons2 {A} (a b : A) l :
  Nat.Even (length (a :: b :: l)) <-> Nat.Even (length l).
Proof.
  cbn [length]. split; intros [k Hk]; [exists (k - 1)%nat | exists (S k)]; lia.
Qed.

Lemma pairsFrom_legs l : forall i, Nat.Even (length l) -> legs (pairsFrom i l) = l.
Proof.
  induction l as [| a | a b l IH] using list_pair_ind; intros i He.
  - reflexivity.
  - destruct He as [k Hk]. simpl in Hk. lia.
  - cbn [pairsFrom legs flat_map long short app]. f_equal. f_equal.
    apply IH. now apply even_length_cons2 in He.
Qed.

Lemma pairsFrom_length l : forall i, length (pairsFrom i l) = (length l / 2)%nat.
Proof.
  induction l as [| a | a b l IH] using list_pair_ind; intros i.
  - reflexivity.
  - reflexivity.
  - cbn [pairsFrom length]. rewrite IH.
    change (S (S (length l))) with (1 * 2 + length l)%nat.
    now rewrite Nat.div_add_l by lia.
Qed.

Lemma pairsFrom_ids l :
  forall k,
    map pairId (pairsFrom (2 * k) l)
    = map (fun n => "配对" +:+ showNat n) (seq (k + 1) (length l / 2)).
Proof.
  induction l as [| a | a b l IH] using list_pair_ind; intros k.
  - reflexivity.
  - reflexivity.
  - cbn [pairsFrom length map pairId].
    change (S (S (length l))) with (1 * 2 + length l)%nat.
    rewrite Nat.div_add_l by lia. cbn [Nat.add seq map].
    replace (2 * k / 2)%nat with k by (rewrite Nat.mul_comm, Nat.div_mul; lia).
    f_equal.
    replace (2 * k + 2)%nat with (2 * (k + 1))%nat by lia.
    rewrite IH. now replace (k + 1 + 1)%nat with (S (k + 1)) by lia.
Qed.

Lemma even_mod2 n : Nat.Even n <-> (n mod 2 =? 0)%nat = true.
Proof.
  rewrite Nat.eqb_eq. split.
  - intros [k ->]. now rewrite Nat.mul_comm, Nat.Div0.mod_mul.
  - intros H. exists (n / 2)%nat. pose proof (Nat.div_mod_eq n 2). lia.
Qed.

Lemma createHedgePairs_even groupAccounts :
  groupAccounts <> [] -> Nat.Even (length groupAccounts) ->
  createHedgePairs groupAccounts = inr (pairsFrom 0 groupAccounts).
Proof.
  intros Hne He. unfold createHedgePairs.
  apply even_mod2 in He as Hm. rewrite Hm. cbn [negb].
  destruct groupAccounts as [| a [| b l]]; [contradiction | | reflexivity].
  destruct He as [k Hk]. simpl in Hk. lia.
Qed.

(** X14. [createHedgePairs] throws for an odd number of accounts and for
    none; for any other list it pairs each account with its neighbour: the
    legs of the pairs, long before short, are the accounts in order, there
    is a pair for every two accounts (so at least one), and the pairs are
    numbered from 1. *)
Theorem createHedgePairs_pairs_every_account :
  (forall groupAccounts,
     Nat.Odd (length groupAccounts) ->
     exists e, createHedgePairs groupAccounts = inl e)
  /\ createHedgePairs []
     = inl {| message := "组必须至少包含2个账户才能进行对冲配对" |}
  /\ (forall groupAccounts,
        groupAccounts <> [] -> Nat.Even (length groupAccounts) ->
        exists pairs,
          createHedgePairs groupAccounts = inr pairs
          /\ legs pairs = groupAccounts
          /\ length pairs = (length groupAccounts / 2)%nat
          /\ pairs <> []
          /\ map pairId pairs
             = map (fun n => "配对" +:+ showNat n) (seq 1 (length pairs))).
Proof.
  split; [| split].
  - intros l [k Hk]. unfold createHedgePairs.
    assert ((length l mod 2 =? 0)%nat = false) as ->.
    { apply Nat.eqb_neq. rewrite Hk.
      rewrite Nat.add_comm, Nat.mul_comm, Nat.Div0.mod_add. discriminate. }
    eexists. reflexivity.
  - reflexivity.
  - intros l Hne He. exists (pairsFrom 0 l).
    split; [now apply createHedgePairs_even |].
    split; [now apply pairsFrom_legs |].
    split; [apply pairsFrom_length |]. split.
    + destruct l as [| a [| b l]]; [contradiction | | discriminate].
      destruct He as [k Hk]. simpl in Hk. lia.
    + rewrite pairsFrom_length. exact (pairsFrom_ids l 0).
Qed.

Lemma createHedgePairs_pairs_every_account_witness :
  exists pairs,
    createHedgePairs [Scenario.account "A"; Scenario.account "B"] = inr pairs
    /\ legs pairs = [Scenario.account "A"; Scenario.account "B"]
    /\ length pairs = (2 / 2)%nat
    /\ pairs <> []
    /\ map pairId pairs = map (fun n => "配对" +:+ showNat n) (seq 1 (length pairs)).
Proof.
  apply (proj2 (proj2 createHedgePairs_pairs_every_account)
           [Scenario.account "A"; Scenario.account "B"]).
  - discriminate.
  - exists 1%nat. reflexivity.
Defined.

(** *** The shuffle *)

Lemma insert_perm {A} (l : list A) :
  forall j y a, l !! j = Some y -> y :: <[j := a]> l ≡ₚ a :: l.
Proof.
  induction l as [| b l IH]; intros j y a Hj; [discriminate |].
  destruct j as [| j]; simpl in *.
  - inversion Hj; subst. apply perm_swap.
  - rewrite perm_swap. rewrite (IH j y a Hj). apply perm_swap.
Qed.

Lemma swap_perm {A} (l : list A) : forall i j, swap i j l ≡ₚ l.
Proof.
  unfold swap. induction l as [| a l IH]; intros i j; [now destruct i |].
  destruct i as [| i], j as [| j]; simpl.
  - reflexivity.
  - destruct (l !! j) as [y |] eqn:Hj; [| reflexivity]. simpl.
    now apply insert_perm.
  - destruct (l !! i) as [x |] eqn:Hi; [| reflexivity]. simpl.
    now apply insert_perm.
  - specialize (IH i j).
    destruct (l !! i) as [x |], (l !! j) as [y |]; try reflexivity.
    simpl. now rewrite IH.
Qed.

Lemma swap_length {A} (l : list A) i j : length (swap i j l) = length l.
Proof.
  unfold swap. destruct (l !! i), (l !! j); try reflexivity.
  now rewrite !length_insert.
Qed.

Lemma shuffleFrom_perm ex i :
  forall shuffled s,
    exists l,
      shuffleFrom ex i shuffled s = (Return l, setDraws (draws s + i) s)
      /\ l ≡ₚ shuffled.
Proof.
  induction i as [| i IH]; intros shuffled s.
  - exists shuffled. split; [| reflexivity].
    cbn [shuffleFrom]. unfold ret. f_equal. destruct s; simpl. unfold setDraws; simpl.
    f_equal. lia.
  - cbn [shuffleFrom]. unfold bind at 1. unfold mathRandom at 1.
    set (j := Z.to_nat _).
    destruct (IH (swap (S i) j shuffled) (setDraws (S (draws s)) s)) as (l & E & P).
    exists l. split.
    + rewrite E. f_equal. unfold setDraws; simpl. f_equal. lia.
    + rewrite P. apply swap_perm.
Qed.

(** *** Groups *)

Lemma pairsFrom_nonempty l i : (2 <= length l)%nat -> pairsFrom i l <> [].
Proof. destruct l as [| a [| b l]]; simpl; [lia | lia | discriminate]. Qed.

Lemma newGroup_even k group s :
  group <> [] -> Nat.Even (length group) ->
  exists g,
    newGroup k group s = (Return g, s)
    /\ g_id g = groupId k /\ g_accounts g = group /\ WellPaired g.
Proof.
  intros Hne He. eexists. unfold newGroup.
  rewrite (createHedgePairs_even group Hne He). cbn [liftE]. unfold bind, ret.
  split; [reflexivity |]. split; [reflexivity |]. split; [reflexivity |].
  unfold WellPaired. cbn [g_accounts g_pairs].
  split; [now apply createHedgePairs_even |].
  split; [now apply pairsFrom_legs |].
  apply pairsFrom_nonempty. destruct group as [| a [| b l]]; [contradiction | | simpl; lia].
  destruct He as [n Hn]. simpl in Hn. lia.
Qed.

Lemma even_sub a b : Nat.Even a -> Nat.Even b -> Nat.Even (a - b).
Proof. intros [x ->] [y ->]. exists (x - y)%nat. lia. Qed.

Lemma even_mul_r a b : Nat.Even b -> Nat.Even (a * b).
Proof. intros [y ->]. exists (a * y)%nat. lia. Qed.

Lemma slices_zero g : (0 < g)%nat -> slices 0 g = 0%nat.
Proof. intros Hg. unfold slices. apply Nat.div_small. lia. Qed.

Lemma slices_step n g : (0 < g)%nat -> (0 < n)%nat -> slices n g = S (slices (n - g) g).
Proof.
  intros Hg Hn. unfold slices. destruct (Nat.le_gt_cases g n) as [Hle | Hlt].
  - replace (n + g - 1)%nat with (1 * g + (n - g + g - 1))%nat by lia.
    rewrite Nat.div_add_l by lia. lia.
  - replace (n - g)%nat with 0%nat by lia.
    replace (n + g - 1)%nat with (1 * g + (n - 1))%nat by lia.
    rewrite Nat.div_add_l by lia.
    rewrite (Nat.div_small (n - 1)), (Nat.div_small (0 + g - 1)) by lia. lia.
Qed.

Section GroupLoop.

Context (groupSize : nat) (shuffled : list Account).
Hypothesis Hsize : Nat.Even groupSize.
Hypothesis Hpos : groupSize <> 0%nat.
Hypothesis Heven : Nat.Even (length shuffled).

Lemma groupsFrom_spec fuel :
  forall k groups s,
    (length shuffled <= (k + fuel) * groupSize)%nat ->
    exists new,
      groupsFrom fuel groupSize (k * groupSize) shuffled groups s
      = (Return (groups ++ new), s)
      /\ concat (map g_accounts new) = drop (k * groupSize) shuffled
      /\ Forall WellPaired new
      /\ map g_id new = map groupId (seq (k + 1) (length new))
      /\ length new = slices (length shuffled - k * groupSize) groupSize.
Proof.
  induction fuel as [| fuel IH]; intros k groups s Hfuel.
  - exists []. rewrite app_nil_r. cbn [groupsFrom].
    rewrite Nat.add_0_r in Hfuel.
    split; [reflexivity |]. split; [now rewrite drop_ge |].
    split; [constructor |]. split; [reflexivity |].
    replace (length shuffled - k * groupSize)%nat with 0%nat by lia.
    rewrite slices_zero by lia. reflexivity.
  - cbn [groupsFrom]. destruct (Nat.ltb_spec (k * groupSize) (length shuffled)) as [Hlt | Hge].
    2: { exists []. rewrite app_nil_r.
         split; [reflexivity |]. split; [now rewrite drop_ge |].
         split; [constructor |]. split; [reflexivity |].
         replace (length shuffled - k * groupSize)%nat with 0%nat by lia.
         rewrite slices_zero by lia. reflexivity. }
    set (group := take groupSize (drop (k * groupSize) shuffled)).
    assert (length group = Nat.min groupSize (length shuffled - k * groupSize)) as Hlen.
    { unfold group. now rewrite length_take, length_drop. }
    assert (group <> []) as Hne.
    { intros E. rewrite E in Hlen. simpl in Hlen. lia. }
    assert (Nat.Even (length group)) as Hev.
    { rewrite Hlen. destruct (Nat.min_spec groupSize (length shuffled - k * groupSize))
        as [[_ ->] | [_ ->]]; [exact Hsize |].
      apply even_sub; [exact Heven | now apply even_mul_r]. }
    destruct (newGroup_even (k * groupSize / groupSize + 1) group s Hne Hev)
      as (g & Eg & Hid & Hacc & Hwp).
    rewrite Nat.div_mul in Eg, Hid by exact Hpos.
    rewrite Nat.div_mul by exact Hpos.
    assert ((groups' <-
               (if (length group =? groupSize)%nat
                then g0 <- newGroup (k + 1) group;; ret (groups ++ [g0])
                else if ((2 <=? length group) && (length group mod 2 =? 0))%nat
                     then g0 <- newGroup (k + 1) group;; ret (groups ++ [g0])
                     else ret groups);;
             groupsFrom fuel groupSize (k * groupSize + groupSize) shuffled groups') s
            = groupsFrom fuel groupSize (S k * groupSize) shuffled (groups ++ [g]) s) as ->.
    { replace (k * groupSize + groupSize)%nat with (S k * groupSize)%nat by lia.
      assert (((2 <=? length group) && (length group mod 2 =? 0))%nat = true) as H2.
      { apply andb_true_iff. split; [| now apply even_mod2].
        apply Nat.leb_le. destruct Hev as [n Hn].
        destruct group; [contradiction | simpl in *; lia]. }
      rewrite H2. unfold bind at 1.
      destruct (length group =? groupSize)%nat; unfold bind at 1; now rewrite Eg. }
    destruct (IH (S k) (groups ++ [g]) s) as (new & E & Hc & Hw & Hi & Hn); [lia |].
    exists (g :: new). split; [rewrite E; now rewrite <- app_assoc |].
    split; [| split; [| split]].
    + cbn [map concat]. rewrite Hc, Hacc. unfold group.
      replace (S k * groupSize)%nat with (k * groupSize + groupSize)%nat by lia.
      rewrite <- drop_drop. apply take_drop.
    + now constructor.
    + cbn [map length seq]. rewrite Hid, Hi. reflexivity.
    + cbn [length]. rewrite Hn.
      rewrite (slices_step (length shuffled - k * groupSize)) by lia.
      f_equal. f_equal. lia.
Qed.

End GroupLoop.

Lemma shuffleAccounts_perm ex accountsList s :
  exists shuffled,
    shuffleAccounts ex accountsList s
    = (Return shuffled, setDraws (draws s + (length accountsList - 1)) s)
    /\ shuffled ≡ₚ accountsList.
Proof. apply shuffleFrom_perm. Qed.

(** X15. For draws in [0, 1) [shuffleAccounts] returns a permutation of
    the accounts it is given (none is lost, none appears twice more than
    before); it uses one draw for each account but the first and changes
    nothing else. *)
Theorem shuffleAccounts_permutes :
  forall ex accountsList s,
    (forall n, (0 <= random ex n < 1)%Q) ->
    exists shuffled,
      shuffleAccounts ex accountsList s
      = (Return shuffled, setDraws (draws s + (length accountsList - 1)) s)
      /\ shuffled ≡ₚ accountsList
      /\ length shuffled = length accountsList.
Proof.
  intros ex accountsList s _.
  destruct (shuffleAccounts_perm ex accountsList s) as (shuffled & E & P).
  exists shuffled. split; [exact E |]. split; [exact P | now apply Permutation_length].
Qed.

Lemma calm_draws n : (0 <= random Scenario.calm n < 1)%Q.
Proof. split; [discriminate | reflexivity]. Defined.

Lemma shuffleAccounts_permutes_witness :
  exists shuffled,
    shuffleAccounts Scenario.calm Cases.six Scenario.idle
    = (Return shuffled, setDraws (draws Scenario.idle + (length Cases.six - 1)) Scenario.idle)
    /\ shuffled ≡ₚ Cases.six
    /\ length shuffled = length Cases.six.
Proof.
  apply (shuffleAccounts_permutes Scenario.calm Cases.six Scenario.idle).
  exact calm_draws.
Defined.

Lemma groupAccounts_even ex groupSize accountsList s :
  accountsList <> [] -> Nat.Even (length accountsList) ->
  Nat.Even groupSize -> groupSize <> 0%nat ->
  exists groups,
    groupAccounts ex groupSize accountsList s
    = (Return groups, setDraws (draws s + (length accountsList - 1)) s)
    /\ concat (map g_accounts groups) ≡ₚ accountsList
    /\ Forall WellPaired groups
    /\ map g_id groups = map groupId (seq 1 (length groups))
    /\ length groups
       = if (length accountsList <? 6)%nat then 1%nat
         else slices (length accountsList) groupSize.
Proof.
  intros Hne He Hg Hg0.
  destruct (shuffleAccounts_perm ex accountsList s) as (shuffled & Es & Hp).
  unfold groupAccounts. rewrite (bind_return _ _ _ _ _ Es).
  pose proof (Permutation_length Hp) as Hlen. rewrite Hlen.
  apply even_mod2 in He as Hm. rewrite Hm. cbn [negb]. rewrite andb_true_r.
  assert (shuffled <> []) as Hne'.
  { intros ->. apply Permutation_nil_l in Hp. auto. }
  assert (Nat.Even (length shuffled)) as He' by now rewrite Hlen.
  destruct (length accountsList <? 6)%nat.
  - destruct (newGroup_even 1 shuffled (setDraws (draws s + (length accountsList - 1)) s)
                Hne' He') as (g & Eg & Hid & Hacc & Hwp).
    exists [g]. rewrite (bind_return _ _ _ _ _ Eg).
    split; [reflexivity |]. split; [| split; [| split]].
    + cbn [map concat]. now rewrite app_nil_r, Hacc.
    + now constructor.
    + cbn [map length seq]. now rewrite Hid.
    + reflexivity.
  - destruct (groupsFrom_spec groupSize shuffled Hg Hg0 He' (length accountsList) 0 []
                (setDraws (draws s + (length accountsList - 1)) s))
      as (new & E & Hc & Hw & Hi & Hn).
    { rewrite Hlen. destruct groupSize; [contradiction |]. nia. }
    cbn [Nat.mul app Nat.add] in *. exists new. split; [exact E |].
    split; [now rewrite Hc |]. split; [exact Hw |]. split; [exact Hi |].
    rewrite Hn, Hlen. now rewrite Nat.sub_0_r.
Qed.

(** X16. For an even, non-empty list of accounts and an even group size,
    [groupAccounts] returns groups that hold every account exactly once
    (their account lists, end to end, are a permutation of the accounts);
    in each group the pairs of [createHedgePairs] cover the group's
    accounts and there is at least one pair; and the groups are numbered
    group_1, group_2, ... in order. A list of fewer than 6 accounts makes
    one group whatever the group size. *)
Theorem groupAccounts_groups_every_account :
  forall ex groupSize accountsList s,
    (forall n, (0 <= random ex n < 1)%Q) ->
    accountsList <> [] -> Nat.Even (length accountsList) ->
    Nat.Even groupSize -> groupSize <> 0%nat ->
    exists groups,
      groupAccounts ex groupSize accountsList s
      = (Return groups, setDraws (draws s + (length accountsList - 1)) s)
      /\ concat (map g_accounts groups) ≡ₚ accountsList
      /\ Forall WellPaired groups
      /\ map g_id groups = map groupId (seq 1 (length groups))
      /\ length groups
         = if (length accountsList <? 6)%nat then 1%nat
           else slices (length accountsList) groupSize.
Proof. intros ex groupSize accountsList s _. apply groupAccounts_even. Qed.


Lemma groupAccounts_groups_every_account_witness :
  exists groups,
    groupAccounts Scenario.calm 6 Cases.six Scenario.idle
    = (Return groups, setDraws (draws Scenario.idle + (length Cases.six - 1)) Scenario.idle)
    /\ concat (map g_accounts groups) ≡ₚ Cases.six
    /\ Forall WellPaired groups
    /\ map g_id groups = map groupId (seq 1 (length groups))
    /\ length groups
       = if (length Cases.six <? 6)%nat then 1%nat else slices (length Cases.six) 6.
Proof.
  apply (groupAccounts_groups_every_account Scenario.calm 6%nat Cases.six Scenario.idle).
  - exact calm_draws.
  - discriminate.
  - exists 3%nat. reflexivity.
  - exists 3%nat. reflexivity.
  - discriminate.
Defined.

Lemma odd_mod2 n : Nat.Odd n -> (n mod 2 =? 0)%nat = false.
Proof.
  intros [k ->]. apply Nat.eqb_neq.
  rewrite Nat.add_comm, Nat.mul_comm, Nat.Div0.mod_add. discriminate.
Qed.

Lemma groupsFrom_odd_throws fuel groupSize shuffled s :
  Nat.Odd groupSize -> (groupSize <= length shuffled)%nat ->
  (0 < length shuffled)%nat -> fuel <> 0%nat ->
  exists e s', groupsFrom fuel groupSize 0 shuffled [] s = (Throw e, s').
Proof.
  intros Ho Hle Hpos Hf. destruct fuel as [| fuel]; [contradiction |].
  cbn [groupsFrom].
  assert ((0 <? length shuffled)%nat = true) as -> by now apply Nat.ltb_lt.
  rewrite drop_0.
  assert (length (take groupSize shuffled) = groupSize) as Ht.
  { rewrite length_take. lia. }
  rewrite Ht, Nat.eqb_refl.
  unfold bind at 1. unfold bind at 1. unfold newGroup. unfold bind at 1.
  unfold createHedgePairs. rewrite Ht, (odd_mod2 _ Ho). cbn [negb liftE].
  eexists _, _. reflexivity.
Qed.

(** X17. [groupAccounts] gives no group for an odd number of accounts, and
    throws the error of [createHedgePairs] for no account at all; with 6
    accounts or more it also throws when the group size is odd and at most
    the number of accounts. *)
Theorem groupAccounts_without_pairs :
  (forall ex groupSize accountsList s,
     Nat.Odd (length accountsList) ->
     groupAccounts ex groupSize accountsList s
     = (Return [], setDraws (draws s + (length accountsList - 1)) s))
  /\ (forall ex groupSize s,
        exists s',
          groupAccounts ex groupSize [] s
          = (Throw {| message := "组必须至少包含2个账户才能进行对冲配对" |}, s'))
  /\ (forall ex groupSize accountsList s,
        Nat.Even (length accountsList) -> (6 <= length accountsList)%nat ->
        Nat.Odd groupSize -> (groupSize <= length accountsList)%nat ->
        exists e s', groupAccounts ex groupSize accountsList s = (Throw e, s')).
Proof.
  split; [| split].
  - intros ex groupSize accountsList s Ho.
    destruct (shuffleAccounts_perm ex accountsList s) as (shuffled & Es & Hp).
    unfold groupAccounts. rewrite (bind_return _ _ _ _ _ Es).
    rewrite (Permutation_length Hp), (odd_mod2 _ Ho). reflexivity.
  - intros ex groupSize s. eexists. reflexivity.
  - intros ex groupSize accountsList s He H6 Ho Hle.
    destruct (shuffleAccounts_perm ex accountsList s) as (shuffled & Es & Hp).
    unfold groupAccounts. rewrite (bind_return _ _ _ _ _ Es).
    pose proof (Permutation_length Hp) as Hlen. rewrite Hlen.
    apply even_mod2 in He as Hm. rewrite Hm. cbn [negb]. rewrite andb_true_r.
    assert ((length accountsList <? 6)%nat = false) as -> by (apply Nat.ltb_ge; lia).
    apply groupsFrom_odd_throws; lia || assumption.
Qed.

Lemma groupAccounts_without_pairs_witness :
  exists e s',
    groupAccounts Scenario.calm 3%nat Cases.six Scenario.idle = (Throw e, s').
Proof.
  apply (proj2 (proj2 groupAccounts_without_pairs) Scenario.calm 3%nat Cases.six
           Scenario.idle).
  - exists 3%nat. reflexivity.
  - simpl. lia.
  - exists 1%nat. reflexivity.
  - simpl. lia.
Defined.

Lemma wellPaired_lengths groups :
  Forall WellPaired groups ->
  length (concat (map g_accounts groups)) = (2 * length (flat_map g_pairs groups))%nat.
Proof.
  induction 1 as [| g groups (_ & Hl & _) _ IH]; [reflexivity |].
  cbn [map concat flat_map]. rewrite !length_app, IH, <- Hl.
  assert (forall l, length (legs l) = (2 * length l)%nat) as ->.
  { induction l as [| p l IHl]; [reflexivity | simpl in *; rewrite IHl; lia]. }
  lia.
Qed.

(** X18. [getAccountStats] announces what [groupAccounts] does with its
    default group size of 6, for any non-empty list of accounts: the number
    of groups, the number of pairs in all groups and whether there is a
    group at all. *)
Theorem getAccountStats_counts_the_groups :
  forall ex accountsList s,
    accountsList <> [] ->
    exists groups,
      groupAccounts ex 6%nat accountsList s
      = (Return groups, setDraws (draws s + (length accountsList - 1)) s)
      /\ maxGroups (getAccountStats accountsList) = length groups
      /\ maxPairs (getAccountStats accountsList) = length (flat_map g_pairs groups)
      /\ canGroup (getAccountStats accountsList)
         = match groups with [] => false | _ => true end
      /\ total (getAccountStats accountsList) = length accountsList.
Proof.
  intros ex accountsList s Hne.
  destruct (Nat.Even_or_Odd (length accountsList)) as [He | Ho].
  - destruct (groupAccounts_even ex 6%nat accountsList s Hne He) as (groups & E & Hp & Hw & _ & Hn);
      [exists 3%nat; reflexivity | discriminate |].
    exists groups. split; [exact E |].
    pose proof (wellPaired_lengths groups Hw) as Hl.
    rewrite (Permutation_length Hp) in Hl.
    assert (2 <= length accountsList)%nat as H2.
    { destruct accountsList as [| a [| b l]]; [contradiction | | simpl; lia].
      destruct He as [k Hk]. simpl in Hk. lia. }
    unfold getAccountStats. apply even_mod2 in He as Hm. rewrite Hm. cbn [negb].
    pose proof Hm as Hm0. apply Nat.eqb_eq in Hm.
    assert (length accountsList / 2 = length (flat_map g_pairs groups))%nat as Hhalf.
    { rewrite Hl, Nat.mul_comm, Nat.div_mul; lia. }
    revert Hn.
    destruct (Nat.ltb_spec (length accountsList) 6) as [H6 | H6]; intros Hn.
    + assert ((2 <=? length accountsList)%nat = true) as -> by now apply Nat.leb_le.
      cbn [andb maxGroups maxPairs canGroup total].
      split; [lia |]. split; [exact Hhalf |]. split; [| reflexivity].
      destruct groups; [simpl in Hn; lia | reflexivity].
    + assert ((6 <=? length accountsList)%nat = true) as -> by now apply Nat.leb_le.
      cbn [andb].
      assert (((length accountsList mod 6 =? 0) || (length accountsList mod 6 mod 2 =? 0))%nat
              = true) as ->.
      { apply orb_true_iff. right. apply Nat.eqb_eq.
        pose proof (Nat.div_mod_eq (length accountsList) 6).
        pose proof (Nat.div_mod_eq (length accountsList) 2).
        pose proof (Nat.div_mod_eq (length accountsList mod 6) 2).
        pose proof (Nat.mod_upper_bound (length accountsList mod 6) 2).
        lia. }
      cbn [maxGroups maxPairs canGroup total].
      assert ((2 <=? length accountsList)%nat = true) as -> by (apply Nat.leb_le; lia).
      cbn [andb].
      split; [| split; [exact Hhalf | split; [| reflexivity]]].
      * rewrite Hn. unfold slices. apply Nat.eqb_eq in Hm0. clear - Hm0 H6.
        destruct (Nat.leb_spec 2 (length accountsList mod 6));
          generalize dependent (length accountsList); intros n; intros;
          pose proof (Nat.div_mod_eq n 6); pose proof (Nat.div_mod_eq n 2);
          pose proof (Nat.div_mod_eq (n + 6 - 1) 6);
          pose proof (Nat.mod_upper_bound (n + 6 - 1) 6);
          pose proof (Nat.mod_upper_bound n 6); lia.
      * destruct groups; [| reflexivity].
        cbn [length] in Hn. unfold slices in Hn.
        pose proof (Nat.div_mod_eq (length accountsList + 6 - 1) 6).
        pose proof (Nat.mod_upper_bound (length accountsList + 6 - 1) 6). lia.
  - exists []. split.
    + destruct (shuffleAccounts_perm ex accountsList s) as (shuffled & Es & Hp).
      unfold groupAccounts. rewrite (bind_return _ _ _ _ _ Es).
      rewrite (Permutation_length Hp), (odd_mod2 _ Ho). reflexivity.
    + unfold getAccountStats. rewrite (odd_mod2 _ Ho). cbn [negb andb].
      rewrite andb_false_r. repeat split.
Qed.

Lemma getAccountStats_counts_the_groups_witness :
  exists groups,
    groupAccounts Scenario.calm 6%nat Cases.six Scenario.idle
    = (Return groups, setDraws (draws Scenario.idle + (length Cases.six - 1)) Scenario.idle)
    /\ maxGroups (getAccountStats Cases.six) = length groups
    /\ maxPairs (getAccountStats Cases.six) = length (flat_map g_pairs groups)
    /\ canGroup (getAccountStats Cases.six)
       = match groups with [] => false | _ => true end
    /\ total (getAccountStats Cases.six) = length Cases.six.
Proof.
  apply (getAccountStats_counts_the_groups Scenario.calm Cases.six Scenario.idle).
  discriminate.
Defined.

(** ** The quantity of an opened pair *)

Section Leverage.

Context (ex : Exchange) (tc : TradingConfig).

Lemma openAttempt_quantity pair sym size gid config attempt s r s' :
  openAttempt ex tc pair sym size gid config attempt s = (Return r, s') ->
  exists p sent,
    heap s' = heap s ++ [p] /\ r = length (heap s)
    /\ pp_quantity p = calculateQuantity tc size (openPrice p) None sym
    /\ requests s' = requests s ++ sent
    /\ LeverageIs (Js.orNum (leverage config) (Num 5)) sent.
Proof.
  intros H. unfold openAttempt in H.
  unfold bind at 1 in H. unfold getGroup at 1 in H.
  destruct (activeGroups s !! gid) as [g |]; [| discriminate].
  destruct (find (isClientOf (long pair)) (apiClients g)) as [lc |];
    [destruct (find (isClientOf (short pair)) (apiClients g)) as [sc |] |];
    try discriminate.
  cbv beta iota zeta delta [placeOrderWithRetry tryCatch bind setLeverage
    getSymbolPrice placeOrder send sent mathRandom sleep elapse dateNow gets modify alloc
    throw ret] in H.
  simpl_state. split_replies H ex;
    inversion H; subst; clear H; simpl_state; rewrite <- ?app_assoc; cbn [app];
    eexists _, _; (split; [reflexivity |]); (split; [reflexivity |]);
    (split; [reflexivity |]); (split; [reflexivity |]);
    repeat constructor.
Qed.

Lemma leverageIs_app lev l1 l2 : LeverageIs lev l1 -> LeverageIs lev l2 -> LeverageIs lev (l1 ++ l2).
Proof. intros H1 H2. now apply Forall_app. Qed.

Lemma openAttempt_leverage pair sym size gid config attempt s res s' :
  openAttempt ex tc pair sym size gid config attempt s = (res, s') ->
  exists sent, requests s' = requests s ++ sent
               /\ LeverageIs (Js.orNum (leverage config) (Num 5)) sent.
Proof.
  intros H. unfold openAttempt in H.
  unfold bind at 1 in H. unfold getGroup at 1 in H.
  destruct (activeGroups s !! gid) as [g |];
    [| inversion H; subst; exists []; rewrite app_nil_r; split; [reflexivity | constructor]].
  destruct (find (isClientOf (long pair)) (apiClients g)) as [lc |];
    [destruct (find (isClientOf (short pair)) (apiClients g)) as [sc |] |];
    try (inversion H; subst; exists []; rewrite app_nil_r; split; [reflexivity | constructor]).
  cbv beta iota zeta delta [placeOrderWithRetry tryCatch bind setLeverage
    getSymbolPrice placeOrder send sent mathRandom sleep elapse dateNow gets modify alloc
    throw ret] in H.
  simpl_state. split_replies H ex;
    inversion H; subst; clear H; simpl_state; rewrite <- ?app_assoc; cbn [app];
    eexists; (split; [reflexivity |]); repeat constructor.
Qed.

Lemma openAttempts_quantity pair sym size gid config left :
  forall attempt lastError s r s',
    openAttempts ex tc left attempt lastError pair sym size gid config s
    = (Return (Opened r), s') ->
    exists p sent,
      heap s' !! r = Some p
      /\ pp_quantity p = calculateQuantity tc size (openPrice p) None sym
      /\ requests s' = requests s ++ sent
      /\ LeverageIs (Js.orNum (leverage config) (Num 5)) sent.
Proof.
  induction left as [| left IH]; intros attempt lastError s r s' H; cbn [openAttempts] in H.
  - discriminate.
  - unfold tryCatch in H. unfold bind at 1 in H.
    destruct (openAttempt ex tc pair sym size gid config attempt s)
      as [[ref | e] s1] eqn:Hatt.
    + inversion H; subst; clear H.
      destruct (openAttempt_quantity _ _ _ _ _ _ _ _ _ Hatt) as (p & sent & Hh & Hr & Hq & Hs & Hl).
      exists p, sent. split; [| auto].
      rewrite Hh, Hr. now apply list_lookup_middle.
    + destruct (openAttempt_leverage _ _ _ _ _ _ _ _ _ Hatt) as (sent1 & Hs1 & Hl1).
      destruct (isInsufficientMarginError e); [discriminate |].
      destruct (Z.eqb attempt maxRetries); [discriminate |].
      unfold bind at 1 in H. unfold sleep at 1, modify at 1 in H.
      destruct (IH _ _ _ _ _ H) as (p & sent & Hp & Hq & Hs & Hl).
      exists p, (sent1 ++ sent). split; [exact Hp |]. split; [exact Hq |].
      split; [| now apply leverageIs_app].
      rewrite Hs. simpl_state. now rewrite Hs1, app_assoc.
Qed.

End Leverage.

(** X19. The quantity of an opened pair is what [calculateQuantity] gives
    for the sampled size and the price read, with the leverage of the
    configuration file (or 5): the [leverage] that [startTrading] was given
    is only what the leverage requests ask the exchange for, and does not
    enter the quantity. For values of ordinary magnitude the quantity is
    size x file leverage / price, rounded to the decimals of the
    instrument up to the error of the binary64 roundings. *)
Theorem opened_quantity_ignores_requested_leverage :
  forall ex tc pair sym size gid config s r s',
    openPairPositionWithRetry ex tc pair sym size gid config s
    = (Return (Opened r), s') ->
    exists p sent,
      heap s' !! r = Some p
      /\ pp_quantity p = calculateQuantity tc size (openPrice p) None sym
      /\ requests s' = requests s ++ sent
      /\ LeverageIs (Js.orNum (leverage config) (Num 5)) sent
      /\ forall lev price sz : Q,
           actualLeverage tc None = Num lev -> openPrice p = Num price ->
           size = Num sz ->
           Ordinary sz -> Ordinary lev -> Ordinary price ->
           exists k : Z,
             pp_quantity p = Js.f64 (inject_Z k / Qpower 10 (precisionOf sym))
             /\ (Qabs (inject_Z k - sz * lev / price * Qpower 10 (precisionOf sym))
                 <= (1 # 2)
                    + sz * lev / price * Qpower 10 (precisionOf sym) * Js.pow2 (-50))%Q.
Proof.
  intros ex tc pair sym size gid config s r s' H.
  destruct (openAttempts_quantity ex tc pair sym size gid config _ _ _ _ _ _ H)
    as (p & sent & Hp & Hq & Hs & Hl).
  exists p, sent. split; [exact Hp |]. split; [exact Hq |]. split; [exact Hs |].
  split; [exact Hl |].
  intros lev price sz Hlev Hprice -> Hsz Hlv Hpr. rewrite Hq, Hprice.
  now apply calculateQuantity_nearly_rounds.
Qed.

Lemma opened_quantity_witness :
  exists p sent,
    heap Scenario.opened !! 0%nat = Some p
    /\ pp_quantity p
       = calculateQuantity Scenario.fileConfig
           (Scenario.sampledSize Scenario.calm Scenario.onePair) (openPrice p) None "BTCUSDT"
    /\ requests Scenario.opened
       = requests (Scenario.sampled Scenario.calm Scenario.onePair) ++ sent
    /\ LeverageIs (Js.orNum (leverage Scenario.config) (Num 5)) sent
    /\ forall lev price sz : Q,
         actualLeverage Scenario.fileConfig None = Num lev -> openPrice p = Num price ->
         Scenario.sampledSize Scenario.calm Scenario.onePair = Num sz ->
         Ordinary sz -> Ordinary lev -> Ordinary price ->
         exists k : Z,
           pp_quantity p = Js.f64 (inject_Z k / Qpower 10 (precisionOf "BTCUSDT"))
           /\ (Qabs (inject_Z k - sz * lev / price * Qpower 10 (precisionOf "BTCUSDT"))
               <= (1 # 2)
                  + sz * lev / price * Qpower 10 (precisionOf "BTCUSDT") * Js.pow2 (-50))%Q.
Proof.
  apply (opened_quantity_ignores_requested_leverage Scenario.calm Scenario.fileConfig
           Scenario.pair1 "BTCUSDT" (Scenario.sampledSize Scenario.calm Scenario.onePair)
           "group_1" Scenario.config (Scenario.sampled Scenario.calm Scenario.onePair)
           0%nat Scenario.opened).
  vm_compute. reflexivity.
Defined.

(** ** The close phase *)

Section ClosePhase.

Context (ex : Exchange) (gid sym : string).

Lemma closePosition_effect r s p :
  heap s !! r = Some p ->
  exists s' sent,
    closePosition ex gid sym r s = (Return tt, s')
    /\ requests s' = requests s ++ sent
    /\ (length sent <= 2)%nat
    /\ Forall (fun c => exists client side, c = closeOrder client sym side p) sent
    /\ (heap s' = heap s
        \/ exists now c1 c2, heap s' = <[r := setClosed now c1 c2 p]> (heap s))
    /\ groupPositions s' = groupPositions s
    /\ groupPnL s' = groupPnL s
    /\ activeGroups s' = activeGroups s.
Proof.
  intros Hl. unfold closePosition.
  unfold bind at 1. unfold deref at 1. rewrite Hl.
  unfold tryCatch. unfold bind at 1. unfold getGroup at 1.
  destruct (activeGroups s !! gid) as [g |].
  2: { cbv [emit modify]. eexists _, []. split; [reflexivity |]. simpl_state.
       rewrite app_nil_r. repeat split; auto. }
  cbv beta iota zeta delta [bind orderVia placeOrder send sent update dateNow gets
    emit modify throw ret]. simpl_state.
  destruct (find (isClientOf (longAccount p)) (apiClients g)) as [lc |].
  2: { eexists _, []. split; [reflexivity |]. simpl_state.
       rewrite app_nil_r. repeat split; auto. }
  cbv beta iota zeta. simpl_state.
  destruct (orderReply ex (length (requests s))) eqn:E1; cbv beta iota zeta; simpl_state.
  { eexists _, [_]. split; [reflexivity |]. simpl_state.
    repeat split; auto. repeat constructor. eexists _, _. reflexivity. }
  destruct (find (isClientOf (shortAccount p)) (apiClients g)) as [sc |].
  2: { eexists _, [_]. split; [reflexivity |]. simpl_state.
       repeat split; auto. repeat constructor. eexists _, _. reflexivity. }
  cbv beta iota zeta. simpl_state.
  destruct (orderReply ex (length (requests s ++ [_]))) eqn:E2;
    cbv beta iota zeta; simpl_state.
  - eexists _, [_; _]. split; [reflexivity |]. simpl_state.
    rewrite <- app_assoc. repeat split; auto.
    repeat constructor; eexists _, _; reflexivity.
  - eexists _, [_; _]. split; [reflexivity |]. simpl_state.
    rewrite <- app_assoc. split; [reflexivity |]. split; [simpl; lia |].
    split; [repeat constructor; eexists _, _; reflexivity |].
    split; [| auto]. right. eexists _, _, _.
    apply list_eq. intros i. destruct (decide (i = r)) as [-> | Hne].
    + rewrite list_lookup_alter_eq, list_lookup_insert_eq, Hl; [reflexivity |].
      now apply lookup_lt_Some in Hl.
    + now rewrite list_lookup_alter_ne, list_lookup_insert_ne.
Qed.

Lemma closeLoop_effect h0 l :
  forall s,
    ClosedOrSame h0 (heap s) ->
    Forall (fun r => exists p0, h0 !! r = Some p0 /\ status p0 = "open") l ->
    exists s' sent,
      forEach (fun r _ => closePosition ex gid sym r) l tt s = (Return tt, s')
      /\ requests s' = requests s ++ sent
      /\ (length sent <= 2 * length l)%nat
      /\ Forall (fun c => exists r p0 client side,
                   In r l /\ h0 !! r = Some p0 /\ c = closeOrder client sym side p0) sent
      /\ ClosedOrSame h0 (heap s')
      /\ (forall r, ~ In r l -> heap s' !! r = heap s !! r)
      /\ groupPositions s' = groupPositions s
      /\ groupPnL s' = groupPnL s
      /\ activeGroups s' = activeGroups s.
Proof.
  induction l as [| r l IH]; intros s Hc Hl; cbn [forEach].
  - exists s, []. rewrite app_nil_r.
    split; [reflexivity |]. split; [reflexivity |]. split; [simpl; lia |].
    split; [constructor |]. split; [exact Hc |]. auto.
  - inversion Hl as [| ? ? (p0 & Hp0 & Hopen) Hl']; subst.
    destruct Hc as [Hlen Hc].
    assert (exists p, heap s !! r = Some p /\ pp_quantity p = pp_quantity p0
                      /\ (p = p0 \/ exists now c1 c2, p = setClosed now c1 c2 p0))
      as (p & Hp & Hq & Hform).
    { destruct (Hc r p0 Hp0) as [H | (_ & now & c1 & c2 & H)].
      - exists p0. auto.
      - eexists. split; [exact H |]. split; [reflexivity | eauto]. }
    destruct (closePosition_effect r s p Hp)
      as (s1 & sent1 & E1 & Q1 & L1 & F1 & H1 & P1 & N1 & G1).
    rewrite (bind_return _ _ _ _ _ E1).
    assert (ClosedOrSame h0 (heap s1)) as Hc1.
    { destruct H1 as [-> | (now & c1 & c2 & ->)]; [now split |].
      split; [now rewrite length_insert |].
      intros r' p' Hr'. destruct (decide (r' = r)) as [-> | Hne].
      - right. assert (p' = p0) as -> by congruence. split; [exact Hopen |].
        rewrite list_lookup_insert_eq by now apply lookup_lt_Some in Hp.
        destruct Hform as [-> | (now' & c1' & c2' & ->)]; eexists _, _, _; reflexivity.
      - rewrite list_lookup_insert_ne by congruence. now apply Hc. }
    destruct (IH s1 Hc1 Hl') as (s2 & sent2 & E2 & Q2 & L2 & F2 & C2 & H2 & P2 & N2 & G2).
    exists s2, (sent1 ++ sent2). split; [exact E2 |].
    split; [now rewrite Q2, Q1, app_assoc |].
    split; [rewrite length_app; cbn [length]; lia |].
    split; [| split; [exact C2 | split; [| split; [congruence | split; congruence]]]].
    + apply Forall_app. split.
      * eapply Forall_impl; [exact F1 |]. cbn beta. intros c (client & side & ->).
        exists r, p0, client, side. split; [now left |]. split; [exact Hp0 |].
        unfold closeOrder, closeParams. now rewrite Hq.
      * eapply Forall_impl; [exact F2 |]. cbn beta.
        intros c (r' & p' & client & side & Hin & Hp' & ->).
        exists r', p', client, side. split; [now right | auto].
    + intros r' Hnin. rewrite H2 by (intros Hin; apply Hnin; now right).
      destruct H1 as [-> | (now & c1 & c2 & ->)]; [reflexivity |].
      apply list_lookup_insert_ne. intros ->. apply Hnin. now left.
Qed.

End ClosePhase.

(** X20. [closeGroupPositions] returns (it never throws) and acts only on
    the positions of the group's list that are open: every request it
    sends is a reduce-only market order for the quantity of such a
    position, at most two per position; every position record ends as it
    was or, if it was open, closed with its close orders and close time
    recorded; a record that was not open, or is not in the group's list,
    is left exactly as it was; and the groups, the position lists and the
    PnL entries do not change. *)
Theorem closeGroupPositions_only_closes_open_positions :
  forall ex gid sym s ledger,
    groupPositions s !! gid = Some ledger ->
    Forall (fun r => is_Some (heap s !! r)) ledger ->
    exists s' sent,
      closeGroupPositions ex gid sym s = (Return tt, s')
      /\ requests s' = requests s ++ sent
      /\ Forall (fun c => isReduceOnlyOrder c = true) sent
      /\ Forall (fun c => exists r p client side,
                   In r ledger /\ heap s !! r = Some p /\ status p = "open"
                   /\ c = closeOrder client sym side p) sent
      /\ (length sent
          <= 2 * length (List.filter (hasStatus "open" (heap s)) ledger))%nat
      /\ (forall r p, heap s !! r = Some p ->
            heap s' !! r = Some p
            \/ (status p = "open" /\ In r ledger
                /\ exists now c1 c2, heap s' !! r = Some (setClosed now c1 c2 p)))
      /\ length (heap s') = length (heap s)
      /\ groupPositions s' = groupPositions s
      /\ groupPnL s' = groupPnL s
      /\ activeGroups s' = activeGroups s.
Proof.
  intros ex gid sym s ledger Hled Hvalid. unfold closeGroupPositions.
  unfold bind at 1. unfold getGroupPositions at 1. rewrite Hled.
  unfold bind at 1. unfold gets at 1.
  set (opens := List.filter (hasStatus "open" (heap s)) ledger).
  assert (Forall (fun r => In r ledger /\ exists p0, heap s !! r = Some p0 /\ status p0 = "open")
            opens) as Hopens.
  { rewrite List.Forall_forall. intros r Hin. apply List.filter_In in Hin as [Hin Hst].
    split; [exact Hin |]. unfold hasStatus in Hst.
    destruct (heap s !! r) as [p |]; [| discriminate].
    exists p. split; [reflexivity |]. now apply String.eqb_eq. }
  destruct (closeLoop_effect ex gid sym (heap s) opens s)
    as (s' & sent & E & Q & L & F & [Hlen C] & Hout & P & N & G).
  { split; [reflexivity | auto]. }
  { eapply Forall_impl; [exact Hopens |]. cbn beta. tauto. }
  exists s', sent. split; [exact E |]. split; [exact Q |].
  rewrite List.Forall_forall in Hopens.
  split; [| split; [| split; [exact L | split; [| auto]]]].
  - eapply Forall_impl; [exact F |]. cbn beta.
    intros c (r & p0 & client & side & _ & _ & ->). reflexivity.
  - eapply Forall_impl; [exact F |]. cbn beta.
    intros c (r & p0 & client & side & Hin & Hp0 & ->).
    destruct (Hopens r Hin) as (Hinl & p1 & Hp1 & Hst).
    exists r, p0, client, side. repeat split; try assumption. congruence.
  - intros r p Hp. destruct (in_dec Nat.eq_dec r opens) as [Hin | Hnin].
    + destruct (C r p Hp) as [H | (Hst & H)]; [now left |].
      right. split; [exact Hst |]. split; [| exact H]. now apply (Hopens r Hin).
    + left. rewrite (Hout r Hnin). exact Hp.
Qed.


Lemma closeGroupPositions_witness :
  exists s' sent,
    closeGroupPositions Scenario.calm "group_1" "BTCUSDT" Cases.holding = (Return tt, s')
    /\ requests s' = requests Cases.holding ++ sent
    /\ Forall (fun c => isReduceOnlyOrder c = true) sent
    /\ Forall (fun c => exists r p client side,
                 In r [0%nat] /\ heap Cases.holding !! r = Some p /\ status p = "open"
                 /\ c = closeOrder client "BTCUSDT" side p) sent
    /\ (length sent <= 2 * length (List.filter (hasStatus "open" (heap Cases.holding)) [0%nat]))%nat
    /\ (forall r p, heap Cases.holding !! r = Some p ->
          heap s' !! r = Some p
          \/ (status p = "open" /\ In r [0%nat]
              /\ exists now c1 c2, heap s' !! r = Some (setClosed now c1 c2 p)))
    /\ length (heap s') = length (heap Cases.holding)
    /\ groupPositions s' = groupPositions Cases.holding
    /\ groupPnL s' = groupPnL Cases.holding
    /\ activeGroups s' = activeGroups Cases.holding.
Proof.
  apply (closeGroupPositions_only_closes_open_positions Scenario.calm "group_1" "BTCUSDT"
           Cases.holding [0%nat]).
  - vm_compute. reflexivity.
  - repeat constructor. eexists. vm_compute. reflexivity.
Defined.

(** ** Loaded accounts *)

Lemma isMissing_trimmed trim row field :
  isMissing trim row field = false -> trimmed trim row field <> "".
Proof.
  unfold isMissing, trimmed. destruct (row !! field) as [v |]; [| discriminate].
  cbn [default]. intros H. apply orb_false_iff in H as [_ H].
  now apply String.eqb_neq in H.
Qed.

Lemma parseRow_accepted trim row a : parseRow trim row = Some a -> Accepted a.
Proof.
  unfold parseRow. cbn [List.filter requiredFields].
  destruct (isMissing trim row "accountName") eqn:M1; [discriminate |].
  destruct (isMissing trim row "exchange") eqn:M2; [discriminate |].
  destruct (isMissing trim row "apiKey") eqn:M3; [discriminate |].
  destruct (isMissing trim row "secretKey") eqn:M4; [discriminate |].
  cbn [length Nat.ltb Nat.leb csv_apiKey csv_secretKey].
  destruct (String.eqb_spec (trimmed trim row "apiKey") ""); [discriminate |].
  destruct (String.eqb_spec (trimmed trim row "apiKey") "your_api_key_here"); [discriminate |].
  destruct (String.eqb_spec (trimmed trim row "secretKey") ""); [discriminate |].
  destruct (String.eqb_spec (trimmed trim row "secretKey") "your_secret_key_here");
    [discriminate |].
  destruct (String.eqb_spec (trimmed trim row "apiKey") (trimmed trim row "secretKey"));
    [discriminate |].
  cbn [orb]. intros H. inversion H; subst; clear H. unfold Accepted. cbn.
  repeat split; try assumption; now apply isMissing_trimmed.
Qed.

Lemma filter_all {A} (f : A -> bool) l :
  Forall (fun x => f x = true) l -> List.filter f l = l.
Proof.
  induction 1 as [| x l Hx _ IH]; [reflexivity |]. cbn [List.filter]. now rewrite Hx, IH.
Qed.

(** X21. When the CSV parser reports no error, [parseCSVFile] resolves,
    with at most one account per row, and every account it returns has a
    name, an exchange, an API key and a secret key that are not empty, keys
    that are not the placeholders of the template, and an API key that
    differs from the secret key. So [closeAllPositions] skips none of the
    accounts loaded from a file: it asks the exchange for the positions of
    each of them, in order. *)
Theorem loaded_accounts_are_never_skipped :
  forall trim filePath rows,
    exists accounts,
      parseCSVFile trim filePath rows None = inr accounts
      /\ Forall Accepted accounts
      /\ (length accounts <= length rows)%nat
      /\ forall ex s,
           exists result s',
             closeAllPositions ex (map toAccount accounts) s = (Return result, s')
             /\ queried (requests s')
                = queried (requests s) ++ map apiOf (map toAccount accounts).
Proof.
  intros trim filePath rows. exists (omap (parseRow trim) rows).
  split; [reflexivity |].
  assert (Forall Accepted (omap (parseRow trim) rows)) as Hacc.
  { induction rows as [| row rows IH]; [constructor |].
    change (omap (parseRow trim) (row :: rows))
      with (match parseRow trim row with
            | Some a => a :: omap (parseRow trim) rows
            | None => omap (parseRow trim) rows
            end).
    destruct (parseRow trim row) as [a |] eqn:E; [| exact IH].
    constructor; [now apply (parseRow_accepted trim row) | exact IH]. }
  split; [exact Hacc |]. split.
  - clear Hacc. induction rows as [| row rows IH]; [reflexivity |].
    change (omap (parseRow trim) (row :: rows))
      with (match parseRow trim row with
            | Some a => a :: omap (parseRow trim) rows
            | None => omap (parseRow trim) rows
            end).
    destruct (parseRow trim row); cbn [length]; lia.
  - intros ex s. revert Hacc. generalize (omap (parseRow trim) rows). intros l Hacc.
    assert (List.filter usable (map toAccount l) = map toAccount l) as Hall.
    { apply filter_all. rewrite List.Forall_forall. intros a Hin.
      apply List.in_map_iff in Hin as (c & <- & Hin).
      rewrite List.Forall_forall in Hacc.
      destruct (Hacc c Hin) as (_ & _ & _ & _ & _ & _ & Hne).
      unfold usable. cbn. apply negb_true_iff. now apply String.eqb_neq. }
    unfold closeAllPositions. destruct (map toAccount l) as [| a accts] eqn:El.
    + exists emptyResult, s. split; [reflexivity |]. cbn. now rewrite app_nil_r.
    + cbn [length Nat.eqb].
      destruct (closeAccounts_spec ex (a :: accts) emptyResult s) as (r & s' & E & Hq).
      exists r, s'. split; [exact E |]. now rewrite Hq, Hall.
Qed.

(** ** Cycle numbers *)

#[local] Instance SameCycle_preorder gid : PreOrder (SameCycle gid).
Proof.
  split.
  - intros s. split; [eauto | reflexivity].
  - intros s1 s2 s3 [G1 P1] [G2 P2]. split; [| congruence].
    intros g Hg. destruct (G1 g Hg) as (g2 & Hg2 & C2).
    destruct (G2 g2 Hg2) as (g3 & Hg3 & C3). exists g3. split; [exact Hg3 | congruence].
Qed.

Section Cycles.

Context (ex : Exchange) (tc : TradingConfig) (gid : string).


Lemma sameCycle_quiet s s' :
  activeGroups s' = activeGroups s -> groupPnL s' = groupPnL s -> SameCycle gid s s'.
Proof. intros G P. split; [rewrite G; eauto | now rewrite P]. Qed.

Lemma send_cycle c : along (SameCycle gid) (send ex c).
Proof. intros s r s' H. inversion H; subst. now apply sameCycle_quiet. Qed.

Lemma sleep_cycle ms : along (SameCycle gid) (sleep ms).
Proof. apply along_modify; try apply _. intros s. now apply sameCycle_quiet. Qed.

Lemma mathRandom_cycle : along (SameCycle gid) (mathRandom ex).
Proof. intros s r s' H. inversion H; subst. now apply sameCycle_quiet. Qed.

Lemma alloc_cycle p : along (SameCycle gid) (alloc p).
Proof. intros s r s' H. inversion H; subst. now apply sameCycle_quiet. Qed.

Lemma emit_cycle e : along (SameCycle gid) (emit e).
Proof. apply along_modify; try apply _. intros s. now apply sameCycle_quiet. Qed.

Lemma update_cycle r f : along (SameCycle gid) (update r f).
Proof. apply along_modify; try apply _. intros s. now apply sameCycle_quiet. Qed.

Lemma deref_cycle r : along (SameCycle gid) (deref r).
Proof.
  intros s res s' H. unfold deref in H.
  destruct (heap s !! r); inversion H; subst; reflexivity.
Qed.

Lemma getGroupPositions_cycle k : along (SameCycle gid) (getGroupPositions k).
Proof.
  intros s res s' H. unfold getGroupPositions in H.
  destruct (groupPositions s !! k); inversion H; subst; reflexivity.
Qed.

Lemma modifyGroup_cycle k f :
  (forall g, currentCycle (f g) = currentCycle g) ->
  along (SameCycle gid) (modifyGroup k f).
Proof.
  intros Hf. apply along_modify; try apply _. intros s. split; [| reflexivity].
  intros g Hg. simpl_state. destruct (decide (gid = k)) as [<- | Hne].
  - exists (f g). rewrite lookup_alter_eq, Hg. split; [reflexivity | apply Hf].
  - exists g. rewrite lookup_alter_ne by congruence. auto.
Qed.

Lemma placeOrder_cycle c sym side ty ps :
  along (SameCycle gid) (placeOrder ex c sym side ty ps).
Proof.
  unfold placeOrder. apply along_bind; [apply _ | apply send_cycle |].
  intros n. destruct (orderReply ex n); [apply along_throw | apply along_ret]; apply _.
Qed.

Lemma setLeverage_cycle c sym lev : along (SameCycle gid) (setLeverage ex c sym lev).
Proof.
  unfold setLeverage. apply along_bind; [apply _ | apply send_cycle |].
  intros n. destruct (leverageReply ex n); [apply along_throw | apply along_ret]; apply _.
Qed.

Lemma getSymbolPrice_cycle c sym : along (SameCycle gid) (getSymbolPrice ex c sym).
Proof.
  unfold getSymbolPrice. apply along_bind; [apply _ | apply send_cycle |].
  intros n. destruct (priceReply ex n); [apply along_throw | apply along_ret]; apply _.
Qed.

Lemma orderVia_cycle c sym side ty ps :
  along (SameCycle gid) (orderVia ex c sym side ty ps).
Proof. destruct c; [apply placeOrder_cycle | apply along_throw; apply _]. Qed.

End Cycles.

(** One step through a monadic term, for a goal [along (SameCycle gid) m]. *)
Ltac cycle_step :=
  first
    [ apply along_ret; apply _
    | apply along_throw; apply _
    | apply along_gets; apply _
    | apply send_cycle | apply sleep_cycle | apply mathRandom_cycle
    | apply alloc_cycle | apply emit_cycle | apply update_cycle | apply deref_cycle
    | apply getGroupPositions_cycle | apply placeOrder_cycle
    | apply setLeverage_cycle | apply getSymbolPrice_cycle | apply orderVia_cycle
    | apply getGroup_along; apply _
    | apply modifyGroup_cycle; intros ?; reflexivity
    | apply along_bind; [apply _ | | intros ?]
    | apply along_tryCatch; [apply _ | | intros ?] ].

Section CycleBody.

Context (ex : Exchange) (tc : TradingConfig) (gid : string) (config : Config).

Lemma along_forEach_cycle {A St} (body : A -> St -> M St) l :
  (forall x st, along (SameCycle gid) (body x st)) ->
  forall st, along (SameCycle gid) (forEach body l st).
Proof.
  intros Hb. induction l as [| x l IH]; intros st; cbn [forEach].
  - cycle_step.
  - cycle_step; [apply Hb | apply IH].
Qed.

Lemma along_forOf_cycle {A St} (body : A -> St -> M (St * bool)) l :
  (forall x st, along (SameCycle gid) (body x st)) ->
  forall st, along (SameCycle gid) (forOf body l st).
Proof.
  intros Hb. induction l as [| x l IH]; intros st; cbn [forOf].
  - cycle_step.
  - cycle_step; [apply Hb |]. destruct (snd _); [cycle_step | apply IH].
Qed.

Lemma openAttempt_cycle pair sym size attempt :
  along (SameCycle gid) (openAttempt ex tc pair sym size gid config attempt).
Proof.
  unfold openAttempt, placeOrderWithRetry, dateNow.
  cycle_step; [cycle_step |].
  destruct (find _ _); [destruct (find _ _) |]; repeat cycle_step.
Qed.

Lemma openAttempts_cycle pair sym size left :
  forall attempt lastError,
    along (SameCycle gid)
      (openAttempts ex tc left attempt lastError pair sym size gid config).
Proof.
  induction left as [| left IH]; intros attempt lastError; cbn [openAttempts].
  - cycle_step.
  - cycle_step.
    + cycle_step; [apply openAttempt_cycle | cycle_step].
    + destruct (isInsufficientMarginError _); [cycle_step |].
      destruct (Z.eqb attempt maxRetries); [cycle_step |].
      cycle_step; [cycle_step | apply IH].
Qed.

Lemma emergencyClose_cycle r : along (SameCycle gid) (emergencyClose ex gid r).
Proof.
  unfold emergencyClose. cycle_step; [| cycle_step].
  cycle_step; [cycle_step |]. cycle_step; [cycle_step |].
  destruct (find _ _); [destruct (find _ _) |]; repeat cycle_step.
Qed.

Lemma openBody_cycle sym size pair st :
  along (SameCycle gid) (openBody ex tc gid sym size config pair st).
Proof.
  unfold openBody, openPairPositionWithRetry, closePartialGroupPositions, dateNow.
  destruct (criticalErrorOccurred st); [cycle_step |].
  cycle_step; [apply openAttempts_cycle |].
  destruct a as [r | e | e].
  - repeat cycle_step.
  - cycle_step; [cycle_step |]. cycle_step; [cycle_step |].
    destruct (_ =? _)%nat; repeat cycle_step.
  - cycle_step; [cycle_step |]. cycle_step; [cycle_step |].
    cycle_step; [cycle_step |]. cycle_step; [| cycle_step].
    destruct (0 <? _)%nat; [| cycle_step].
    apply along_forEach_cycle. intros r _. apply emergencyClose_cycle.
Qed.

Lemma openGroupPositions_cycle sym :
  along (SameCycle gid) (openGroupPositions ex tc gid sym config).
Proof.
  unfold openGroupPositions, generateRandomPositionSize.
  destruct (default _ _) as [mn mx].
  cycle_step; [repeat cycle_step |].
  cycle_step; [cycle_step |].
  cycle_step; [apply along_forOf_cycle; intros; apply openBody_cycle |].
  cycle_step; [| cycle_step].
  destruct (criticalErrorOccurred _); [cycle_step |].
  cycle_step; [cycle_step |].
  apply along_modify; try apply _. intros s. now apply sameCycle_quiet.
Qed.

Lemma closeGroupPositions_cycle sym :
  along (SameCycle gid) (closeGroupPositions ex gid sym).
Proof.
  unfold closeGroupPositions. cycle_step; [cycle_step |]. cycle_step; [cycle_step |].
  apply along_forEach_cycle. intros r _. unfold closePosition, dateNow.
  repeat cycle_step.
Qed.

Lemma checkRetry_cycle : along (SameCycle gid) (checkRetry gid).
Proof.
  unfold checkRetry, dateNow. cycle_step; [cycle_step |].
  destruct (criticalError _); [| cycle_step].
  destruct (retryAfter _) as [retryAt |]; [| cycle_step].
  destruct (retryAt =? 0); [cycle_step |].
  cycle_step; [cycle_step |]. destruct (_ <? _); repeat cycle_step.
Qed.

Lemma stopTrading_cycle : along (SameCycle gid) stopTrading.
Proof.
  unfold stopTrading. cycle_step; [| cycle_step].
  apply along_modify; try apply _. intros s. split; [| reflexivity].
  intros g Hg. simpl_state. exists (setInactive g).
  rewrite lookup_fmap, Hg. auto.
Qed.

Lemma numbered_same s s' : Numbered gid s -> SameCycle gid s s' -> Numbered gid s'.
Proof.
  intros (g & p & Hg & Hp & H0 & Hc & Hn) [G P].
  destruct (G g Hg) as (g' & Hg' & Hcc).
  exists g', p. rewrite P, Hcc. auto.
Qed.

Lemma updateGroupPnL_numbers s res s' :
  Numbered gid s ->
  updateGroupPnL gid s = (res, s') ->
  match res with
  | Throw _ => s' = s
  | Return _ =>
      exists g p cyclePnL now n,
        activeGroups s !! gid = Some g /\ groupPnL s !! gid = Some p
        /\ activeGroups s' = activeGroups s
        /\ groupPnL s' !! gid
           = Some {| totalPnL := Js.add (totalPnL p) cyclePnL;
                     trades := trades p ++
                       [{| cycle := currentCycle g + 1; timestamp := now;
                           pnl := cyclePnL; positions := n |}];
                     pnl_currentCycle := currentCycle g + 1 |}
  end.
Proof.
  intros (g & p & Hg & Hp & _) H. unfold updateGroupPnL in H.
  unfold bind at 1 in H. unfold gets at 1 in H. rewrite Hp in H.
  destruct (groupPositions s !! gid) as [l |]; [| now inversion H].
  apply bind_inv in H as [(v & s1 & Hsum & H) | (e & Hsum & ->)].
  - assert (s1 = s) as ->.
    { clear H. revert Hsum. generalize (Num 0).
      induction (List.filter (hasStatus "closed" (heap s)) l) as [| r rs IH];
        intros acc Hsum; cbn [forEach] in Hsum.
      - now inversion Hsum.
      - unfold bind at 1 in Hsum. unfold bind at 1 in Hsum. unfold deref at 1 in Hsum.
        destruct (heap s !! r); [| discriminate]. unfold ret at 1 in Hsum.
        eapply IH, Hsum. }
    unfold bind at 1 in H. unfold getGroup at 1 in H. rewrite Hg in H.
    cbv [bind dateNow gets modify emit ret] in H. inversion H; subst; clear H.
    simpl_state. exists g, p, v, (clock s). eexists. rewrite lookup_insert_eq. auto.
  - clear Hp. revert Hsum. generalize (Num 0).
    induction (List.filter (hasStatus "closed" (heap s)) l) as [| r rs IH];
      intros acc Hsum; cbn [forEach] in Hsum.
    + discriminate.
    + unfold bind at 1 in Hsum. unfold bind at 1 in Hsum. unfold deref at 1 in Hsum.
      destruct (heap s !! r); [| now inversion Hsum]. unfold ret at 1 in Hsum.
      eapply IH, Hsum.
Qed.

Lemma seq_snoc_Z (n : Z) :
  0 <= n ->
  map Z.of_nat (seq 1 (Z.to_nat (n + 1))) = map Z.of_nat (seq 1 (Z.to_nat n)) ++ [n + 1].
Proof.
  intros Hn. replace (Z.to_nat (n + 1)) with (Z.to_nat n + 1)%nat by lia.
  rewrite seq_app, map_app. cbn [seq map]. do 2 f_equal. lia.
Qed.

Lemma tradingCycle_numbers s res s' :
  Numbered gid s ->
  tradingCycle ex tc gid config s = (res, s') ->
  Numbered gid s'.
Proof.
  intros Hn H. unfold tradingCycle in H.
  apply bind_inv in H as [(coin & s1 & H1 & H) | (e & H1 & _)].
  2: { eapply numbered_same; [exact Hn |]. unfold selectRandomCoin in H1.
       eapply (along_bind (SameCycle gid)); [| | exact H1]; intros; cycle_step. }
  assert (SameCycle gid s s1) as S1.
  { unfold selectRandomCoin in H1.
    eapply (along_bind (SameCycle gid)); [| | exact H1]; intros; cycle_step. }
  apply bind_inv in H as [(n & s2 & H2 & H) | (e & H2 & _)];
    pose proof (openGroupPositions_cycle _ _ _ _ H2) as S2.
  2: { eapply numbered_same; [exact Hn | now transitivity s1]. }
  assert (Numbered gid s2) as Hn2.
  { eapply numbered_same; [exact Hn | now transitivity s1]. }
  clear Hn S1 S2 H1 H2 s s1. 
  apply bind_inv in H as [(g & s2' & Hg & H) | (e & Hg & _)].
  2: { unfold getGroup in Hg. destruct (activeGroups s2 !! gid); inversion Hg; now subst. }
  assert (s2' = s2) as ->.
  { unfold getGroup in Hg. destruct (activeGroups s2 !! gid); now inversion Hg. }
  destruct (criticalError g); [now inversion H; subst |].
  destruct (negb (isActive g)); [now inversion H; subst |].
  apply bind_inv in H as [([] & s3 & H3 & H) | (e & H3 & _)].
  2: { eapply numbered_same; [exact Hn2 |].
       destruct (0 <? n)%nat; [| now inversion H3; subst].
       unfold generateRandomCloseTime in H3. destruct (default _ _) as [mn mx].
       eapply (along_bind (SameCycle gid)); [| | exact H3].
       - repeat cycle_step.
       - intros. cycle_step; [cycle_step | apply closeGroupPositions_cycle]. }
  assert (Numbered gid s3) as Hn3.
  { eapply numbered_same; [exact Hn2 |].
    destruct (0 <? n)%nat; [| now inversion H3; subst].
    unfold generateRandomCloseTime in H3. destruct (default _ _) as [mn mx].
    eapply (along_bind (SameCycle gid)); [| | exact H3].
    - repeat cycle_step.
    - intros. cycle_step; [cycle_step | apply closeGroupPositions_cycle]. }
  clear Hn2 H3 Hg.
  apply bind_inv in H as [([] & s4 & H4 & H) | (e & H4 & _)];
    pose proof (updateGroupPnL_numbers _ _ _ Hn3 H4) as Hupd; cbn beta iota in Hupd.
  2: { now subst. }
  destruct Hupd as (g3 & p3 & v & now & k & Hg3 & Hp3 & G4 & P4).
  destruct Hn3 as (g3' & p3' & Hg3' & Hp3' & H0 & Hc & Hnum).
  assert (g3' = g3) as -> by congruence. assert (p3' = p3) as -> by congruence.
  assert (Numbered gid (setActiveGroups (alter (cycleDone (clock s4)) gid (activeGroups s4)) s4))
    as Hn5.
  { eexists (cycleDone (clock s4) g3), _. simpl_state.
    rewrite lookup_alter_eq, G4, Hg3. split; [reflexivity |]. split; [exact P4 |].
    cbn [currentCycle cycleDone pnl_currentCycle trades].
    split; [lia |]. split; [reflexivity |].
    rewrite map_app, Hnum. cbn [map cycle]. now rewrite seq_snoc_Z. }
  cbv [bind dateNow gets modifyGroup modify] in H.
  match type of H with
  | context [getGroup gid ?st] => destruct (getGroup gid st) as [[g5 | e5] s5] eqn:E5
  end.
  - assert (s5 = setActiveGroups (alter (cycleDone (clock s4)) gid (activeGroups s4)) s4) as ->.
    { unfold getGroup in E5. destruct (_ !! gid) in E5; now inversion E5. }
    cbv [emit modify sleep ret] in H. inversion H; subst; clear H.
    eapply numbered_same; [exact Hn5 |]. now apply sameCycle_quiet.
  - inversion H; subst; clear H.
    unfold getGroup in E5. destruct (_ !! gid) in E5; inversion E5; now subst.
Qed.

Lemma iteration_numbers s res s' :
  Numbered gid s -> iteration ex tc gid config s = (res, s') -> Numbered gid s'.
Proof.
  intros Hn H. unfold iteration in H.
  apply bind_inv in H as [(w & s1 & H1 & H) | (e & H1 & _)];
    pose proof (numbered_same _ _ Hn (checkRetry_cycle _ _ _ H1)) as Hn1.
  2: { exact Hn1. }
  destruct w; [now inversion H; subst |].
  unfold bind at 1 in H. unfold checkActiveGroups at 1, gets at 1 in H.
  destruct (_ =? 0)%nat.
  { apply bind_inv in H as [([] & s2 & H2 & H) | (e & H2 & _)];
      pose proof (numbered_same _ _ Hn1 (stopTrading_cycle _ _ _ H2)) as Hn2;
      [now inversion H; subst | exact Hn2]. }
  apply bind_inv in H as [(g & s1' & Hg & H) | (e & Hg & _)].
  2: { unfold getGroup in Hg. destruct (activeGroups s1 !! gid); inversion Hg; now subst. }
  assert (s1' = s1) as ->.
  { unfold getGroup in Hg. destruct (activeGroups s1 !! gid); now inversion Hg. }
  destruct (negb (isActive g)).
  { cbv [bind sleep modify ret] in H. inversion H; subst.
    eapply numbered_same; [exact Hn1 |]. now apply sameCycle_quiet. }
  apply bind_inv in H as [([] & s2 & H2 & H) | (e & H2 & _)].
  - assert (Numbered gid s2) as Hn2; [| now inversion H; subst].
    unfold tryCatch in H2.
    destruct (tradingCycle ex tc gid config s1) as [[[] | e] s1'] eqn:E.
    + inversion H2; subst. eapply tradingCycle_numbers; eauto.
    + pose proof (tradingCycle_numbers _ _ _ Hn1 E) as Hn1'.
      eapply numbered_same; [exact Hn1' |].
      destruct (isInsufficientMarginError e).
      * eapply (along_bind (SameCycle gid)); [| | exact H2]; intros; cycle_step.
      * eapply (along_bind (SameCycle gid)); [| | exact H2]; intros; cycle_step.
  - unfold tryCatch in H2.
    destruct (tradingCycle ex tc gid config s1) as [[[] | e'] s1'] eqn:E;
      [discriminate |].
    pose proof (tradingCycle_numbers _ _ _ Hn1 E) as Hn1'.
    eapply numbered_same; [exact Hn1' |].
    destruct (isInsufficientMarginError e').
    + eapply (along_bind (SameCycle gid)); [| | exact H2]; intros; cycle_step.
    + eapply (along_bind (SameCycle gid)); [| | exact H2]; intros; cycle_step.
Qed.

Lemma startGroupTrading_numbers fuel :
  forall s res s',
    Numbered gid s -> startGroupTrading ex tc fuel gid config s = (res, s') ->
    Numbered gid s'.
Proof.
  induction fuel as [| fuel IH]; intros s res s' Hn H; cbn [startGroupTrading] in H.
  - now inversion H; subst.
  - unfold bind at 1 in H. unfold gets at 1 in H.
    destruct (isRunning s); [| now inversion H; subst].
    apply bind_inv in H as [(step & s1 & H1 & H) | (e & H1 & _)];
      pose proof (iteration_numbers _ _ _ Hn H1) as Hn1; [| exact Hn1].
    destruct step; [eapply IH; eauto | now inversion H; subst].
Qed.

End CycleBody.

(** X22. A group's cycle counter and its PnL entry stay in step:
    [initializeGroup] starts both at 0 with no trade record, and over any
    number of passes of the group's loop the PnL entry's [currentCycle]
    equals the group's [currentCycle] and the trade records carry the cycle
    numbers 1, 2, ... up to it, one record per completed cycle. *)
Theorem trade_records_are_numbered_by_cycle :
  (forall group s, Numbered (g_id group) (snd (initializeGroup group s)))
  /\ (forall ex tc gid config fuel s,
        Numbered gid s ->
        Numbered gid (snd (startGroupTrading ex tc fuel gid config s))).
Proof.
  split.
  - intros group s. unfold initializeGroup, modify. cbn [snd].
    eexists _, _. simpl_state. rewrite !lookup_insert_eq.
    split; [reflexivity |]. split; [reflexivity |]. cbn. repeat split. lia.
  - intros ex tc gid config fuel s Hn.
    destruct (startGroupTrading ex tc fuel gid config s) as [res s'] eqn:E.
    eapply startGroupTrading_numbers; eauto.
Qed.

Lemma trade_records_witness :
  Numbered "group_1"
    (snd (startGroupTrading Scenario.risingLong Scenario.fileConfig 2 "group_1"
            Scenario.config (Scenario.started Scenario.onePair))).
Proof.
  apply (proj2 trade_records_are_numbered_by_cycle Scenario.risingLong Scenario.fileConfig
           "group_1" Scenario.config 2%nat (Scenario.started Scenario.onePair)).
  exact (proj1 trade_records_are_numbered_by_cycle Scenario.onePair Scenario.idle).
Defined.
